(** * Resume optimizer: n-gram extraction, rewriting with change tracking, ATS scoring

    A shallow embedding of the three analytic functions of the application
    (WordCloudTab.generateNgrams, ResumeTab.processText / handleEnhance,
    ATSChecker.analyzeKeywords / handleFileUpload) together with the part of
    the JavaScript runtime they run on: strings, numbers, plain objects used
    as maps, Array.prototype.sort and the backtracking regular expressions
    of String.prototype.replace / split / RegExp.prototype.test.

    Strings are [string]s whose characters are read as the code units
    0..255 (Latin-1); texts with code units above 255 are outside the model. *)

From Stdlib Require Import List String Ascii Bool Arith ZArith QArith Qround Lia.
From Stdlib Require Import Permutation.
Import ListNotations.
Local Open Scope string_scope.
Local Open Scope nat_scope.

Set Implicit Arguments.

(* ================================================================= *)
(** ** The JavaScript runtime *)

Module JS.

(** *** Characters *)

Definition code (c : ascii) : nat := nat_of_ascii c.

Definition between (lo hi : nat) (c : ascii) : bool :=
  (lo <=? code c) && (code c <=? hi).

Definition isDigit (c : ascii) : bool := between 48 57 c.
Definition isUpperAZ (c : ascii) : bool := between 65 90 c.
Definition isLowerAZ (c : ascii) : bool := between 97 122 c.

(** [\w] without the unicode flag: [A-Za-z0-9_]. *)
Definition isWordChar (c : ascii) : bool :=
  isLowerAZ c || isUpperAZ c || isDigit c || (code c =? 95).

(** [\s] on the modelled code units: TAB, LF, VT, FF, CR, SPACE, NBSP. *)
Definition isWhiteSpace (c : ascii) : bool :=
  between 9 13 c || (code c =? 32) || (code c =? 160).

(** LF and CR (the other line terminators are above 255). *)
Definition isLineTerminator (c : ascii) : bool :=
  (code c =? 10) || (code c =? 13).

(** Code units with a lowercase partner inside Latin-1: A-Z and
    U+00C0..U+00DE except the multiplication sign U+00D7. *)
Definition hasLower (c : ascii) : bool :=
  isUpperAZ c || (between 192 222 c && negb (code c =? 215)).

Definition hasUpper (c : ascii) : bool :=
  isLowerAZ c || (between 224 254 c && negb (code c =? 247)).

Definition toLowerChar (c : ascii) : ascii :=
  if hasLower c then ascii_of_nat (code c + 32) else c.

(** Canonicalize of the regular-expression semantics under the
    ignoreCase flag (no unicode flag): the uppercase code unit when there
    is a single one; U+00DF, U+00B5 and U+00FF have no uppercase partner
    inside the modelled code units and stay distinct from every other. *)
Definition canonicalize (c : ascii) : ascii :=
  if hasUpper c then ascii_of_nat (code c - 32) else c.

(** *** Strings *)

(** String.prototype.toLowerCase on the modelled code units U+0000 to
    U+00FF.  Beyond them lowercasing can bring an ASCII letter in (U+212A
    becomes k, U+0130 becomes i and U+0307); a statement that holds for
    these code units only says so. *)
Fixpoint toLowerCase (s : string) : string :=
  match s with
  | EmptyString => EmptyString
  | String c s' => String (toLowerChar c) (toLowerCase s')
  end.

Fixpoint startsWith (p s : string) : bool :=
  match p, s with
  | EmptyString, _ => true
  | String a p', String b s' => Ascii.eqb a b && startsWith p' s'
  | String _ _, EmptyString => false
  end.

(** String.prototype.includes *)
Fixpoint includes (s sub : string) : bool :=
  startsWith sub s ||
  match s with
  | EmptyString => false
  | String _ s' => includes s' sub
  end.

(** String.prototype.slice for arguments that are not negative. *)
Definition slice (s : string) (from to : nat) : string :=
  substring from (to - from) s.

Fixpoint filterChars (f : ascii -> bool) (s : string) : string :=
  match s with
  | EmptyString => EmptyString
  | String c s' => if f c then String c (filterChars f s') else filterChars f s'
  end.

Fixpoint allChars (f : ascii -> bool) (s : string) : bool :=
  match s with
  | EmptyString => true
  | String c s' => f c && allChars f s'
  end.

Definition startsWithSpace (s : string) : bool :=
  match s with
  | String c _ => isWhiteSpace c
  | EmptyString => false
  end.

(** [s.split(/\s+/)]: the pieces between maximal whitespace runs; a run at
    either end of [s] leaves an empty piece there, and the empty string
    splits into one empty piece. *)
Fixpoint split_ws (s : string) : list string :=
  match s with
  | EmptyString => [EmptyString]
  | String c s' =>
      let r := split_ws s' in
      if isWhiteSpace c then
        if startsWithSpace s' then r else EmptyString :: r
      else
        match r with
        | w :: r' => String c w :: r'
        | [] => [String c EmptyString]
        end
  end.

(** Array.prototype.join *)
Fixpoint join (sep : string) (l : list string) : string :=
  match l with
  | [] => EmptyString
  | [w] => w
  | w :: l' => w ++ sep ++ join sep l'
  end.

(** *** Completions: a call returns or throws *)

Inductive completion (A : Type) : Type :=
| Normal (a : A)
| Throw (e : string).

Arguments Normal {A} a.
Arguments Throw {A} e.

(** *** Arrays *)

(** Array.prototype.slice(start, end) on integer arguments: a negative
    argument counts from the end of the array. *)
Definition relIndex (len k : Z) : Z :=
  if (k <? 0)%Z then Z.max (len + k) 0 else Z.min k len.

Definition Array_slice {A : Type} (l : list A) (start stop : Z) : list A :=
  let len := Z.of_nat (List.length l) in
  let k := relIndex len start in
  let final := relIndex len stop in
  firstn (Z.to_nat (final - k)) (skipn (Z.to_nat k) l).

(** Array.prototype.sort(comparefn) is stable; a comparator result that is
    NaN counts as +0.  The comparator is given as [option Z], [None] for
    NaN.  [Array_sort] is an insertion sort: for a comparator that is a
    consistent ordering of the elements every stable sort, and so every
    engine, yields this result.  Where the comparator is no consistent
    ordering (it returns NaN for some pair) the language leaves the
    order to the engine, and [Array_sort] is one of the orders it allows,
    not the order of a particular engine; [V8_sort_short] below is what
    V8 returns.  Statements about the order of a sorted result carry the
    condition that the comparator returns no NaN. *)
Section Sort.
Variable A : Type.
Variable comparefn : A -> A -> option Z.

Definition notAfter (x y : A) : bool :=
  match comparefn x y with
  | Some v => (v <=? 0)%Z
  | None => true
  end.

Fixpoint insert (x : A) (l : list A) : list A :=
  match l with
  | [] => [x]
  | y :: l' => if notAfter x y then x :: l else y :: insert x l'
  end.

Definition Array_sort (l : list A) : list A := fold_right insert [] l.
End Sort.

(** The sort of V8 on an array of fewer than 64 elements, for which its
    TimSort has a single run: it takes the longest run at the front that
    is non-descending, or strictly descending (and then reverses it), and
    puts the elements behind it into the run one by one by binary
    insertion.  Arrays of 64 elements and more are merged from several
    runs, which is not modelled. *)
Section SortV8.
Variable A : Type.
Variable comparefn : A -> A -> option Z.

(** SortCompare with a comparator function: NaN counts as +0. *)
Definition SortCompare (x y : A) : Z :=
  match comparefn x y with
  | Some v => v
  | None => 0%Z
  end.

(** The number of elements of [l] that continue the run behind [prev]. *)
Fixpoint run_more (descending : bool) (prev : A) (l : list A) : nat :=
  match l with
  | [] => 0
  | cur :: l' =>
      let order := SortCompare cur prev in
      if (if descending then (0 <=? order)%Z else (order <? 0)%Z) then 0
      else S (run_more descending cur l')
  end.

(** CountAndMakeRun: the run at the front, made ascending, and the
    elements behind it. *)
Definition CountAndMakeRun (l : list A) : list A * list A :=
  match l with
  | x0 :: x1 :: l' =>
      let descending := (SortCompare x1 x0 <? 0)%Z in
      let runLength := 2 + run_more descending x1 l' in
      (if descending then rev (firstn runLength l) else firstn runLength l,
       skipn runLength l)
  | _ => (l, [])
  end.

(** The binary search of BinaryInsertionSort for the place of [pivot]
    between the indices [left] and [right] of [sorted]. *)
Fixpoint search (fuel : nat) (pivot : A) (sorted : list A) (left right : nat)
    : nat :=
  match fuel with
  | 0 => left
  | S fuel' =>
      if left <? right then
        let mid := left + (right - left) / 2 in
        match nth_error sorted mid with
        | Some e =>
            if (SortCompare pivot e <? 0)%Z
            then search fuel' pivot sorted left mid
            else search fuel' pivot sorted (S mid) right
        | None => left
        end
      else left
  end.

Definition BinaryInsertion (sorted : list A) (pivot : A) : list A :=
  let left := search (S (List.length sorted)) pivot sorted 0 (List.length sorted) in
  firstn left sorted ++ pivot :: skipn left sorted.

Definition V8_sort_short (l : list A) : list A :=
  let (run, rest) := CountAndMakeRun l in
  fold_left BinaryInsertion rest run.
End SortV8.

(** *** Numbers

    A number is NaN, an infinity or a finite value; finite values are
    exact rationals kept in lowest terms (the rounding of IEEE doubles is
    not modelled). *)

Inductive number : Type :=
| NaN
| Infinity (negative : bool)
| Num (q : Q).

Definition ofNat (n : nat) : number := Num (Qred (inject_Z (Z.of_nat n))).

Definition isNeg (q : Q) : bool := (Qnum q <? 0)%Z.
Definition isZero (q : Q) : bool := (Qnum q =? 0)%Z.

Definition div (a b : number) : number :=
  match a, b with
  | NaN, _ | _, NaN => NaN
  | Infinity _, Infinity _ => NaN
  | Infinity n, Num y => Infinity (xorb n (isNeg y))
  | Num _, Infinity _ => Num 0
  | Num x, Num y =>
      if isZero y then (if isZero x then NaN else Infinity (isNeg x))
      else Num (Qred (x / y))
  end.

Definition mul (a b : number) : number :=
  match a, b with
  | NaN, _ | _, NaN => NaN
  | Infinity n, Infinity m => Infinity (xorb n m)
  | Infinity n, Num y => if isZero y then NaN else Infinity (xorb n (isNeg y))
  | Num x, Infinity m => if isZero x then NaN else Infinity (xorb (isNeg x) m)
  | Num x, Num y => Num (Qred (x * y))
  end.

Definition add (a b : number) : number :=
  match a, b with
  | NaN, _ | _, NaN => NaN
  | Infinity n, Infinity m => if Bool.eqb n m then Infinity n else NaN
  | Infinity n, Num _ => Infinity n
  | Num _, Infinity m => Infinity m
  | Num x, Num y => Num (Qred (x + y))
  end.

(** *** Vocabulary of the statements *)

(** Every code unit of the model. *)
Definition all_ascii : list ascii := map ascii_of_nat (seq 0 256).

Definition sumZ (l : list Z) : Z := fold_right Z.add 0%Z l.

(** [x] stands somewhere in front of [y] in the list. *)
Inductive before (A : Type) (x y : A) : list A -> Prop :=
| before_here l : In y l -> before x y (x :: l)
| before_skip z l : before x y l -> before x y (z :: l).

End JS.

(* ================================================================= *)
(** ** Regular expressions

    Patterns without capturing groups and back-references (the patterns
    written in the source have neither).  The matcher follows the
    backtracking semantics of the language: [ends] lists, in the order in
    which backtracking would try them, the states in which a match of the
    pattern can end; the first one is the match the engine reports. *)

Module Regex.
Import JS.

Inductive class_item : Type :=
| CChar (c : ascii)
| CRange (lo hi : ascii)
| CDigit                       (* \d *)
| CSpace                       (* \s *)
| CWord.                       (* \w *)

Inductive regex : Type :=
| Empty
| Char (c : ascii)
| Dot
| Class (negated : bool) (items : list class_item)
| Seq (r1 r2 : regex)
| Alt (r1 r2 : regex)
| Repeat (r : regex) (min : nat) (max : option nat) (greedy : bool)
| Bol                          (* ^ *)
| Eol                          (* $ *)
| WordB                        (* \b *)
| NotWordB                     (* \B *)
| Look (negated : bool) (r : regex).   (* (?=r) and (?!r) *)

Record flags : Type := { ignoreCase : bool; multiline : bool }.

(** A position in the subject: the code unit before it (if any) and the
    rest of the subject. *)
Definition position : Type := (option ascii * string)%type.

Definition item_has (i : class_item) (c : ascii) : bool :=
  match i with
  | CChar a => Ascii.eqb a c
  | CRange lo hi => (code lo <=? code c) && (code c <=? code hi)
  | CDigit => isDigit c
  | CSpace => isWhiteSpace c
  | CWord => isWordChar c
  end.

(** Under ignoreCase a code unit is in a class when a member of the class
    has the same canonical form; the code units with the canonical form
    [u] are [u] and its lowercase partner. *)
Definition class_has (fl : flags) (items : list class_item) (c : ascii) : bool :=
  if ignoreCase fl then
    existsb (fun i => item_has i (canonicalize c)
                      || item_has i (toLowerChar (canonicalize c))) items
  else existsb (fun i => item_has i c) items.

Definition char_matches (fl : flags) (a c : ascii) : bool :=
  if ignoreCase fl then Ascii.eqb (canonicalize a) (canonicalize c)
  else Ascii.eqb a c.

(** What one atom accepts. *)
Definition atom_accepts (fl : flags) (r : regex) (c : ascii) : bool :=
  match r with
  | Char a => char_matches fl a c
  | Dot => negb (isLineTerminator c)
  | Class neg items => xorb neg (class_has fl items c)
  | _ => false
  end.

Definition step_atom (fl : flags) (r : regex) (s : string) : list position :=
  match s with
  | String c s' => if atom_accepts fl r c then [(Some c, s')] else []
  | EmptyString => []
  end.

Definition wordBefore (p : option ascii) : bool :=
  match p with Some c => isWordChar c | None => false end.

Definition wordAfter (s : string) : bool :=
  match s with String c _ => isWordChar c | EmptyString => false end.

Definition atBoundary (p : option ascii) (s : string) : bool :=
  xorb (wordBefore p) (wordAfter s).

Definition atBol (fl : flags) (p : option ascii) : bool :=
  match p with
  | None => true
  | Some c => multiline fl && isLineTerminator c
  end.

Definition atEol (fl : flags) (s : string) : bool :=
  match s with
  | EmptyString => true
  | String c _ => multiline fl && isLineTerminator c
  end.

Definition guard (b : bool) (p : option ascii) (s : string) : list position :=
  if b then [(p, s)] else [].

Definition pred_max (max : option nat) : option nat :=
  match max with Some m => Some (Nat.pred m) | None => None end.

Definition max_is_zero (max : option nat) : bool :=
  match max with Some 0 => true | _ => false end.

(** RepeatMatcher: an iteration that consumes nothing once [min] is
    reached is rejected, so every iteration lowers [min] or shortens the
    rest, and [S (min + length s)] rounds of [fuel] are never used up
    (lemma [repeat_ends_fuel]). *)
Fixpoint repeat_ends (step : option ascii -> string -> list position)
    (greedy : bool) (fuel : nat) (min : nat) (max : option nat)
    (p : option ascii) (s : string) : list position :=
  match fuel with
  | 0 => []
  | S fuel' =>
      if max_is_zero max then [(p, s)]
      else
        let iter :=
          flat_map (fun ps : position =>
                      if (min =? 0) && (String.length (snd ps) =? String.length s)
                      then []
                      else repeat_ends step greedy fuel' (Nat.pred min)
                             (pred_max max) (fst ps) (snd ps))
                   (step p s) in
        if negb (min =? 0) then iter
        else if greedy then iter ++ [(p, s)]
        else (p, s) :: iter
  end.

Fixpoint ends (fl : flags) (r : regex) (p : option ascii) (s : string)
    {struct r} : list position :=
  match r with
  | Empty => [(p, s)]
  | Char _ | Dot | Class _ _ => step_atom fl r s
  | Seq r1 r2 =>
      flat_map (fun ps : position => ends fl r2 (fst ps) (snd ps)) (ends fl r1 p s)
  | Alt r1 r2 => ends fl r1 p s ++ ends fl r2 p s
  | Repeat r' min max greedy =>
      repeat_ends (ends fl r') greedy (S (min + String.length s)) min max p s
  | Bol => guard (atBol fl p) p s
  | Eol => guard (atEol fl s) p s
  | WordB => guard (atBoundary p s) p s
  | NotWordB => guard (negb (atBoundary p s)) p s
  | Look neg r' =>
      guard (xorb neg (match ends fl r' p s with [] => false | _ :: _ => true end)) p s
  end.

(** The part of [s] in front of its suffix [s']. *)
Definition consumed (s s' : string) : string :=
  substring 0 (String.length s - String.length s') s.

Record match_result : Type := {
  index : nat;                 (* where the match starts *)
  matched : string;            (* match[0] *)
  after : position             (* the position behind the match *)
}.

(** RegExp.prototype.exec from the position [(p, s)], which is at index
    [i] of the subject: the leftmost position at which the pattern
    matches, and there the first match in backtracking order. *)
Fixpoint exec_from (fl : flags) (r : regex) (p : option ascii) (s : string)
    (i : nat) : option match_result :=
  match ends fl r p s with
  | ps :: _ => Some {| index := i; matched := consumed s (snd ps); after := ps |}
  | [] =>
      match s with
      | EmptyString => None
      | String c s' => exec_from fl r (Some c) s' (S i)
      end
  end.

(** RegExp.prototype.test of a pattern without the global flag. *)
Definition test (fl : flags) (r : regex) (s : string) : bool :=
  match exec_from fl r None s 0 with Some _ => true | None => false end.

(** The successive matches of a global pattern, as String.prototype.replace
    collects them: after an empty match the search resumes one code unit
    further, otherwise behind the match. *)
Fixpoint matchAll_from (fuel : nat) (fl : flags) (r : regex)
    (p : option ascii) (s : string) (i : nat) : list match_result :=
  match fuel with
  | 0 => []
  | S fuel' =>
      match exec_from fl r p s i with
      | None => []
      | Some m =>
          m ::
          match matched m, snd (after m) with
          | EmptyString, EmptyString => []
          | EmptyString, String c s' =>
              matchAll_from fuel' fl r (Some c) s' (S (index m))
          | String _ _, s' =>
              matchAll_from fuel' fl r (fst (after m)) s'
                            (index m + String.length (matched m))
          end
      end
  end.

Definition matchAll (fl : flags) (r : regex) (s : string) : list match_result :=
  matchAll_from (S (String.length s)) fl r None s 0.

(** The result string of replace: the stretches between the matches with
    the replacement strings in place of the matches. *)
Fixpoint splice (s : string) (pos : nat) (ms : list (match_result * string)) : string :=
  match ms with
  | [] => substring pos (String.length s - pos) s
  | (m, rep) :: ms' =>
      substring pos (index m - pos) s ++ rep
        ++ splice s (index m + String.length (matched m)) ms'
  end.

(** String.prototype.replace(regex, callback) for a global pattern: the
    callback is called once per match, in order, with the matched text
    and its offset; it returns the replacement and may update the state
    [St] it closes over. *)
Section Replace.
Variable St : Type.
Variable callback : string -> nat -> St -> string * St.

Fixpoint run_callbacks (ms : list match_result) (st : St)
    : list (match_result * string) * St :=
  match ms with
  | [] => ([], st)
  | m :: ms' =>
      let (rep, st1) := callback (matched m) (index m) st in
      let (reps, st2) := run_callbacks ms' st1 in
      ((m, rep) :: reps, st2)
  end.

Definition replace (fl : flags) (r : regex) (s : string) (st : St) : string * St :=
  let (reps, st') := run_callbacks (matchAll fl r s) st in
  (splice s 0 reps, st').
End Replace.

(** A string as a pattern: its code units in sequence. *)
Fixpoint literal (w : string) : regex :=
  match w with
  | EmptyString => Empty
  | String c w' => Seq (Char c) (literal w')
  end.

Definition digit : regex := Class false [CDigit].
Definition space : regex := Class false [CSpace].
Definition star (r : regex) : regex := Repeat r 0 None true.
Definition plus (r : regex) : regex := Repeat r 1 None true.
Definition opt (r : regex) : regex := Repeat r 0 (Some 1) true.
Definition times (r : regex) (lo hi : nat) : regex := Repeat r lo (Some hi) true.

Fixpoint alts (rs : list regex) : regex :=
  match rs with
  | [] => Empty
  | [r] => r
  | r :: rs' => Alt r (alts rs')
  end.

Fixpoint seqs (rs : list regex) : regex :=
  match rs with
  | [] => Empty
  | [r] => r
  | r :: rs' => Seq r (seqs rs')
  end.

(** The code units a match of the pattern can contain: those its atoms
    accept (assertions and lookaheads consume nothing). *)
Fixpoint alphabet (fl : flags) (r : regex) (c : ascii) : bool :=
  match r with
  | Char _ | Dot | Class _ _ => atom_accepts fl r c
  | Seq r1 r2 | Alt r1 r2 => alphabet fl r1 c || alphabet fl r2 c
  | Repeat r' _ _ _ => alphabet fl r' c
  | Empty | Bol | Eol | WordB | NotWordB | Look _ _ => false
  end.

Definition gi : flags := {| ignoreCase := true; multiline := false |}.
Definition noflags : flags := {| ignoreCase := false; multiline := false |}.
Definition fl_m : flags := {| ignoreCase := false; multiline := true |}.
Definition fl_i : flags := {| ignoreCase := true; multiline := false |}.

(** *** Vocabulary of the statements *)

(** From the text [s] the matcher can reach the position [ps] by
    consuming code units that satisfy [A]. *)
Definition consumes (A : ascii -> bool) (s : string) (ps : position) : Prop :=
  exists m, s = m ++ snd ps /\ allChars A m = true.

(** The code unit in front of the position reached from a position with
    [p] in front by consuming [m]. *)
Fixpoint lastOr (p : option ascii) (m : string) : option ascii :=
  match m with
  | EmptyString => p
  | String c m' => lastOr (Some c) m'
  end.

(** [mr] is a match of [r] in the text [t], whose first code unit has the
    index [i] in the subject. *)
Definition match_from (fl : flags) (r : regex) (i : nat) (t : string)
    (mr : match_result) : Prop :=
  exists pre p0 t0,
    t = pre ++ t0 /\ index mr = i + String.length pre /\
    In (after mr) (ends fl r p0 t0) /\
    matched mr = consumed t0 (snd (after mr)).

(** The matcher can end somewhere; exec reports a match. *)
Definition found_end (l : list position) : bool :=
  match l with [] => false | _ :: _ => true end.

Definition found_match (m : option match_result) : bool :=
  match m with Some _ => true | None => false end.

End Regex.

(* ================================================================= *)
(** ** WordCloudTab: n-gram extraction *)

Module WordCloudTab.
Import JS.

(** What a property of the plain object [ngrams] can hold: a number, or
    the text left by a string concatenation. *)
Inductive jsval : Type :=
| VNum (z : Z)
| VStr (s : string).

(** interface Word (the fields the extraction fills in) *)
Record Word : Type := { text : string; value : jsval }.

(** The own properties of [ngrams], in the order of their creation; this
    is the order of Object.entries for keys that are not array indices. *)
Definition object : Type := list (string * jsval).

Fixpoint own (o : object) (k : string) : option jsval :=
  match o with
  | [] => None
  | (k', v) :: o' => if (k' =? k)%string then Some v else own o' k
  end.

Fixpoint set (o : object) (k : string) (v : jsval) : object :=
  match o with
  | [] => [(k, v)]
  | (k', v') :: o' =>
      if (k' =? k)%string then (k, v) :: o' else (k', v') :: set o' k v
  end.

(** How the engine prints the function that [{}] inherits under the key
    constructor (the text is the engine's choice; nothing below depends on it
    beyond its being a non-empty text). *)
Definition Object_source : string := "function Object() { [native code] }".

(** [(ngrams[phrase] || 0) + 1].  [ngrams] is created as [{}], so a key it
    does not own is looked up in Object.prototype.  Of the names found
    there only constructor is made of lowercase letters, which is all a
    phrase can contain (lemma [windows_alphabet]); its value is a function,
    which is truthy, and adding 1 to it concatenates. *)
Definition bump (o : object) (phrase : string) : jsval :=
  match own o phrase with
  | Some (VNum z) => VNum (z + 1)
  | Some (VStr s) =>
      match s with
      | EmptyString => VNum 1
      | String _ _ => VStr (s ++ "1")
      end
  | None =>
      if (phrase =? "constructor")%string then VStr (Object_source ++ "1")
      else VNum 1
  end.

(** Set.prototype.has / add / delete on the state [excludedWords], a set
    given by the list of its elements. *)
Definition Set_has (s : list string) (x : string) : bool :=
  existsb (String.eqb x) s.

Definition Set_add (x : string) (s : list string) : list string :=
  if Set_has s x then s else s ++ [x].

Definition Set_delete (x : string) (s : list string) : list string :=
  filter (fun y => negb (String.eqb x y)) s.

(** ToNumber of a property value; the texts [bump] produces start with
    the word function and convert to NaN. *)
Definition toNumber (v : jsval) : option Z :=
  match v with
  | VNum z => Some z
  | VStr _ => None
  end.

(** [(a, b) => b.value - a.value] *)
Definition byValueDesc (a b : Word) : option Z :=
  match toNumber (value b), toNumber (value a) with
  | Some x, Some y => Some (x - y)%Z
  | _, _ => None
  end.

Definition isLetterOrSpace (c : ascii) : bool :=
  isLowerAZ c || isUpperAZ c || isWhiteSpace c.

Section Extraction.
(** The stopword list that removeStopwords of the package stopword uses
    when it is called with one argument. *)
Variable eng : list string.

(** removeStopwords(tokens) of that package (a dependency, not a file
    of the application): it keeps the tokens whose lowercase form is not
    in the stopword list. *)
Definition removeStopwords (tokens : list string) : list string :=
  filter (fun v => negb (existsb (String.eqb (toLowerCase v)) eng)) tokens.

Definition cleanWords (text : string) : list string :=
  let words := split_ws (filterChars isLetterOrSpace (toLowerCase text)) in
  filter (fun w => 2 <? String.length w) (removeStopwords words).

(** The phrase of the loop at index [i]. *)
Definition phrase_at (cw : list string) (n : Z) (i : nat) : string :=
  join " " (Array_slice cw (Z.of_nat i) (Z.of_nat i + n)).

(** The phrases of [for (let i = 0; i <= cleanWords.length - n; i++)],
    in the order of the loop. *)
Definition windows (cw : list string) (n : Z) : list string :=
  map (phrase_at cw n)
      (seq 0 (Z.to_nat (Z.of_nat (List.length cw) - n + 1))).

(** One turn of the loop. *)
Definition count_phrase (excludedWords : list string) (ngrams : object)
    (phrase : string) : object :=
  if Set_has excludedWords phrase then ngrams
  else set ngrams phrase (bump ngrams phrase).

Definition accumulate (excludedWords : list string) (phrases : list string)
    : object :=
  fold_left (count_phrase excludedWords) phrases [].

Definition entries (o : object) : list Word :=
  map (fun kv => {| text := fst kv; value := snd kv |}) o.

Definition generateNgrams (excludedWords : list string) (text : string)
    (n limit : Z) : list Word :=
  let ngrams := accumulate excludedWords (windows (cleanWords text) n) in
  Array_slice (Array_sort byValueDesc (entries ngrams)) 0 limit.

(** generateNgrams with the sort of the engine written as a parameter:
    [sort l] is what [l.sort((a, b) => b.value - a.value)] returns there.
    [generateNgrams] is [generateNgrams_by (Array_sort byValueDesc)]. *)
Definition generateNgrams_by (sort : list Word -> list Word)
    (excludedWords : list string) (text : string) (n limit : Z) : list Word :=
  let ngrams := accumulate excludedWords (windows (cleanWords text) n) in
  Array_slice (sort (entries ngrams)) 0 limit.

(** A call of generateNgrams as a completion: the body has no throw
    statement and calls nothing that throws on a string and two
    integers. *)
Definition generateNgrams_call (excludedWords : list string) (text : string)
    (n limit : Z) : completion (list Word) :=
  Normal (generateNgrams excludedWords text n limit).

Inductive CloudType : Type := single | multi | both.

(** processText: the words shown for the chosen kind of cloud. *)
Definition processText (cloudType : CloudType) (useTrigrams : bool)
    (excludedWords : list string) (text : string) : list Word :=
  let multiWords :=
    if useTrigrams then generateNgrams excludedWords text 3 15
    else generateNgrams excludedWords text 2 15 in
  match cloudType with
  | single => generateNgrams excludedWords text 1 15
  | multi => multiWords
  | both => generateNgrams excludedWords text 1 15 ++ multiWords
  end.

(** The state update of toggleWordExclusion. *)
Definition toggleWordExclusion (word : string) (excludedWords : list string)
    : list string :=
  if Set_has excludedWords word then Set_delete word excludedWords
  else Set_add word excludedWords.
End Extraction.

(** *** Vocabulary of the statements *)

Definition keys (o : object) : list string := map fst o.

Definition seenIn (seen : list string) (x : string) : bool :=
  existsb (String.eqb x) seen.

(** The phrases the loop counts. *)
Definition kept (excludedWords : list string) (w : string) : bool :=
  negb (Set_has excludedWords w).

(** The elements of [l] that are not in [seen], each once, at the place
    of its first occurrence. *)
Fixpoint firstSeen (seen l : list string) : list string :=
  match l with
  | [] => []
  | x :: l' =>
      if existsb (String.eqb x) seen then firstSeen seen l'
      else x :: firstSeen (x :: seen) l'
  end.

(** The counted phrases of a text in the order in which the loop first
    meets them. *)
Definition discovered (eng excludedWords : list string) (text : string) (n : Z)
    : list string :=
  firstSeen [] (filter (kept excludedWords) (windows (cleanWords eng text) n)).

(** Both values are numbers and the first is strictly greater. *)
Definition outranks (x y : Word) : Prop :=
  exists a b, value x = VNum a /\ value y = VNum b /\ (b < a)%Z.

Definition count_value (w : Word) : Z :=
  match value w with VNum z => z | VStr _ => 0%Z end.

(** Every entry holds a number, so the comparator byValueDesc returns no
    NaN on the entries. *)
Definition numeric (l : list Word) : Prop :=
  Forall (fun w => exists z, value w = VNum z) l.

(** What the language fixes about the result [sort l] of
    [l.sort((a, b) => b.value - a.value)]: it is a permutation of [l],
    and when the comparator returns no NaN on [l] it is sorted and
    stable: an entry stands in front of another only with a strictly
    greater count, or with the same count and in front of it in [l]. *)
Definition conforms (sort : list Word -> list Word) (l : list Word) : Prop :=
  Permutation (sort l) l /\
  (numeric l ->
   forall x y, before x y (sort l) ->
     (count_value y < count_value x)%Z \/
     (count_value x = count_value y /\ before x y l)).

(** Every property of the object holds a count of at least 1. *)
Definition counted (o : object) : Prop :=
  Forall (fun kv => exists z, snd kv = VNum z /\ (1 <= z)%Z) o.

Definition total (o : object) : Z :=
  sumZ (map (fun kv => match snd kv with VNum z => z | VStr _ => 0%Z end) o).

Definition isLowerOrBlank (c : ascii) : bool := isLowerAZ c || Ascii.eqb c " ".

Definition lowerOrSpace (c : ascii) : bool := isLowerAZ c || isWhiteSpace c.

(** The names a plain object inherits from Object.prototype. *)
Definition Object_prototype_names : list string :=
  ["constructor"; "hasOwnProperty"; "isPrototypeOf"; "propertyIsEnumerable";
   "toLocaleString"; "toString"; "valueOf"; "__defineGetter__";
   "__defineSetter__"; "__lookupGetter__"; "__lookupSetter__"; "__proto__"].

(** An excerpt of the English stopword list, for the examples; none of
    the words of the example texts below is a stopword. *)
Definition eng_excerpt : list string :=
  ["about"; "after"; "all"; "also"; "an"; "and"; "are"; "as"; "at"; "be";
   "but"; "by"; "for"; "from"; "has"; "have"; "in"; "is"; "it"; "of"; "on";
   "or"; "that"; "the"; "this"; "to"; "was"; "were"; "with"; "a"; "i"].

(** *** The rest of the component *)

(** handleSave: the texts of the shown words that are not excluded, as
    they are handed to onSaveWords. *)
Definition handleSave (words : list Word) (excludedWords : list string)
    : list string :=
  map text (filter (fun w => negb (Set_has excludedWords (text w))) words).

Definition grey : string := "#9CA3AF".
Definition green : string := "#16a34a".
Definition blue : string := "#2563eb".

(** The fill colour that draw gives to a word. *)
Definition fill (excludedWords : list string) (cloudType : CloudType) (d : Word)
    : string :=
  if Set_has excludedWords (text d) then grey
  else
    match cloudType with
    | both => if includes (text d) " " then green else blue
    | single => blue
    | multi => green
    end.

(** The count that [ngrams] holds for a key (0 when it holds none). *)
Definition countIn (o : object) (k : string) : Z :=
  match own o k with
  | Some (VNum z) => z
  | _ => 0%Z
  end.

(** The phrase is the join of [n] cleaned words that follow one another. *)
Definition isWindow (cw : list string) (n : nat) (phrase : string) : Prop :=
  exists i, i + n <= List.length cw /\
            phrase = join " " (firstn n (skipn i cw)).

End WordCloudTab.

(* ================================================================= *)
(** ** ATSChecker: the scoring model *)

Module ATSChecker.
Import JS Regex.

Record ReadabilityCheck : Type := {
  section : string;
  requirement : string;
  met : bool;
  details : string
}.

Record ATSScore : Type := {
  overall : number;
  keywordMatch : number;
  formatting : number;
  readability : number;
  certifications : number
}.

Record FontCheck : Type := { name : string; found : bool }.

Record Certification : Type := { cert_name : string; cert_found : bool }.

Record KeywordMatch : Type := { word : string; count : nat }.

Definition chr (n : nat) : ascii := ascii_of_nat n.
Definition LF : ascii := chr 10.
Definition upperAZ : regex := Class false [CRange "A" "Z"].
Definition notLowerAZ : regex := Class true [CRange "a" "z"].

(** The class [[•·-]].  The bullet U+2022 is above the modelled code
    units, so of its three members the middle dot U+00B7 and the hyphen
    can occur in a subject. *)
Definition bullet : regex := Class false [CChar (chr 183); CChar "-"].

(** [^[A-Z][^a-z]+:?$] without its leading [^] *)
Definition headingLine : regex :=
  seqs [upperAZ; plus notLowerAZ; opt (Char ":"); Eol].

Definition sections : list (string * string * (flags * regex)) :=
  [ ("Name/Header", "18-24 pt",
     (noflags, seqs [Bol; Repeat Dot 1 None false; Char LF]));
    ("Section Headings", "12-14 pt (Bold)",
     (fl_m, Seq Bol headingLine));
    ("Body Text", "10-12 pt",
     (fl_m, seqs [Bol; Look true headingLine; plus Dot; Eol]));
    ("Bullet Points", "10-11 pt",
     (fl_m, seqs [Bol; bullet; plus Dot; Eol])) ].

Definition percentage (part whole : nat) : number :=
  mul (div (ofNat part) (ofNat whole)) (ofNat 100).

(** analyzeReadability: the checks it stores and the score it returns. *)
Definition analyzeReadability (text : string) : list ReadabilityCheck * number :=
  let checks :=
    map (fun s : string * string * (flags * regex) =>
           let '(nm, req, (fl, re)) := s in
           {| section := nm;
              requirement := req;
              met := test fl re text;
              details := if test fl re text then "Present and properly formatted"
                         else "Missing or improperly formatted" |})
        sections in
  (checks, percentage (List.length (filter met checks)) (List.length checks)).

Definition fontFamily (font : string) : regex :=
  seqs [literal "font-family:"; star space; literal font].

Definition allowedFonts : list (string * regex) :=
  map (fun f => (f, fontFamily f))
      ["Calibri"; "Arial"; "Times New Roman"; "Helvetica"].

Definition analyzeFonts (text : string) : list FontCheck * number :=
  let checks :=
    map (fun f : string * regex =>
           {| name := fst f; found := test fl_i (snd f) text |}) allowedFonts in
  (checks, if 0 <? List.length (filter found checks) then ofNat 100 else ofNat 0).

Definition requiredCerts : list (string * regex) :=
  [ ("PMP", Alt (literal "PMP") (literal "Project Management Professional"));
    ("AWS", Alt (literal "AWS") (literal "Amazon Web Services"));
    ("CISSP", Alt (literal "CISSP")
                  (literal "Certified Information Systems Security Professional")) ].

Definition analyzeCertifications (text : string) : list Certification * number :=
  let checks :=
    map (fun c : string * regex =>
           {| cert_name := fst c; cert_found := test fl_i (snd c) text |})
        requiredCerts in
  (checks, percentage (List.length (filter cert_found checks)) (List.length checks)).

Record KeywordAnalysis : Type := {
  matches : list KeywordMatch;       (* setKeywordMatches *)
  missing : list string;             (* setMissingKeywords *)
  keywordScore : number              (* the value returned *)
}.

(** The number of whitespace-separated words of the lowercased text
    that equal the lowercased keyword. *)
Definition occurrences (text word : string) : nat :=
  List.length (filter (fun w => (w =? toLowerCase word)%string)
                      (split_ws (toLowerCase text))).

Definition analyzeKeywords (selectedWords : list string) (text : string)
    : KeywordAnalysis :=
  let textLower := toLowerCase text in
  let words := split_ws textLower in
  let matches :=
    filter (fun m => 0 <? count m)
           (map (fun word =>
                   let wordLower := toLowerCase word in
                   {| word := word;
                      count := List.length
                                 (filter (fun w => (w =? wordLower)%string) words) |})
                selectedWords) in
  let missing :=
    filter (fun word => negb (includes textLower (toLowerCase word)))
           selectedWords in
  {| matches := matches;
     missing := missing;
     keywordScore := percentage (List.length matches) (List.length selectedWords) |}.

Definition calculateFormattingScore (text : string) : number :=
  let checks :=
    [ includes text (String LF (String LF EmptyString));
      test noflags (seqs [upperAZ; plus notLowerAZ; Char ":"]) text;
      test noflags (Seq Bol bullet) text;
      300 <? String.length text;
      negb (test noflags (Class true [CRange (chr 0) (chr 127)]) text) ] in
  percentage (List.length (filter (fun b : bool => b) checks)) (List.length checks).

(** The component state after an upload. *)
Record State : Type := {
  resumeText : string;
  readabilityChecks : list ReadabilityCheck;
  fontChecks : list FontCheck;
  certificationChecks : list Certification;
  atsScore : ATSScore;
  keywordMatches : list KeywordMatch;
  missingKeywords : list string
}.

(** The five local constants of handleFileUpload. *)
Record Scores : Type := {
  keywordScore' : number;
  readabilityScore : number;
  formattingScore : number;
  fontScore : number;
  certScore : number
}.

Definition computeScores (selectedWords : list string) (text : string) : Scores :=
  {| keywordScore' := keywordScore (analyzeKeywords selectedWords text);
     readabilityScore := snd (analyzeReadability text);
     formattingScore := calculateFormattingScore text;
     fontScore := snd (analyzeFonts text);
     certScore := snd (analyzeCertifications text) |}.

Definition toATSScore (s : Scores) : ATSScore :=
  {| keywordMatch := keywordScore' s;
     readability := readabilityScore s;
     formatting := formattingScore s;
     certifications := certScore s;
     overall :=
       div (add (add (add (keywordScore' s) (readabilityScore s))
                     (formattingScore s))
                (certScore s))
           (ofNat 4) |}.

(** handleFileUpload on the raw text that the document parser extracted
    from the uploaded file. *)
Definition handleFileUpload (selectedWords : list string) (text : string) : State :=
  let kw := analyzeKeywords selectedWords text in
  {| resumeText := text;
     readabilityChecks := fst (analyzeReadability text);
     fontChecks := fst (analyzeFonts text);
     certificationChecks := fst (analyzeCertifications text);
     atsScore := toATSScore (computeScores selectedWords text);
     keywordMatches := matches kw;
     missingKeywords := missing kw |}.

(** *** Vocabulary of the statements *)

(** The unweighted arithmetic mean of four numbers. *)
Definition mean4 (a b c d : number) : number :=
  div (add (add (add a b) c) d) (ofNat 4).

(** The keyword occurs as a whitespace-separated word of the text, up
    to case. *)
Definition occursAsWord (text word : string) : bool := 0 <? occurrences text word.

(** The text holds, up to case, [font-family:], then white space or
    nothing, then the name of the font. *)
Definition declaresFont (text font : string) : Prop :=
  exists pre m1 ws m2 rest,
    text = pre ++ m1 ++ ws ++ m2 ++ rest /\
    toLowerCase m1 = toLowerCase "font-family:" /\
    allChars isWhiteSpace ws = true /\
    toLowerCase m2 = toLowerCase font.

(** A finite number between 0 and 100. *)
Definition inRange (x : number) : Prop :=
  exists q, x = Num q /\ (0 <= q)%Q /\ (q <= 100)%Q.

(** A text that passes the five formatting checks: a hyphen in front, a
    heading with a colon, an empty line, and 301 code units of ASCII in
    the last line. *)
Definition sample_formatted : string :=
  "- SKILLS:" ++ String LF (String LF (String.concat "" (repeat "x" 301))).

End ATSChecker.

(* ================================================================= *)
(** ** ResumeTab: keyword highlighting, enhancement, metric highlighting *)

Module ResumeTab.
Import JS Regex.

Inductive ChangeType : Type := keyword | enhancement | metric.

(** interface Change *)
Record Change : Type := {
  original : string;
  optimized : string;
  type : ChangeType;
  context : string
}.

(** The component state the two passes read and write. *)
Record State : Type := {
  optimizedText : string;
  changes : list Change
}.

(** A result of Math.random(): a number r with 0 <= r < 1. *)
Record random_number : Type := {
  rnd : Q;
  rnd_lo : (0 <= rnd)%Q;
  rnd_hi : (rnd < 1)%Q
}.

Definition dq : string := String (ascii_of_nat 34) EmptyString.
Definition nl : string := String (ascii_of_nat 10) EmptyString.

Definition span_open : string :=
  "<span class=" ++ dq
  ++ "hidden group-hover:block absolute z-10 bg-white p-2 rounded shadow-lg text-sm"
  ++ dq ++ ">".

Definition mark_open (colour : string) : string :=
  "<mark class=" ++ dq ++ "bg-" ++ colour ++ "-100 hover:bg-" ++ colour
  ++ "-200 cursor-help relative group" ++ dq ++ ">".

(** The three template literals, with their line breaks and indentation. *)
Definition keyword_mark (m : string) : string :=
  mark_open "yellow" ++ nl
  ++ "          " ++ m ++ nl
  ++ "          " ++ span_open ++ nl
  ++ "            Matched keyword from Word Cloud" ++ nl
  ++ "          </span>" ++ nl
  ++ "        </mark>".

Definition enhancement_mark (replacement m : string) : string :=
  mark_open "green" ++ nl
  ++ "          " ++ replacement ++ nl
  ++ "          " ++ span_open ++ nl
  ++ "            Original: " ++ dq ++ m ++ dq ++ "<br>" ++ nl
  ++ "            Enhanced for stronger impact" ++ nl
  ++ "          </span>" ++ nl
  ++ "        </mark>".

Definition metric_mark (m : string) : string :=
  mark_open "blue" ++ nl
  ++ "        " ++ m ++ nl
  ++ "        " ++ span_open ++ nl
  ++ "          Quantifiable Achievement" ++ nl
  ++ "        </span>" ++ nl
  ++ "      </mark>".

(** [`...${context}...`] with
    [context = source.slice(Math.max(0, offset - 30), offset + match.length + 30)] *)
Definition contextOf (source m : string) (offset : nat) : string :=
  "..." ++ slice source (offset - 30) (offset + String.length m + 30) ++ "...".

(** SyntaxCharacter of the pattern grammar. *)
Definition isSyntaxCharacter (c : ascii) : bool :=
  existsb (Ascii.eqb c)
          (list_ascii_of_string "^$\.*+?()[]{}|").

Definition isPlain (w : string) : bool :=
  allChars (fun c => negb (isSyntaxCharacter c)) w.

(** [new RegExp(`\\b${w}\\b`, 'gi')] for a [w] without syntax characters:
    every code unit of [w] is a pattern character that stands for itself. *)
Definition wordPattern (w : string) : regex :=
  Seq WordB (Seq (literal w) WordB).

(** The actionVerbReplacements table, in the order of Object.entries. *)
Definition actionVerbReplacements : list (string * list string) :=
  [ ("worked", ["spearheaded"; "executed"; "implemented"]);
    ("made", ["created"; "developed"; "established"]);
    ("helped", ["facilitated"; "supported"; "guided"]);
    ("responsible for", ["led"; "managed"; "orchestrated"]);
    ("did", ["accomplished"; "achieved"; "completed"]);
    ("improved", ["optimized"; "enhanced"; "streamlined"]) ].

Definition units : list string :=
  ["percent"; "users"; "customers"; "dollars"; "revenue"; "growth";
   "increase"; "decrease"; "improvement"].

(** [\d{1,2}\/\d{1,2}\/\d{2,4}] *)
Definition dateLike : regex :=
  seqs [times digit 1 2; Char "/"; times digit 1 2; Char "/"; times digit 2 4].

(** metricRegex *)
Definition metricRegex : regex :=
  seqs [ WordB;
         Look true dateLike;
         plus digit;
         star (Seq (Char ",") (times digit 3 3));
         opt (Seq (Char ".") (plus digit));
         Alt (Seq (star space) (Char "%"))
             (Seq (plus space) (alts (map literal units)));
         WordB ].

(** [Math.floor(r * length)] *)
Definition floorTimes (r : random_number) (length : nat) : nat :=
  Z.to_nat (Qfloor (rnd r * inject_Z (Z.of_nat length))).

(** [strong[k]]; the index is in range for every draw (lemma
    [floorTimes_lt]), outside it the template would print undefined. *)
Definition pick (strong : list string) (k : nat) : string :=
  nth k strong "undefined".

Section Passes.
(** DOMPurify.sanitize *)
Variable sanitize : string -> string.

(** The RegExp constructor on [`\\b${w}\\b`] for a keyword [w] that
    contains syntax characters: the pattern it parses to, or the
    SyntaxError it throws. *)
Variable RegExp_other : string -> completion regex.

Definition RegExp_word (w : string) : completion regex :=
  if isPlain w then Normal (wordPattern w) else RegExp_other w.

(** The callback of the keyword pass; [text] is the text handed to
    processText. *)
Definition keyword_callback (text : string) (m : string) (offset : nat)
    (newChanges : list Change) : string * list Change :=
  (keyword_mark m,
   (newChanges ++ [{| original := m; optimized := m; type := keyword;
                      context := contextOf text m offset |}])%list).

(** [selectedWords.forEach(...)] from the word [words] on. *)
Fixpoint highlight (text : string) (words : list string) (processed : string)
    (newChanges : list Change) : completion (string * list Change) :=
  match words with
  | [] => Normal (processed, newChanges)
  | word :: rest =>
      match RegExp_word word with
      | Throw e => Throw e
      | Normal regex =>
          let (processed', newChanges') :=
            replace (keyword_callback text) gi regex processed newChanges in
          highlight text rest processed' newChanges'
      end
  end.

Definition processText (selectedWords : list string) (text : string)
    : completion State :=
  match highlight text selectedWords text [] with
  | Throw e => Throw e
  | Normal (processed, newChanges) =>
      Normal {| optimizedText := sanitize processed; changes := newChanges |}
  end.

(** The random source: [random k] is the result of the [k]-th call of
    Math.random(). *)
Variable random : nat -> random_number.

(** The callback of the weak-verb pass; the state is the change log and
    the number of calls of Math.random() so far. *)
Definition enhance_callback (source : string) (strong : list string)
    (m : string) (offset : nat) (st : list Change * nat)
    : string * (list Change * nat) :=
  let replacement := pick strong (floorTimes (random (snd st)) (List.length strong)) in
  (enhancement_mark replacement m,
   ((fst st ++ [{| original := m; optimized := replacement;
                   type := enhancement;
                   context := contextOf source m offset |}])%list,
    S (snd st))).

Definition enhance_step (source : string)
    (acc : string * (list Change * nat)) (entry : string * list string)
    : string * (list Change * nat) :=
  replace (enhance_callback source (snd entry)) gi (wordPattern (fst entry))
          (fst acc) (snd acc).

Definition metric_callback (source : string) (m : string) (offset : nat)
    (newChanges : list Change) : string * list Change :=
  (metric_mark m,
   (newChanges ++ [{| original := m; optimized := m; type := metric;
                      context := contextOf source m offset |}])%list).

(** handleEnhance: the weak-verb pass over the table, then the metric
    pass over its result. *)
Definition handleEnhance (st : State) : State :=
  let source := optimizedText st in
  let '(enhanced, (newChanges, _)) :=
    fold_left (enhance_step source) actionVerbReplacements
              (source, (changes st, 0)) in
  let (enhanced', newChanges') :=
    replace (metric_callback source) gi metricRegex enhanced newChanges in
  {| optimizedText := sanitize enhanced'; changes := newChanges' |}.
End Passes.

(** *** Vocabulary of the statements *)

(** [m] is the part of [source] that starts at [offset]. *)
Definition occursAt (source : string) (offset : nat) (m : string) : Prop :=
  substring offset (String.length m) source = m.

(** [scanned] is the text that the keyword pass searches for the keyword
    with index [k]: the input text after the keywords before it have been
    marked up ([k = 0]: the input text itself). *)
Definition scannedFor (RegExp_other : string -> completion regex)
    (text : string) (selectedWords : list string) (k : nat) (scanned : string)
    : Prop :=
  exists log,
    highlight RegExp_other text (firstn k selectedWords) text [] = Normal (scanned, log).

(** The Change that the keyword pass pushes for the match [mr]; [text]
    is the text handed to processText. *)
Definition recorded (text : string) (mr : match_result) : Change :=
  {| original := matched mr; optimized := matched mr; type := keyword;
     context := contextOf text (matched mr) (index mr) |}.

Definition equalsIgnoreCase (a b : string) : Prop :=
  toLowerCase a = toLowerCase b.

(** The text contains a date-like stretch [d{1,2}/d{1,2}/d{2,4}]. *)
Definition isDateLike (s : string) : bool := test noflags dateLike s.

Definition notSlash (c : ascii) : bool := negb (Ascii.eqb c "/").

(** What the weak-verb pass records for a match of a phrase of [table]. *)
Definition enhancementOf (table : list (string * list string)) (c : Change) : Prop :=
  type c = enhancement /\
  exists weak strong,
    In (weak, strong) table /\ In (optimized c) strong /\
    equalsIgnoreCase (original c) weak.

(** What the metric pass records for one match. *)
Definition metricChange (c : Change) : Prop :=
  type c = metric /\ optimized c = original c /\
  allChars (alphabet gi metricRegex) (original c) = true.

(** Stand-ins for the two collaborators in the examples: a sanitizer
    that leaves its argument alone, and a constructor that rejects every
    keyword with syntax characters. *)
Definition sample_sanitize (s : string) : string := s.
Definition sample_other (w : string) : completion regex := Throw "SyntaxError".

(** The state after the keyword pass over the text alpha with the
    keywords alpha and cloud. *)
Definition sample_keyword_state : State :=
  Eval vm_compute in
    match processText sample_sanitize sample_other ["alpha"; "cloud"] "alpha" with
    | Normal st => st
    | Throw _ => {| optimizedText := EmptyString; changes := [] |}
    end.


(** *** The rest of the component *)

(** The loop [while ((match = regex.exec(text)) !== null) matches.push(match[0])]
    for a global pattern, from the position of lastIndex.  exec leaves
    lastIndex behind the match it reports, so after an empty match the
    next call starts where this one found it.  [None]: the loop is still
    running when the fuel is used up. *)
Fixpoint execLoop (fuel : nat) (fl : flags) (r : regex) (p : option ascii)
    (s : string) (i : nat) : option (list string) :=
  match fuel with
  | 0 => None
  | S fuel' =>
      match exec_from fl r p s i with
      | None => Some []
      | Some m =>
          match execLoop fuel' fl r (fst (after m)) (snd (after m))
                         (index m + String.length (matched m)) with
          | Some rest => Some (matched m :: rest)
          | None => None
          end
      end
  end.

(** findPhraseMatches; [fuel] bounds the turns of each while loop. *)
Fixpoint findPhraseMatches (fuel : nat)
    (RegExp_other : string -> completion regex) (text : string)
    (phrases : list string) : option (completion (list string)) :=
  match phrases with
  | [] => Some (Normal [])
  | phrase :: rest =>
      match RegExp_word RegExp_other phrase with
      | Throw e => Some (Throw e)
      | Normal regex =>
          match execLoop fuel gi regex None text 0 with
          | None => None
          | Some found =>
              match findPhraseMatches fuel RegExp_other text rest with
              | Some (Normal more) => Some (Normal (found ++ more)%list)
              | other => other
              end
          end
      end
  end.

(** The pattern of handleSaveToWord, [<\/?[^>]+(>|$)]; its group is not
    referred to, so it is written as a plain alternative. *)
Definition tagRegex : regex :=
  seqs [Char "<"; opt (Char "/"); plus (Class true [CChar ">"]);
        Alt (Char ">") Eol].

(** [optimizedText.replace(/<\/?[^>]+(>|$)/g, '')] *)
Definition cleanText (optimizedText : string) : string :=
  fst (replace (fun (m : string) (offset : nat) (st : unit) => (EmptyString, st))
               noflags tagRegex optimizedText tt).

End ResumeTab.

(* ================================================================= *)
(** ** App: the keywords handed from the word cloud to the two analyses *)

Module App.

Inductive Tab : Type := wordcloud | resume | ats.

Record State : Type := {
  activeTab : Tab;
  selectedWords : list string
}.

Definition initial : State := {| activeTab := wordcloud; selectedWords := [] |}.

(** handleSaveWords, the onSaveWords of the word cloud. *)
Definition handleSaveWords (words : list string) (st : State) : State :=
  {| activeTab := resume; selectedWords := words |}.

End App.

(* ================================================================= *)
(** * Properties *)

(** ** Strings *)

Section StringFacts.
Import JS Regex.

Lemma append_nil_r (s : string) : s ++ "" = s.
Proof. induction s; simpl; congruence. Qed.

Lemma append_assoc (a b c : string) : (a ++ b) ++ c = a ++ (b ++ c).
Proof. induction a; simpl; congruence. Qed.

Lemma length_append (a b : string) :
  String.length (a ++ b) = String.length a + String.length b.
Proof. induction a; simpl; congruence. Qed.

Lemma substring_0_append (m s : string) :
  substring 0 (String.length m) (m ++ s) = m.
Proof.
  induction m as [|c m IH]; simpl.
  - destruct s; reflexivity.
  - now rewrite IH.
Qed.

Lemma substring_skip (pre t : string) (n : nat) :
  substring (String.length pre) n (pre ++ t) = substring 0 n t.
Proof. induction pre as [|c pre IH]; simpl; [reflexivity|exact IH]. Qed.

Lemma substring_middle (pre m post : string) :
  substring (String.length pre) (String.length m) (pre ++ m ++ post) = m.
Proof. now rewrite substring_skip, substring_0_append. Qed.

Lemma consumed_append (m s' : string) : consumed (m ++ s') s' = m.
Proof.
  unfold consumed. rewrite length_append.
  replace (String.length m + String.length s' - String.length s')
    with (String.length m) by lia.
  apply substring_0_append.
Qed.

Lemma allChars_append (f : ascii -> bool) (a b : string) :
  allChars f (a ++ b) = allChars f a && allChars f b.
Proof.
  induction a as [|c a IH]; simpl; [reflexivity|].
  now rewrite IH, andb_assoc.
Qed.

Lemma allChars_impl (f g : ascii -> bool) (s : string) :
  (forall c, f c = true -> g c = true) ->
  allChars f s = true -> allChars g s = true.
Proof.
  intros H. induction s as [|c s IH]; simpl; [reflexivity|].
  rewrite !andb_true_iff. intros [Hc Hs]. auto.
Qed.

Lemma toLowerCase_append (a b : string) :
  toLowerCase (a ++ b) = toLowerCase a ++ toLowerCase b.
Proof. induction a; simpl; congruence. Qed.

Lemma all_ascii_complete (c : ascii) : In c all_ascii.
Proof.
  unfold all_ascii. rewrite <- (ascii_nat_embedding c).
  apply in_map, in_seq. pose proof (nat_ascii_bounded c). lia.
Qed.

(** Case folding of the matcher and of toLowerCase agree. *)
Lemma toLowerChar_canonicalize (a : ascii) :
  toLowerChar (canonicalize a) = toLowerChar a.
Proof.
  assert (H : forallb (fun a => Ascii.eqb (toLowerChar (canonicalize a))
                                          (toLowerChar a))
                      all_ascii = true) by (vm_compute; reflexivity).
  rewrite forallb_forall in H. apply Ascii.eqb_eq, H, all_ascii_complete.
Qed.

Lemma canonicalize_toLowerChar (a c : ascii) :
  canonicalize a = canonicalize c -> toLowerChar a = toLowerChar c.
Proof.
  intros E. rewrite <- (toLowerChar_canonicalize a), E.
  apply toLowerChar_canonicalize.
Qed.

Lemma toLowerChar_not_upper (c : ascii) : isUpperAZ (toLowerChar c) = false.
Proof.
  assert (H : forallb (fun c => negb (isUpperAZ (toLowerChar c))) all_ascii = true)
    by (vm_compute; reflexivity).
  rewrite forallb_forall in H. specialize (H c (all_ascii_complete c)).
  now destruct (isUpperAZ (toLowerChar c)).
Qed.
End StringFacts.

(** ** The matcher *)

Section MatcherFacts.
Import JS Regex.

Lemma consumes_refl A p s : consumes A s (p, s).
Proof. exists ""; split; reflexivity. Qed.

Lemma consumes_trans A s ps1 ps2 :
  consumes A s ps1 -> consumes A (snd ps1) ps2 -> consumes A s ps2.
Proof.
  intros [m1 [E1 H1]] [m2 [E2 H2]].
  exists (m1 ++ m2). split.
  - rewrite append_assoc, <- E2. exact E1.
  - now rewrite allChars_append, H1, H2.
Qed.

Lemma consumes_impl (A B : ascii -> bool) s ps :
  (forall c, A c = true -> B c = true) -> consumes A s ps -> consumes B s ps.
Proof.
  intros H [m [E Hm]]. exists m. split; [exact E|].
  eapply allChars_impl; eauto.
Qed.

Lemma consumes_length A s ps :
  consumes A s ps -> String.length (snd ps) <= String.length s.
Proof. intros [m [E _]]. rewrite E, length_append. lia. Qed.

Lemma guard_In b p s ps : In ps (guard b p s) -> ps = (p, s).
Proof.
  unfold guard. destruct b; simpl; [intros [<-|[]]; reflexivity|intros []].
Qed.

Lemma guard_consumes A b p s ps : In ps (guard b p s) -> consumes A s ps.
Proof. intros H. apply guard_In in H. subst ps. apply consumes_refl. Qed.

Lemma step_atom_consumes fl r s ps :
  In ps (step_atom fl r s) -> consumes (atom_accepts fl r) s ps.
Proof.
  unfold step_atom. destruct s as [|a s']; [intros []|].
  destruct (atom_accepts fl r a) eqn:E; [|intros []].
  intros [<-|[]]. exists (String a ""). simpl. now rewrite E.
Qed.

Lemma step_atom_Char fl a t ps :
  In ps (step_atom fl (Char a) t) ->
  exists c t', t = String c t' /\ char_matches fl a c = true.
Proof.
  unfold step_atom. destruct t as [|c t']; [intros []|].
  cbn [atom_accepts]. destruct (char_matches fl a c) eqn:E; [|intros []].
  eauto.
Qed.

Lemma repeat_ends_consumes A step greedy :
  (forall p s ps, In ps (step p s) -> consumes A s ps) ->
  forall fuel min max p s ps,
    In ps (repeat_ends step greedy fuel min max p s) -> consumes A s ps.
Proof.
  intros Hstep. induction fuel as [|fuel IH]; intros min max p s ps; simpl;
    [tauto|].
  destruct (max_is_zero max).
  { intros [<-|[]]. apply consumes_refl. }
  assert (Hiter : forall ps0,
    In ps0 (flat_map (fun ps1 : position =>
        if (min =? 0) && (String.length (snd ps1) =? String.length s) then []
        else repeat_ends step greedy fuel (Nat.pred min) (pred_max max)
               (fst ps1) (snd ps1))
      (step p s)) -> consumes A s ps0).
  { intros ps0 Hin. apply in_flat_map in Hin. destruct Hin as [mid [Hmid Hin]].
    destruct ((min =? 0) && (String.length (snd mid) =? String.length s));
      [destruct Hin|].
    apply IH in Hin. eapply consumes_trans; [apply (Hstep _ _ _ Hmid)|exact Hin]. }
  destruct (negb (min =? 0)); [apply Hiter|].
  destruct greedy.
  - intros Hin. apply in_app_or in Hin.
    destruct Hin as [Hin|[<-|[]]]; [now apply Hiter|apply consumes_refl].
  - intros [<-|Hin]; [apply consumes_refl|now apply Hiter].
Qed.

(** A match is a prefix of the text at its position and is made of
    code units that the atoms of the pattern accept. *)
Lemma ends_alphabet fl r :
  forall p s ps, In ps (ends fl r p s) -> consumes (alphabet fl r) s ps.
Proof.
  induction r; intros p s ps Hin; cbn [ends alphabet] in Hin |- *;
    try (eapply guard_consumes; exact Hin);
    try (apply step_atom_consumes; exact Hin).
  - destruct Hin as [<-|[]]. apply consumes_refl.
  - apply in_flat_map in Hin. destruct Hin as [mid [H1 H2]].
    apply IHr1 in H1. apply IHr2 in H2.
    eapply consumes_trans.
    + eapply consumes_impl; [|exact H1]. intros c ->. reflexivity.
    + eapply consumes_impl; [|exact H2]. intros c ->. apply orb_true_r.
  - apply in_app_or in Hin. destruct Hin as [H|H].
    + apply IHr1 in H. eapply consumes_impl; [|exact H]. intros c ->. reflexivity.
    + apply IHr2 in H. eapply consumes_impl; [|exact H]. intros c ->.
      apply orb_true_r.
  - eapply repeat_ends_consumes; [exact IHr|exact Hin].
Qed.

(** The positions that the matcher passes on are coherent: the code
    unit recorded in front of a position is the one last consumed. *)
Lemma lastOr_append p m1 m2 : lastOr p (m1 ++ m2) = lastOr (lastOr p m1) m2.
Proof. revert p. induction m1 as [|c m1 IH]; intros p; simpl; auto. Qed.

Lemma repeat_ends_prev step greedy :
  (forall p s ps, In ps (step p s) ->
     exists m, s = m ++ snd ps /\ fst ps = lastOr p m) ->
  forall fuel min max p s ps,
    In ps (repeat_ends step greedy fuel min max p s) ->
    exists m, s = m ++ snd ps /\ fst ps = lastOr p m.
Proof.
  intros Hstep. induction fuel as [|fuel IH]; intros min max p s ps; simpl;
    [tauto|].
  assert (Hhere : exists m, s = m ++ snd (p, s) /\ fst (p, s) = lastOr p m)
    by (exists ""; split; reflexivity).
  destruct (max_is_zero max); [intros [<-|[]]; exact Hhere|].
  assert (Hiter : forall ps0,
    In ps0 (flat_map (fun ps1 : position =>
        if (min =? 0) && (String.length (snd ps1) =? String.length s) then []
        else repeat_ends step greedy fuel (Nat.pred min) (pred_max max)
               (fst ps1) (snd ps1))
      (step p s)) -> exists m, s = m ++ snd ps0 /\ fst ps0 = lastOr p m).
  { intros ps0 Hin. apply in_flat_map in Hin. destruct Hin as [mid [Hmid Hin]].
    destruct ((min =? 0) && (String.length (snd mid) =? String.length s));
      [destruct Hin|].
    apply IH in Hin. destruct Hin as [m2 [E2 L2]].
    destruct (Hstep _ _ _ Hmid) as [m1 [E1 L1]].
    exists (m1 ++ m2). split.
    - rewrite append_assoc, <- E2. exact E1.
    - now rewrite lastOr_append, <- L1. }
  destruct (negb (min =? 0)); [apply Hiter|].
  destruct greedy.
  - intros Hin. apply in_app_or in Hin.
    destruct Hin as [Hin|[<-|[]]]; [now apply Hiter|exact Hhere].
  - intros [<-|Hin]; [exact Hhere|now apply Hiter].
Qed.

Lemma ends_prev fl r :
  forall p s ps, In ps (ends fl r p s) ->
    exists m, s = m ++ snd ps /\ fst ps = lastOr p m.
Proof.
  assert (Hguard : forall b p s ps, In ps (guard b p s) ->
            exists m, s = m ++ snd ps /\ fst ps = lastOr p m).
  { intros b p s ps H. apply guard_In in H. subst ps.
    exists "". split; reflexivity. }
  assert (Hatom : forall r0 p s ps, In ps (step_atom fl r0 s) ->
            exists m, s = m ++ snd ps /\ fst ps = lastOr p m).
  { intros r0 p s ps. unfold step_atom. destruct s as [|a s']; [intros []|].
    destruct (atom_accepts fl r0 a); [|intros []].
    intros [<-|[]]. exists (String a ""). split; reflexivity. }
  induction r; intros p s ps Hin; cbn [ends] in Hin;
    try (eapply Hguard; exact Hin); try (eapply Hatom; exact Hin).
  - destruct Hin as [<-|[]]. exists "". split; reflexivity.
  - apply in_flat_map in Hin. destruct Hin as [mid [H1 H2]].
    apply IHr1 in H1. apply IHr2 in H2.
    destruct H1 as [m1 [E1 L1]]. destruct H2 as [m2 [E2 L2]].
    exists (m1 ++ m2). split.
    + rewrite append_assoc, <- E2. exact E1.
    + now rewrite lastOr_append, <- L1.
  - apply in_app_or in Hin. destruct Hin as [H|H]; [now apply IHr1|now apply IHr2].
  - eapply repeat_ends_prev; [exact IHr|exact Hin].
Qed.

Lemma match_from_shift fl r i pre t mr :
  match_from fl r (i + String.length pre) t mr ->
  match_from fl r i (pre ++ t) mr.
Proof.
  intros [pre' [p0 [t0 [E [Hi [Hin Hm]]]]]].
  exists (pre ++ pre'), p0, t0. repeat split; try assumption.
  - now rewrite append_assoc, E.
  - rewrite length_append. lia.
Qed.

Lemma match_from_split fl r i t mr :
  match_from fl r i t mr ->
  exists pre, t = pre ++ matched mr ++ snd (after mr) /\
              index mr = i + String.length pre.
Proof.
  intros [pre [p0 [t0 [E [Hi [Hin Hm]]]]]].
  exists pre. split; [|exact Hi].
  apply ends_alphabet in Hin. destruct Hin as [m [E0 _]].
  rewrite Hm. rewrite E0 at 1. rewrite consumed_append. now rewrite <- E0.
Qed.

Lemma exec_from_match fl r :
  forall t p i mr, exec_from fl r p t i = Some mr -> match_from fl r i t mr.
Proof.
  induction t as [|c t IH]; intros p i mr; simpl.
  - destruct (ends fl r p "") as [|ps l] eqn:E; [discriminate|].
    intros [= <-]. exists "", p, "". simpl. rewrite E.
    repeat split; auto. now left.
  - destruct (ends fl r p (String c t)) as [|ps l] eqn:E.
    + intros H. apply IH in H.
      change (String c t) with (String c "" ++ t).
      apply match_from_shift. simpl. now replace (i + 1) with (S i) by lia.
    + intros [= <-]. exists "", p, (String c t). simpl. rewrite E.
      repeat split; auto. now left.
Qed.

Lemma matchAll_from_match fl r :
  forall fuel p t i mr,
    In mr (matchAll_from fuel fl r p t i) -> match_from fl r i t mr.
Proof.
  induction fuel as [|fuel IH]; intros p t i mr; simpl; [intros []|].
  destruct (exec_from fl r p t i) as [m|] eqn:E; [|intros []].
  apply exec_from_match in E.
  intros [<-|Hin]; [exact E|].
  destruct (match_from_split E) as [pre [Et Hi]].
  destruct (matched m) as [|c0 m0] eqn:Em.
  - destruct (snd (after m)) as [|c s'] eqn:Es; [destruct Hin|].
    apply IH in Hin. rewrite Et. simpl.
    change (String c s') with (String c "" ++ s').
    rewrite <- append_assoc. apply match_from_shift.
    rewrite length_append. simpl.
    now replace (i + (String.length pre + 1)) with (S (index m)) by lia.
  - apply IH in Hin. rewrite Et.
    rewrite <- append_assoc. apply match_from_shift.
    rewrite length_append.
    now replace (i + (String.length pre + String.length (String c0 m0)))
      with (index m + String.length (String c0 m0)) by lia.
Qed.

(** Every match that a global search reports is the text found at its
    index in the subject. *)
Lemma matchAll_substring fl r s mr :
  In mr (matchAll fl r s) ->
  substring (index mr) (String.length (matched mr)) s = matched mr.
Proof.
  intros H. apply matchAll_from_match in H.
  destruct (match_from_split H) as [pre [E Hi]].
  rewrite E at 1. simpl in Hi. rewrite Hi. apply substring_middle.
Qed.

(** Every reported match is what the pattern consumed at some position. *)
Lemma matchAll_ends fl r s mr :
  In mr (matchAll fl r s) ->
  exists p0 t0, In (after mr) (ends fl r p0 t0) /\
                matched mr = consumed t0 (snd (after mr)).
Proof.
  intros H. apply matchAll_from_match in H.
  destruct H as [pre [p0 [t0 [_ [_ [Hin Hm]]]]]]. eauto.
Qed.

Lemma matchAll_alphabet fl r s mr :
  In mr (matchAll fl r s) -> allChars (alphabet fl r) (matched mr) = true.
Proof.
  intros H. destruct (matchAll_ends _ _ _ _ H) as [p0 [t0 [Hin Hm]]].
  apply ends_alphabet in Hin. destruct Hin as [m [E Hall]].
  rewrite Hm, E, consumed_append. exact Hall.
Qed.

(** *** The fuel of the two loops is never used up *)

Lemma flat_map_ext_In (A B : Type) (f g : A -> list B) (l : list A) :
  (forall x, In x l -> f x = g x) -> flat_map f l = flat_map g l.
Proof.
  induction l as [|a l IH]; simpl; intros H; [reflexivity|].
  rewrite (H a) by now left. rewrite IH; [reflexivity|].
  intros x Hx. apply H. now right.
Qed.

Lemma repeat_ends_fuel A step greedy :
  (forall p s ps, In ps (step p s) -> consumes A s ps) ->
  forall fuel1 fuel2 min max p s,
    min + String.length s < fuel1 -> min + String.length s < fuel2 ->
    repeat_ends step greedy fuel1 min max p s
    = repeat_ends step greedy fuel2 min max p s.
Proof.
  intros Hstep. induction fuel1 as [|fuel1 IH];
    intros fuel2 min max p s H1 H2; [lia|].
  destruct fuel2 as [|fuel2]; [lia|]. simpl.
  destruct (max_is_zero max); [reflexivity|].
  rewrite (flat_map_ext_In
    (fun ps : position =>
       if (min =? 0) && (String.length (snd ps) =? String.length s) then []
       else repeat_ends step greedy fuel1 (Nat.pred min) (pred_max max)
              (fst ps) (snd ps))
    (fun ps : position =>
       if (min =? 0) && (String.length (snd ps) =? String.length s) then []
       else repeat_ends step greedy fuel2 (Nat.pred min) (pred_max max)
              (fst ps) (snd ps))).
  { reflexivity. }
  intros ps Hps. apply Hstep, consumes_length in Hps.
  destruct ((min =? 0) && (String.length (snd ps) =? String.length s)) eqn:E;
    [reflexivity|].
  apply andb_false_iff in E.
  apply IH; destruct E as [E|E]; apply Nat.eqb_neq in E; lia.
Qed.

(** With any larger fuel a repetition has the matches that [ends]
    gives it. *)
Lemma ends_Repeat_fuel fl r min max greedy p s fuel :
  min + String.length s < fuel ->
  ends fl (Repeat r min max greedy) p s
  = repeat_ends (ends fl r) greedy fuel min max p s.
Proof.
  intros H. cbn [ends].
  apply repeat_ends_fuel with (A := alphabet fl r); [|lia|exact H].
  intros p0 s0 ps. apply ends_alphabet.
Qed.

Lemma matchAll_from_fuel fl r :
  forall fuel1 fuel2 p t i,
    String.length t < fuel1 -> String.length t < fuel2 ->
    matchAll_from fuel1 fl r p t i = matchAll_from fuel2 fl r p t i.
Proof.
  induction fuel1 as [|fuel1 IH]; intros fuel2 p t i H1 H2; [lia|].
  destruct fuel2 as [|fuel2]; [lia|]. simpl.
  destruct (exec_from fl r p t i) as [m|] eqn:E; [|reflexivity].
  f_equal.
  apply exec_from_match in E.
  destruct (match_from_split E) as [pre [Et _]].
  assert (Hlen : String.length t
                 = String.length pre + String.length (matched m)
                   + String.length (snd (after m))).
  { rewrite Et at 1. rewrite !length_append. lia. }
  destruct (matched m) as [|c0 m0].
  - destruct (snd (after m)) as [|c s']; [reflexivity|].
    simpl in Hlen. apply IH; lia.
  - simpl in Hlen. apply IH; lia.
Qed.

(** With any larger fuel the global search finds the same matches. *)
Lemma matchAll_fuel fl r s fuel :
  String.length s < fuel ->
  matchAll fl r s = matchAll_from fuel fl r None s 0.
Proof. intros H. apply matchAll_from_fuel; [lia|exact H]. Qed.

(** *** Literals under ignoreCase *)

Lemma char_matches_gi (a c : ascii) :
  char_matches gi a c = true -> toLowerChar c = toLowerChar a.
Proof.
  unfold char_matches. simpl. intros H. apply Ascii.eqb_eq in H.
  symmetry. now apply canonicalize_toLowerChar.
Qed.

Lemma ends_literal_gi (w : string) :
  forall p t ps, In ps (ends gi (literal w) p t) ->
    exists m, t = m ++ snd ps /\ toLowerCase m = toLowerCase w.
Proof.
  induction w as [|a w IH]; intros p t ps; cbn [literal ends].
  - intros [<-|[]]. exists "". split; reflexivity.
  - intros Hin. apply in_flat_map in Hin. destruct Hin as [mid [H1 H2]].
    unfold step_atom in H1. destruct t as [|c t']; [destruct H1|].
    cbn [atom_accepts] in H1.
    destruct (char_matches gi a c) eqn:E; [|destruct H1].
    destruct H1 as [<-|[]]. simpl in H2.
    apply IH in H2. destruct H2 as [m [Et Hm]].
    exists (String c m). simpl. rewrite <- Et, Hm, (char_matches_gi _ _ E).
    split; reflexivity.
Qed.
End MatcherFacts.

(** ** The log a replace leaves behind *)

Section ReplaceLog.
Import JS Regex.
Variables (St C : Type).
Variable callback : string -> nat -> St -> string * St.
Variable log : St -> list C.
Variable P : match_result -> Prop.
Variable Q : C -> Prop.
Hypothesis callback_logs :
  forall mr st, P mr ->
    exists c, log (snd (callback (matched mr) (index mr) st))
              = (log st ++ [c])%list /\ Q c.

Lemma run_callbacks_log ms :
  Forall P ms ->
  forall st, exists pushed,
    log (snd (run_callbacks callback ms st)) = (log st ++ pushed)%list /\
    Forall Q pushed /\ List.length pushed = List.length ms.
Proof.
  induction 1 as [|mr ms Hmr _ IH]; intros st; simpl.
  - exists []. rewrite app_nil_r. auto.
  - destruct (callback_logs st Hmr) as [c [Hc Qc]].
    destruct (callback (matched mr) (index mr) st) as [rep st1] eqn:E1.
    simpl in Hc.
    destruct (IH st1) as [pushed [Hp [HQ Hlen]]].
    destruct (run_callbacks callback ms st1) as [reps st2] eqn:E2.
    simpl in Hp |- *.
    exists (c :: pushed). rewrite Hp, Hc, <- app_assoc. simpl.
    repeat split; auto.
Qed.

(** A replace appends one entry per match to the log, in the order of
    the matches. *)
Lemma replace_log fl r s st :
  (forall mr, In mr (matchAll fl r s) -> P mr) ->
  exists pushed,
    log (snd (replace callback fl r s st)) = (log st ++ pushed)%list /\
    Forall Q pushed /\ List.length pushed = List.length (matchAll fl r s).
Proof.
  intros HP. unfold replace.
  destruct (run_callbacks_log (ms := matchAll fl r s)) with (st := st)
    as [pushed Hp].
  { apply Forall_forall. exact HP. }
  destruct (run_callbacks callback (matchAll fl r s) st) as [reps st'].
  exists pushed. exact Hp.
Qed.
End ReplaceLog.

(** ** ResumeTab: the keyword pass *)

Section KeywordPass.
Import JS Regex ResumeTab.
Variable other : string -> completion regex.
Variable text : string.

Lemma highlight_app (ws1 ws2 : list string) :
  forall processed log,
    highlight other text (ws1 ++ ws2) processed log
    = match highlight other text ws1 processed log with
      | Throw e => Throw e
      | Normal (processed', log') => highlight other text ws2 processed' log'
      end.
Proof.
  induction ws1 as [|w ws1 IH]; intros processed log; simpl; [reflexivity|].
  destruct (RegExp_word other w) as [regex|e]; [|reflexivity].
  destruct (replace (keyword_callback text) gi regex processed log) as [p' l'].
  apply IH.
Qed.

Lemma run_callbacks_recorded :
  forall ms log,
    snd (run_callbacks (keyword_callback text) ms log)
    = (log ++ map (recorded text) ms)%list.
Proof.
  induction ms as [|m ms IH]; intros log; cbn [run_callbacks].
  - simpl. now rewrite app_nil_r.
  - unfold keyword_callback at 1.
    specialize (IH (log ++ [recorded text m])%list).
    unfold recorded at 1 in IH.
    destruct (run_callbacks (keyword_callback text) ms _) as [reps st2].
    simpl in IH |- *. rewrite IH, <- app_assoc. reflexivity.
Qed.

Lemma scannedFor_snoc ws w k scanned :
  k <= List.length ws ->
  scannedFor other text ws k scanned ->
  scannedFor other text (ws ++ [w]) k scanned.
Proof.
  intros Hk [log Hs]. exists log. rewrite firstn_app.
  replace (k - List.length ws) with 0 by lia.
  simpl. now rewrite app_nil_r.
Qed.

Lemma highlight_blocks (ws : list string) :
  forall processed log,
    highlight other text ws text [] = Normal (processed, log) ->
    exists blocks : list (list match_result),
      log = flat_map (map (recorded text)) blocks /\
      List.length blocks = List.length ws /\
      forall k word ms,
        nth_error ws k = Some word -> nth_error blocks k = Some ms ->
        exists regex scanned,
          RegExp_word other word = Normal regex /\
          scannedFor other text ws k scanned /\
          ms = matchAll gi regex scanned /\
          Forall (fun mr => occursAt scanned (index mr) (matched mr)) ms.
Proof.
  induction ws as [|w ws IH] using rev_ind; intros processed log.
  - simpl. intros [= _ <-]. exists []. repeat split.
    intros k word ms H. destruct k; discriminate.
  - rewrite highlight_app.
    destruct (highlight other text ws text []) as [[p1 l1]|e] eqn:E1;
      [|discriminate].
    simpl. destruct (RegExp_word other w) as [regex|e] eqn:Er; [|discriminate].
    unfold replace.
    pose proof (run_callbacks_recorded (matchAll gi regex p1) l1) as Hlog.
    destruct (run_callbacks (keyword_callback text) (matchAll gi regex p1) l1)
      as [reps l2].
    simpl in Hlog. intros [= _ <-]. subst l2.
    destruct (IH p1 l1 eq_refl) as [blocks [Hl [Hlen Hk]]].
    exists (blocks ++ [matchAll gi regex p1])%list.
    split; [|split].
    + rewrite flat_map_app. simpl. now rewrite app_nil_r, Hl.
    + rewrite !length_app. simpl. lia.
    + intros k word ms Hw Hb.
      destruct (Nat.lt_ge_cases k (List.length ws)) as [Hlt|Hge].
      * rewrite nth_error_app1 in Hw by exact Hlt.
        rewrite nth_error_app1 in Hb by (rewrite Hlen; exact Hlt).
        destruct (Hk k word ms Hw Hb) as [re [sc [H1 [H2 [H3 H4]]]]].
        exists re, sc. repeat split; try assumption.
        apply scannedFor_snoc; [lia|exact H2].
      * assert (Ek : k = List.length ws).
        { assert (Hlt : k < List.length (ws ++ [w]))
            by (apply nth_error_Some; congruence).
          rewrite length_app in Hlt. simpl in Hlt. lia. }
        subst k.
        rewrite nth_error_app2, Nat.sub_diag in Hw by lia.
        rewrite nth_error_app2 in Hb by lia.
        rewrite Hlen, Nat.sub_diag in Hb.
        simpl in Hw, Hb. injection Hw as <-. injection Hb as <-.
        exists regex, p1. split; [exact Er|]. split; [|split; [reflexivity|]].
        -- exists l1. rewrite firstn_app, Nat.sub_diag, firstn_all. simpl.
           now rewrite app_nil_r.
        -- apply Forall_forall. intros mr Hin.
           now apply matchAll_substring in Hin.
Qed.
End KeywordPass.

Section KeywordClaim.
Import JS Regex ResumeTab.

(** When the keyword pass returns, its log is, keyword by keyword in the
    order of the list, one Change per match of the pattern of that
    keyword in the text searched for it, in the order of the matches;
    each such Change has [original] and [optimized] equal to the matched
    text, which is literally the part of the searched text at the index
    of the match.  The searched text is the input text for the first
    keyword; for a later keyword it is the input text with the marks of
    the keywords before it. *)
Lemma processText_log_is_matches
    (sanitize : string -> string) (other : string -> completion regex)
    (selectedWords : list string) (text : string) (st : State) :
  processText sanitize other selectedWords text = Normal st ->
  exists blocks : list (list match_result),
    changes st = flat_map (map (recorded text)) blocks /\
    List.length blocks = List.length selectedWords /\
    forall k word ms,
      nth_error selectedWords k = Some word -> nth_error blocks k = Some ms ->
      exists regex scanned,
        RegExp_word other word = Normal regex /\
        scannedFor other text selectedWords k scanned /\
        (k = 0 -> scanned = text) /\
        ms = matchAll gi regex scanned /\
        Forall (fun mr => occursAt scanned (index mr) (matched mr)) ms.
Proof.
  unfold processText.
  destruct (highlight other text selectedWords text []) as [[processed log]|e] eqn:E;
    [|discriminate].
  intros [= <-]. cbn [changes].
  destruct (highlight_blocks other text selectedWords E) as [blocks [Hl [Hlen Hk]]].
  exists blocks. split; [exact Hl|]. split; [exact Hlen|].
  intros k word ms Hw Hb.
  destruct (Hk k word ms Hw Hb) as [re [sc [H1 [H2 [H3 H4]]]]].
  exists re, sc. repeat split; try assumption.
  intros ->. destruct H2 as [log' H2]. simpl in H2. congruence.
Qed.

(** C8.  With the keywords alpha and cloud on the text alpha the pass
    emits two Changes.  The second has the original Cloud, which is no
    part of the input text, not even up to case: the keyword cloud is
    searched in the text that already holds the mark of alpha and is
    found at index 233 of it, in the tooltip of that mark.  The context
    of the Change is cut out of the input text at this index and is
    empty between its dots. *)
Theorem processText_original_outside_text :
  processText sample_sanitize sample_other ["alpha"; "cloud"] "alpha"
  = Normal sample_keyword_state /\
  map (fun c => (type c, original c, optimized c, context c))
      (changes sample_keyword_state)
  = [ (keyword, "alpha", "alpha", "...alpha...");
      (keyword, "Cloud", "Cloud", "......") ] /\
  includes "alpha" "Cloud" = false /\
  includes (toLowerCase "alpha") (toLowerCase "Cloud") = false /\
  exists scanned,
    scannedFor sample_other "alpha" ["alpha"; "cloud"] 1 scanned /\
    map (fun mr => (index mr, matched mr))
        (matchAll gi (wordPattern "cloud") scanned)
    = [(233, "Cloud")].
Proof.
  split; [vm_compute; reflexivity|]. split; [vm_compute; reflexivity|].
  split; [reflexivity|]. split; [reflexivity|].
  eexists. split; [eexists; vm_compute; reflexivity|].
  vm_compute. reflexivity.
Qed.

(** The two changes of the example: the second keyword is found in the
    mark that the first one left. *)
Lemma sample_keyword_changes :
  map (fun c => (original c, optimized c)) (changes sample_keyword_state)
  = [("alpha", "alpha"); ("Cloud", "Cloud")].
Proof. vm_compute. reflexivity. Qed.

(** For the first keyword the searched text is the input text. *)
Lemma scannedFor_first other text selectedWords :
  scannedFor other text selectedWords 0 text.
Proof. exists []. reflexivity. Qed.
End KeywordClaim.

(** ** ResumeTab: the weak-verb pass and the metric pass *)

Section EnhancePass.
Import JS Regex ResumeTab.
Variable random : nat -> random_number.
Variable source : string.

Lemma guard_seq_literal (w : string) p t ps :
  In ps (ends gi (wordPattern w) p t) -> In ps (ends gi (literal w) p t).
Proof.
  unfold wordPattern. cbn [ends]. intros Hin.
  apply in_flat_map in Hin. destruct Hin as [mid [H1 H2]].
  apply guard_In in H1. subst mid. simpl in H2.
  apply in_flat_map in H2. destruct H2 as [[p1 t1] [H2 H3]].
  apply guard_In in H3. simpl in H3. now subst ps.
Qed.

(** A match of [\bw\b] under the flags gi is [w] up to case. *)
Lemma matchAll_wordPattern (w s : string) mr :
  In mr (matchAll gi (wordPattern w) s) ->
  toLowerCase (matched mr) = toLowerCase w.
Proof.
  intros H. destruct (matchAll_ends _ _ _ _ H) as [p0 [t0 [Hin Hm]]].
  apply guard_seq_literal, ends_literal_gi in Hin.
  destruct Hin as [m [Et Hlow]].
  rewrite Hm. rewrite Et at 1. now rewrite consumed_append.
Qed.

(** The index [Math.floor(Math.random() * n)] is below [n]. *)
Lemma floorTimes_lt (r : random_number) (n : nat) :
  0 < n -> floorTimes r n < n.
Proof.
  intros Hn. unfold floorTimes.
  set (x := (rnd r * inject_Z (Z.of_nat n))%Q).
  assert (Hn' : (0 < inject_Z (Z.of_nat n))%Q).
  { rewrite <- (Zlt_Qlt 0). lia. }
  assert (H0 : (0 <= x)%Q).
  { unfold x. apply Qmult_le_0_compat; [apply rnd_lo|now apply Qlt_le_weak]. }
  assert (H1 : (x < inject_Z (Z.of_nat n))%Q).
  { unfold x. rewrite <- (Qmult_1_l (inject_Z (Z.of_nat n))) at 2.
    apply Qmult_lt_compat_r; [exact Hn'|apply rnd_hi]. }
  assert (Hlo : (0 <= Qfloor x)%Z).
  { change 0%Z with (Qfloor 0). now apply Qfloor_resp_le. }
  assert (Hhi : (Qfloor x < Z.of_nat n)%Z).
  { rewrite Zlt_Qlt. eapply Qle_lt_trans; [apply Qfloor_le|exact H1]. }
  lia.
Qed.

Lemma pick_In (strong : list string) (k : nat) :
  k < List.length strong -> In (pick strong k) strong.
Proof. intros H. unfold pick. now apply nth_In. Qed.

Lemma enhance_step_log (table : list (string * list string)) entry acc :
  In entry table -> 0 < List.length (snd entry) ->
  exists pushed,
    fst (snd (enhance_step random source acc entry))
    = (fst (snd acc) ++ pushed)%list /\
    Forall (enhancementOf table) pushed.
Proof.
  intros Hin Hlen. unfold enhance_step.
  destruct (replace_log (enhance_callback random source (snd entry))
              (fun st : list Change * nat => fst st)
              (fun mr => toLowerCase (matched mr) = toLowerCase (fst entry))
              (enhancementOf table))
    with (fl := gi) (r := wordPattern (fst entry)) (s := fst acc) (st := snd acc)
    as [pushed [Hp [HQ _]]].
  - intros mr st Hm. eexists. split; [reflexivity|].
    split; [reflexivity|].
    exists (fst entry), (snd entry). simpl.
    split; [now destruct entry|]. split; [|exact Hm].
    apply pick_In, floorTimes_lt, Hlen.
  - intros mr H. now apply matchAll_wordPattern in H.
  - exists pushed. split; assumption.
Qed.

Lemma enhance_fold_log (table : list (string * list string)) :
  forall entries acc,
    incl entries table ->
    Forall (fun e => 0 < List.length (snd e)) entries ->
    exists pushed,
      fst (snd (fold_left (enhance_step random source) entries acc))
      = (fst (snd acc) ++ pushed)%list /\
      Forall (enhancementOf table) pushed.
Proof.
  induction entries as [|e entries IH]; intros acc Hincl Hlen; simpl.
  - exists []. rewrite app_nil_r. auto.
  - inversion Hlen as [|? ? He Hrest]; subst.
    destruct (@enhance_step_log table e acc) as [p1 [E1 Q1]];
      [apply Hincl; now left|exact He|].
    destruct (IH (enhance_step random source acc e)) as [p2 [E2 Q2]];
      [intros x Hx; apply Hincl; now right|exact Hrest|].
    exists (p1 ++ p2)%list. rewrite E2, E1, app_assoc.
    split; [reflexivity|]. apply Forall_app. auto.
Qed.
End EnhancePass.

Section EnhanceClaims.
Import JS Regex ResumeTab.

Lemma actionVerbReplacements_nonempty :
  Forall (fun e : string * list string => 0 < List.length (snd e))
         actionVerbReplacements.
Proof. repeat constructor. Qed.

(** The weak phrases hold no syntax character: the RegExp constructor
    turns each into its [wordPattern]. *)
Lemma actionVerbReplacements_plain (other : string -> completion regex) :
  Forall (fun e : string * list string =>
            RegExp_word other (fst e) = Normal (wordPattern (fst e)))
         actionVerbReplacements.
Proof. repeat constructor. Qed.

(** The log of handleEnhance: the changes it starts from, then those of
    the weak-verb pass, then those of the metric pass. *)
Lemma handleEnhance_log (sanitize : string -> string)
    (random : nat -> random_number) (st : State) :
  exists enh met,
    changes (handleEnhance sanitize random st) = (changes st ++ enh ++ met)%list /\
    Forall (enhancementOf actionVerbReplacements) enh /\
    Forall metricChange met.
Proof.
  unfold handleEnhance.
  destruct (@enhance_fold_log random (optimizedText st) actionVerbReplacements
              actionVerbReplacements (optimizedText st, (changes st, 0)))
    as [enh [E1 Q1]];
    [apply incl_refl|apply actionVerbReplacements_nonempty|].
  destruct (fold_left (enhance_step random (optimizedText st))
              actionVerbReplacements (optimizedText st, (changes st, 0)))
    as [enhanced [newChanges k]].
  simpl in E1.
  destruct (replace_log (metric_callback (optimizedText st)) (fun l => l)
              (fun mr => allChars (alphabet gi metricRegex) (matched mr) = true)
              metricChange)
    with (fl := gi) (r := metricRegex) (s := enhanced) (st := newChanges)
    as [met [E2 [Q2 _]]].
  - intros mr l Hm. eexists. split; [reflexivity|].
    split; [reflexivity|]. split; [reflexivity|exact Hm].
  - intros mr H. now apply matchAll_alphabet in H.
  - destruct (replace (metric_callback (optimizedText st)) gi metricRegex
                enhanced newChanges) as [enhanced' newChanges'].
    simpl in E2 |- *. exists enh, met. rewrite E2, E1, app_assoc. auto.
Qed.

(** C10.  Whatever Math.random() returns, every Change of type
    enhancement that handleEnhance appends to the log has as [optimized]
    one of the replacements that the table actionVerbReplacements lists
    for a weak phrase, and as [original] that weak phrase up to case. *)
Theorem handleEnhance_replacement_from_table
    (sanitize : string -> string) (random : nat -> random_number) (st : State) :
  exists pushed,
    changes (handleEnhance sanitize random st) = (changes st ++ pushed)%list /\
    Forall (fun c =>
              type c = enhancement ->
              exists weak strong,
                In (weak, strong) actionVerbReplacements /\
                In (optimized c) strong /\
                equalsIgnoreCase (original c) weak)
           pushed.
Proof.
  destruct (handleEnhance_log sanitize random st) as [enh [met [E [Qe Qm]]]].
  exists (enh ++ met)%list. split; [exact E|].
  apply Forall_app. split.
  - eapply Forall_impl; [|exact Qe]. intros c [_ H] _. exact H.
  - eapply Forall_impl; [|exact Qm]. intros c [Ht _] Ht'. congruence.
Qed.
End EnhanceClaims.

(** ** ResumeTab: what the metric pass matches *)

Section MetricClaims.
Import JS Regex ResumeTab.

Lemma metric_alphabet_notSlash (c : ascii) :
  alphabet gi metricRegex c = true -> notSlash c = true.
Proof.
  unfold notSlash. destruct (Ascii.eqb c "/") eqn:E; [|reflexivity].
  apply Ascii.eqb_eq in E. subst c. vm_compute. discriminate.
Qed.

(** Where the date pattern matches there is a slash. *)
Lemma ends_dateLike_slash p t ps :
  In ps (ends noflags dateLike p t) -> allChars notSlash t = false.
Proof.
  unfold dateLike. cbn [seqs ends]. intros Hin.
  apply in_flat_map in Hin. destruct Hin as [mid [H1 H2]].
  apply in_flat_map in H2. destruct H2 as [mid2 [H2 _]].
  destruct (ends_alphabet noflags (times digit 1 2) p t mid H1) as [m [Et _]].
  destruct (@step_atom_Char noflags "/" (snd mid) mid2) as [c [t' [Es Hc]]];
    [exact H2|].
  unfold char_matches, noflags in Hc. cbn [ignoreCase] in Hc.
  apply Ascii.eqb_eq in Hc. subst c.
  rewrite Et, Es, allChars_append. simpl. apply andb_false_r.
Qed.

Lemma notSlash_not_dateLike (s : string) :
  allChars notSlash s = true -> isDateLike s = false.
Proof.
  intros H. unfold isDateLike, test.
  destruct (exec_from noflags dateLike None s 0) as [mr|] eqn:E; [|reflexivity].
  apply exec_from_match in E.
  destruct E as [pre [p0 [t0 [E [_ [Hin _]]]]]].
  apply ends_dateLike_slash in Hin.
  rewrite E, allChars_append, Hin, andb_false_r in H. discriminate.
Qed.

(** No Change of the metric pass has a date-like text as its original,
    nor an original that contains one; its [optimized] is its
    [original]. *)
Lemma handleEnhance_metric_not_date
    (sanitize : string -> string) (random : nat -> random_number) (st : State) :
  exists pushed,
    changes (handleEnhance sanitize random st) = (changes st ++ pushed)%list /\
    Forall (fun c =>
              type c = metric ->
              optimized c = original c /\ isDateLike (original c) = false)
           pushed.
Proof.
  destruct (handleEnhance_log sanitize random st) as [enh [met [E [Qe Qm]]]].
  exists (enh ++ met)%list. split; [exact E|].
  apply Forall_app. split.
  - eapply Forall_impl; [|exact Qe]. intros c [Ht _] Ht'. congruence.
  - eapply Forall_impl; [|exact Qm]. intros c [_ [Ho Ha]] _.
    split; [exact Ho|]. apply notSlash_not_dateLike.
    eapply allChars_impl; [|exact Ha]. apply metric_alphabet_notSlash.
Qed.

Lemma date_example_is_dateLike : isDateLike "3/15/2024" = true.
Proof. vm_compute. reflexivity. Qed.

(** C1.  On the text of the example the metric pass emits no Change at
    all: after the percent sign the pattern asks for a word boundary, and
    between the percent sign and a blank there is none.  The same number
    is found when a letter follows the percent sign directly. *)
Theorem handleEnhance_misses_percent_before_blank
    (sanitize : string -> string) (random : nat -> random_number) :
  changes (handleEnhance sanitize random
             {| optimizedText := "3/15/2024 saw a 20% increase"; changes := [] |})
  = [] /\
  map (fun c => (type c, original c))
      (changes (handleEnhance sanitize random
                  {| optimizedText := "3/15/2024 saw a 20%increase";
                     changes := [] |}))
  = [(metric, "20%")].
Proof. split; vm_compute; reflexivity. Qed.
End MetricClaims.

(** ** Arrays *)

Section ArrayFacts.
Import JS.

Lemma firstn_In (A : Type) (k : nat) (l : list A) (x : A) :
  In x (firstn k l) -> In x l.
Proof.
  intros H. rewrite <- (firstn_skipn k l). apply in_or_app. now left.
Qed.

Lemma skipn_In (A : Type) (k : nat) (l : list A) (x : A) :
  In x (skipn k l) -> In x l.
Proof.
  intros H. rewrite <- (firstn_skipn k l). apply in_or_app. now right.
Qed.

Lemma Array_slice_In (A : Type) (l : list A) (i j : Z) (x : A) :
  In x (Array_slice l i j) -> In x l.
Proof. unfold Array_slice. intros H. apply firstn_In, skipn_In in H. exact H. Qed.

Lemma Array_slice_0 (A : Type) (l : list A) (limit : Z) :
  Array_slice l 0 limit
  = firstn (Z.to_nat (relIndex (Z.of_nat (List.length l)) limit)) l.
Proof.
  unfold Array_slice. cbn zeta.
  assert (E : relIndex (Z.of_nat (List.length l)) 0 = 0%Z).
  { unfold relIndex. simpl. lia. }
  rewrite E. simpl. now rewrite Z.sub_0_r.
Qed.

Lemma Array_slice_0_length (A : Type) (l : list A) (limit : Z) :
  (0 <= limit)%Z ->
  (Z.of_nat (List.length (Array_slice l 0 limit)) <= limit)%Z.
Proof.
  intros H. rewrite Array_slice_0, length_firstn.
  unfold relIndex. destruct (limit <? 0)%Z eqn:E; lia.
Qed.

Lemma Array_slice_empty (A : Type) (l : list A) (i : Z) :
  Array_slice l i i = [].
Proof. unfold Array_slice. cbn zeta. now rewrite Z.sub_diag. Qed.

Lemma before_In_l (A : Type) (x y : A) l : before x y l -> In x l.
Proof. induction 1; simpl; auto. Qed.

Lemma before_In_r (A : Type) (x y : A) l : before x y l -> In y l.
Proof. induction 1; simpl; auto. Qed.

Lemma before_map (A B : Type) (f : A -> B) (x y : A) (l : list A) :
  before x y l -> before (f x) (f y) (map f l).
Proof.
  induction 1; simpl; [constructor; now apply in_map|now constructor 2].
Qed.

Lemma before_firstn (A : Type) (k : nat) (l : list A) (x y : A) :
  before x y (firstn k l) -> before x y l.
Proof.
  revert k. induction l as [|z l IH]; intros k; destruct k; simpl;
    try (intros H; now inversion H).
  intros H. inversion H as [? Hy|? ? H']; subst.
  - constructor. eapply firstn_In; eauto.
  - constructor 2. eapply IH; eauto.
Qed.

Lemma sumZ_app (l1 l2 : list Z) : sumZ (l1 ++ l2) = (sumZ l1 + sumZ l2)%Z.
Proof. induction l1; simpl; lia. Qed.

Lemma sumZ_nonneg (l : list Z) : Forall (fun z => 0 <= z)%Z l -> (0 <= sumZ l)%Z.
Proof. induction 1; simpl; lia. Qed.

Lemma sumZ_perm (l1 l2 : list Z) : Permutation l1 l2 -> sumZ l1 = sumZ l2.
Proof. induction 1; simpl; lia. Qed.

Lemma filter_length_le (A : Type) (f : A -> bool) (l : list A) :
  List.length (filter f l) <= List.length l.
Proof. induction l as [|a l IH]; simpl; [lia|]. destruct (f a); simpl; lia. Qed.

Lemma filter_map_comm (A B : Type) (f : A -> B) (p : B -> bool) (l : list A) :
  filter p (map f l) = map f (filter (fun a => p (f a)) l).
Proof.
  induction l as [|a l IH]; simpl; [reflexivity|].
  destruct (p (f a)); simpl; now rewrite IH.
Qed.

Lemma fold_left_ext (A B : Type) (f g : A -> B -> A) (l : list B) :
  (forall a b, f a b = g a b) -> forall a, fold_left f l a = fold_left g l a.
Proof.
  intros H. induction l as [|b l IH]; intros a; simpl; [reflexivity|].
  now rewrite H, IH.
Qed.
End ArrayFacts.

Section SortFacts.
Import JS.
Variable A : Type.
Variable cmp : A -> A -> option Z.

Lemma insert_perm (x : A) (l : list A) : Permutation (insert cmp x l) (x :: l).
Proof.
  induction l as [|y l IH]; simpl; [reflexivity|].
  destruct (notAfter cmp x y); [reflexivity|].
  rewrite IH. apply perm_swap.
Qed.

Lemma Array_sort_perm (l : list A) : Permutation (Array_sort cmp l) l.
Proof.
  induction l as [|x l IH]; simpl; [reflexivity|].
  rewrite insert_perm. now constructor.
Qed.

Lemma Array_sort_In (l : list A) (x : A) : In x (Array_sort cmp l) <-> In x l.
Proof.
  split; apply Permutation_in; [|symmetry]; apply Array_sort_perm.
Qed.

Lemma before_insert (a x y : A) (l : list A) :
  before x y (insert cmp a l) ->
  before x y l \/ (x = a /\ In y l) \/
  (y = a /\ In x l /\ notAfter cmp a x = false).
Proof.
  induction l as [|z l IH]; simpl.
  - intros H. inversion H as [? Hy|? ? H']; subst; [destruct Hy|inversion H'].
  - destruct (notAfter cmp a z) eqn:E.
    + intros H. inversion H; subst; auto.
    + intros H. inversion H as [? Hy|? ? H']; subst.
      * apply (Permutation_in _ (insert_perm a l)) in Hy.
        destruct Hy as [<-|Hy].
        -- right. right. simpl. auto.
        -- left. now constructor.
      * destruct (IH H') as [Hb|[[-> Hy]|[-> [Hx Hn]]]].
        -- left. now constructor.
        -- right. left. simpl. auto.
        -- right. right. simpl. auto.
Qed.

(** The sort is stable: it moves an element in front of an earlier one
    only when the comparator puts it strictly first. *)
Lemma Array_sort_stable (l : list A) (x y : A) :
  before x y (Array_sort cmp l) ->
  before x y l \/ (before y x l /\ notAfter cmp y x = false).
Proof.
  revert x y. induction l as [|a l IH]; intros x y; simpl.
  - intros H. inversion H.
  - intros H. apply before_insert in H.
    destruct H as [H|[[-> Hy]|[-> [Hx Hn]]]].
    + destruct (IH _ _ H) as [Hb|[Hb Hn]].
      * left. now constructor.
      * right. split; [now constructor|exact Hn].
    + left. constructor. exact (proj1 (Array_sort_In l y) Hy).
    + right. split; [|exact Hn]. constructor. exact (proj1 (Array_sort_In l x) Hx).
Qed.
End SortFacts.

(** ** WordCloudTab: the object [ngrams] *)

Section NgramsObject.
Import JS WordCloudTab.

Lemma seenIn_In seen x : seenIn seen x = true <-> In x seen.
Proof.
  unfold seenIn. rewrite existsb_exists. split.
  - intros [y [Hy E]]. apply String.eqb_eq in E. now subst.
  - intros H. exists x. split; [exact H|apply String.eqb_refl].
Qed.

Lemma own_seenIn (o : object) (k : string) :
  seenIn (keys o) k = match own o k with Some _ => true | None => false end.
Proof.
  induction o as [|[k' v] o IH]; simpl; [reflexivity|].
  rewrite String.eqb_sym. destruct (k' =? k)%string; simpl; [reflexivity|exact IH].
Qed.

Lemma keys_set (o : object) (k : string) (v : jsval) :
  keys (set o k v) = if seenIn (keys o) k then keys o else (keys o ++ [k])%list.
Proof.
  induction o as [|[k' v'] o IH]; simpl; [reflexivity|].
  rewrite (String.eqb_sym k k').
  destruct (k' =? k)%string eqn:E; simpl.
  - apply String.eqb_eq in E. now subst.
  - rewrite IH. now destruct (seenIn (keys o) k).
Qed.

Lemma firstSeen_ext (seen1 seen2 l : list string) :
  (forall x, seenIn seen1 x = seenIn seen2 x) ->
  firstSeen seen1 l = firstSeen seen2 l.
Proof.
  revert seen1 seen2.
  induction l as [|a l IH]; intros seen1 seen2 H; simpl; [reflexivity|].
  fold (seenIn seen1 a). fold (seenIn seen2 a). rewrite (H a).
  destruct (seenIn seen2 a); [now apply IH|].
  f_equal. apply IH. intros x. unfold seenIn. simpl.
  fold (seenIn seen1 x). fold (seenIn seen2 x). now rewrite H.
Qed.

Lemma firstSeen_In (seen l : list string) (x : string) :
  In x (firstSeen seen l) -> In x l.
Proof.
  revert seen. induction l as [|a l IH]; intros seen; simpl; [tauto|].
  destruct (existsb (String.eqb a) seen); simpl.
  - intros H. right. eapply IH; eauto.
  - intros [H|H]; [now left|right; eapply IH; eauto].
Qed.

(** The keys of [ngrams] after the loop: the phrases that are not
    excluded, each at the place of its first occurrence. *)
Lemma fold_keys (excludedWords ws : list string) :
  forall o,
    keys (fold_left (count_phrase excludedWords) ws o)
    = (keys o ++ firstSeen (keys o) (filter (kept excludedWords) ws))%list.
Proof.
  induction ws as [|w ws IH]; intros o; simpl.
  - now rewrite app_nil_r.
  - rewrite IH. unfold count_phrase, kept.
    destruct (Set_has excludedWords w); simpl; [reflexivity|].
    rewrite keys_set. fold (seenIn (keys o) w).
    destruct (seenIn (keys o) w) eqn:E; [reflexivity|].
    rewrite <- app_assoc. simpl. do 2 f_equal.
    apply firstSeen_ext. intros x. unfold seenIn.
    rewrite existsb_app. simpl. rewrite orb_false_r. apply orb_comm.
Qed.

Lemma accumulate_keys (excludedWords ws : list string) :
  keys (accumulate excludedWords ws)
  = firstSeen [] (filter (kept excludedWords) ws).
Proof. unfold accumulate. now rewrite fold_keys. Qed.

Lemma accumulate_not_excluded (excludedWords ws : list string) (k : string) :
  In k (keys (accumulate excludedWords ws)) -> Set_has excludedWords k = false.
Proof.
  rewrite accumulate_keys. intros H. apply firstSeen_In, filter_In in H.
  destruct H as [_ H]. unfold kept in H. now destruct (Set_has excludedWords k).
Qed.

Lemma entries_text (o : object) : map text (entries o) = keys o.
Proof. unfold entries, keys. rewrite map_map. reflexivity. Qed.

Lemma generateNgrams_In (eng ex : list string) (txt : string) (n limit : Z)
    (w : Word) :
  In w (generateNgrams eng ex txt n limit) ->
  In w (entries (accumulate ex (windows (cleanWords eng txt) n))).
Proof.
  unfold generateNgrams. intros H.
  apply Array_slice_In in H. now apply Array_sort_In in H.
Qed.

Lemma Set_has_add (p : string) (s : list string) : Set_has (Set_add p s) p = true.
Proof.
  unfold Set_add. destruct (Set_has s p) eqn:E; [exact E|].
  unfold Set_has. rewrite existsb_app. simpl.
  rewrite String.eqb_refl. simpl. apply orb_true_r.
Qed.

Lemma notAfter_byValueDesc_false (x y : Word) :
  notAfter byValueDesc y x = false -> outranks x y.
Proof.
  unfold notAfter, byValueDesc, outranks.
  destruct (value x) as [a|]; destruct (value y) as [b|]; simpl; try discriminate.
  intros H. exists a, b. repeat split. apply Z.leb_gt in H. lia.
Qed.

(** C9.  No entry of the result has an excluded phrase as its text; in
    particular a phrase that has just been added to the excluded set is
    absent from the result of the next extraction, for every text, window
    size and limit. *)
Theorem generateNgrams_excluded_absent
    (eng excludedWords : list string) (txt : string) (n limit : Z) :
  Forall (fun w => Set_has excludedWords (text w) = false)
         (generateNgrams eng excludedWords txt n limit) /\
  forall phrase,
    ~ In phrase
         (map text (generateNgrams eng (Set_add phrase excludedWords) txt n limit)).
Proof.
  assert (H : forall ex, Forall (fun w => Set_has ex (text w) = false)
                                (generateNgrams eng ex txt n limit)).
  { intros ex. apply Forall_forall. intros w Hw.
    apply generateNgrams_In in Hw.
    eapply accumulate_not_excluded. rewrite <- entries_text.
    apply in_map. exact Hw. }
  split; [apply H|].
  intros phrase Hin. apply in_map_iff in Hin. destruct Hin as [w [Ew Hw]].
  specialize (H (Set_add phrase excludedWords)).
  rewrite Forall_forall in H. specialize (H w Hw).
  rewrite Ew, Set_has_add in H. discriminate.
Qed.

(** In this example two phrases have the count 2; they come in the
    order in which the text brings them. *)
Lemma tie_example :
  generateNgrams eng_excerpt ["beta"; "gamma"] "delta alpha beta alpha delta" 1 15
  = [ {| text := "delta"; value := VNum 2 |};
      {| text := "alpha"; value := VNum 2 |} ].
Proof. vm_compute. reflexivity. Qed.
End NgramsObject.

(** ** WordCloudTab: window sizes below 1, and counts *)

Section NgramCounts.
Import JS WordCloudTab.

Lemma windows_0 (cw : list string) :
  windows cw 0 = repeat "" (S (List.length cw)).
Proof.
  unfold windows.
  replace (Z.to_nat (Z.of_nat (List.length cw) - 0 + 1))
    with (S (List.length cw)) by lia.
  generalize (S (List.length cw)) as k. intros k.
  generalize 0 as start. induction k as [|k IH]; intros start; simpl; [reflexivity|].
  rewrite IH. f_equal. unfold phrase_at. rewrite Z.add_0_r.
  now rewrite Array_slice_empty.
Qed.

Lemma fold_empty_phrase (ex : list string) (k : nat) (z : Z) :
  Set_has ex "" = false ->
  fold_left (count_phrase ex) (repeat "" k) [("", VNum z)]
  = [("", VNum (z + Z.of_nat k))].
Proof.
  intros Hex. revert z. induction k as [|k IH]; intros z.
  - simpl. now rewrite Z.add_0_r.
  - cbn [repeat fold_left]. unfold count_phrase at 2. rewrite Hex.
    cbn [bump own set String.eqb]. rewrite IH. do 3 f_equal. lia.
Qed.

Lemma accumulate_empty_phrase (ex : list string) (k : nat) :
  accumulate ex (repeat "" (S k))
  = if Set_has ex "" then [] else [("", VNum (Z.of_nat k + 1))].
Proof.
  unfold accumulate. destruct (Set_has ex "") eqn:Hex.
  - generalize (S k). intros m. induction m as [|m IH]; simpl; [reflexivity|].
    unfold count_phrase at 2. now rewrite Hex.
  - cbn [repeat fold_left]. unfold count_phrase at 2. rewrite Hex.
    cbn [bump own set String.eqb]. rewrite fold_empty_phrase by exact Hex.
    do 3 f_equal. lia.
Qed.

(** C2 as stated fails: with the window size 0 the call returns a result,
    the empty phrase with a count. *)
Lemma generateNgrams_zero_n_returns :
  (0 < 1)%Z /\
  generateNgrams_call eng_excerpt [] "alpha beta" 0 15
  = Normal [{| text := ""; value := VNum 3 |}].
Proof. split; [lia|vm_compute; reflexivity]. Qed.

(** C2, amended.  A call with a window size below 1 is not rejected: the
    function does not look at [n] before the loop and returns normally,
    for every text, limit and excluded set.  With [n = 0] every window
    is the empty phrase, so the result is empty when the empty phrase is
    excluded, and otherwise the one entry with the empty text and the
    count (number of cleaned tokens + 1), cut to the limit. *)
Theorem generateNgrams_accepts_small_n
    (eng excludedWords : list string) (txt : string) (n limit : Z) :
  (n < 1)%Z ->
  exists ws,
    generateNgrams_call eng excludedWords txt n limit = Normal ws /\
    (n = 0%Z ->
     ws = if Set_has excludedWords "" then []
          else Array_slice
                 [{| text := "";
                     value := VNum (Z.of_nat (List.length (cleanWords eng txt)) + 1) |}]
                 0 limit).
Proof.
  intros _. eexists. split; [reflexivity|].
  intros ->. unfold generateNgrams.
  rewrite windows_0, accumulate_empty_phrase.
  destruct (Set_has excludedWords ""); [|reflexivity].
  cbn [entries map Array_sort fold_right]. rewrite Array_slice_0. apply firstn_nil.
Qed.

Lemma generateNgrams_accepts_small_n_witness :
  (0 < 1)%Z /\
  exists ws,
    generateNgrams_call eng_excerpt [] "alpha beta" 0 15 = Normal ws /\
    (0%Z = 0%Z ->
     ws = if Set_has [] "" then []
          else Array_slice
                 [{| text := "";
                     value := VNum (Z.of_nat
                                      (List.length (cleanWords eng_excerpt "alpha beta"))
                                    + 1) |}]
                 0 15).
Proof.
  split; [lia|].
  apply (@generateNgrams_accepts_small_n eng_excerpt [] "alpha beta" 0 15). lia.
Defined.

(** A negative window size is accepted in the same way; slice then counts
    its end from the back of the token list. *)
Lemma generateNgrams_negative_n_example :
  generateNgrams eng_excerpt [] "alpha beta gamma" (-1) 15
  = [ {| text := ""; value := VNum 4 |};
      {| text := "alpha beta"; value := VNum 1 |} ].
Proof. vm_compute. reflexivity. Qed.

Lemma bump_set_counted (phrase : string) :
  phrase <> "constructor" ->
  forall o, counted o ->
    counted (set o phrase (bump o phrase)) /\
    total (set o phrase (bump o phrase)) = (total o + 1)%Z.
Proof.
  intros Hne. induction o as [|[k v] o IH]; intros Ho.
  - unfold bump. simpl.
    destruct (phrase =? "constructor")%string eqn:E;
      [apply String.eqb_eq in E; contradiction|].
    split; [|reflexivity]. repeat constructor. simpl.
    exists 1%Z. split; [reflexivity|lia].
  - inversion Ho as [|? ? [z [Hz Hz1]] Ho']; subst. simpl in Hz. subst v.
    unfold bump. simpl. destruct (k =? phrase)%string eqn:E.
    + split.
      * constructor; [|exact Ho']. simpl. exists (z + 1)%Z. split; [reflexivity|lia].
      * unfold total. simpl. lia.
    + destruct (IH Ho') as [Hc Ht]. unfold bump in Hc, Ht. split.
      * constructor; [|exact Hc]. simpl. exists z. auto.
      * unfold total in Ht |- *. simpl. fold sumZ. unfold sumZ in Ht. simpl in Ht |- *.
        unfold sumZ. lia.
Qed.

Lemma fold_counted (ex : list string) (ws : list string) :
  ~ In "constructor" ws ->
  forall o, counted o ->
    counted (fold_left (count_phrase ex) ws o) /\
    (total (fold_left (count_phrase ex) ws o)
     = total o + Z.of_nat (List.length (filter (kept ex) ws)))%Z.
Proof.
  induction ws as [|w ws IH]; intros Hno o Ho; simpl.
  - split; [exact Ho|lia].
  - assert (Hw : w <> "constructor") by (intros ->; apply Hno; now left).
    assert (Hws : ~ In "constructor" ws) by (intros H; apply Hno; now right).
    unfold count_phrase at 2 4. unfold kept.
    destruct (Set_has ex w); simpl.
    + apply IH; assumption.
    + destruct (bump_set_counted Hw Ho) as [Hc Ht].
      destruct (IH Hws _ Hc) as [Hc' Ht']. split; [exact Hc'|].
      unfold kept in Ht'. rewrite Ht', Ht. lia.
Qed.

(** The three bounds of the result, for a text none of whose windows is
    the word constructor: at most [limit] entries, every value a count
    of at least 1, and the counts sum to at most the number of windows. *)
Lemma generateNgrams_counts (eng : list string) (txt : string) (n limit : Z) :
  (0 <= limit)%Z ->
  ~ In "constructor" (windows (cleanWords eng txt) n) ->
  let out := generateNgrams eng [] txt n limit in
  (Z.of_nat (List.length out) <= limit)%Z /\
  Forall (fun w => exists z, value w = VNum z /\ (1 <= z)%Z) out /\
  (sumZ (map count_value out)
   <= Z.of_nat (List.length (windows (cleanWords eng txt) n)))%Z.
Proof.
  intros Hlimit Hno out. subst out. unfold generateNgrams.
  set (ws := windows (cleanWords eng txt) n) in *.
  destruct (@fold_counted [] ws Hno [] (Forall_nil _)) as [Hc Ht].
  fold (accumulate [] ws) in Hc, Ht.
  set (E := entries (accumulate [] ws)).
  assert (HE : Forall (fun w => exists z, value w = VNum z /\ (1 <= z)%Z) E).
  { unfold E, entries. apply Forall_map. exact Hc. }
  assert (HS : Forall (fun w => exists z, value w = VNum z /\ (1 <= z)%Z)
                      (Array_sort byValueDesc E)).
  { apply Forall_forall. intros w Hw. apply Array_sort_In in Hw.
    rewrite Forall_forall in HE. now apply HE. }
  split; [now apply Array_slice_0_length|].
  split.
  - apply Forall_forall. intros w Hw. apply Array_slice_In in Hw.
    rewrite Forall_forall in HS. now apply HS.
  - rewrite Array_slice_0.
    set (k := Z.to_nat (relIndex
                          (Z.of_nat (List.length (Array_sort byValueDesc E))) limit)).
    assert (Hsum : sumZ (map count_value (Array_sort byValueDesc E))
                   = total (accumulate [] ws)).
    { rewrite (sumZ_perm (Permutation_map count_value
                            (Array_sort_perm byValueDesc E))).
      unfold E, entries, total. rewrite map_map. reflexivity. }
    rewrite <- (firstn_skipn k (Array_sort byValueDesc E)) in Hsum.
    rewrite map_app, sumZ_app in Hsum.
    assert (Hrest : (0 <= sumZ (map count_value
                                    (skipn k (Array_sort byValueDesc E))))%Z).
    { apply sumZ_nonneg. apply Forall_map. apply Forall_forall. intros w Hw.
      apply skipn_In in Hw. rewrite Forall_forall in HS.
      destruct (HS w Hw) as [z [Hz Hz1]]. unfold count_value. rewrite Hz. lia. }
    pose proof (filter_length_le (kept []) ws).
    unfold total in Ht at 2. simpl in Ht. lia.
Qed.

(** C5.  For the text constructor and the window size 1 the one entry of
    the result has a value that is no number: [ngrams] is a plain object,
    so [ngrams[phrase]] finds the function that every object inherits
    under that key, and adding 1 to it yields a text. *)
Theorem generateNgrams_constructor_not_counted :
  generateNgrams eng_excerpt [] "constructor" 1 15
  = [{| text := "constructor"; value := VStr (Object_source ++ "1") |}] /\
  ~ (exists z, VStr (Object_source ++ "1") = VNum z /\ (1 <= z)%Z).
Proof.
  split; [vm_compute; reflexivity|].
  intros [z [H _]]. discriminate.
Qed.

(** With a second occurrence the text grows, and the entry sits between
    counts it is not ordered with. *)
Lemma generateNgrams_constructor_example :
  generateNgrams eng_excerpt [] "alpha constructor beta beta constructor" 1 15
  = [ {| text := "alpha"; value := VNum 1 |};
      {| text := "constructor"; value := VStr (Object_source ++ "11") |};
      {| text := "beta"; value := VNum 2 |} ].
Proof. vm_compute. reflexivity. Qed.

(** *** Phrases are made of lowercase letters and blanks *)

Lemma filtered_lowerOrSpace (s : string) :
  allChars lowerOrSpace (filterChars isLetterOrSpace (toLowerCase s)) = true.
Proof.
  induction s as [|c s IH]; simpl; [reflexivity|].
  destruct (isLetterOrSpace (toLowerChar c)) eqn:E; [|exact IH].
  simpl. rewrite IH, andb_true_r.
  unfold isLetterOrSpace in E. rewrite toLowerChar_not_upper in E.
  unfold lowerOrSpace. now rewrite orb_false_r in E.
Qed.

Lemma split_ws_chars (g : ascii -> bool) (s : string) :
  allChars g s = true ->
  Forall (fun w => allChars (fun c => g c && negb (isWhiteSpace c)) w = true)
         (split_ws s).
Proof.
  induction s as [|c s IH]; simpl.
  - intros _. repeat constructor.
  - rewrite andb_true_iff. intros [Hc Hs]. specialize (IH Hs).
    destruct (isWhiteSpace c) eqn:E.
    + destruct (startsWithSpace s); [exact IH|]. constructor; [reflexivity|exact IH].
    + destruct (split_ws s) as [|w r].
      * repeat constructor. simpl. now rewrite Hc, E.
      * inversion IH; subst. constructor; [|assumption].
        simpl. rewrite Hc, E. simpl. assumption.
Qed.

Lemma cleanWords_lower (eng : list string) (txt : string) :
  Forall (fun w => allChars isLowerAZ w = true) (cleanWords eng txt).
Proof.
  unfold cleanWords, removeStopwords. apply Forall_forall. intros w Hw.
  apply filter_In in Hw. destruct Hw as [Hw _].
  apply filter_In in Hw. destruct Hw as [Hw _].
  pose proof (split_ws_chars lowerOrSpace _ (filtered_lowerOrSpace txt)) as H.
  rewrite Forall_forall in H. specialize (H w Hw).
  eapply allChars_impl; [|exact H].
  intros c. unfold lowerOrSpace.
  destruct (isLowerAZ c), (isWhiteSpace c); simpl; auto.
Qed.

Lemma join_blank_chars (l : list string) :
  Forall (fun w => allChars isLowerAZ w = true) l ->
  allChars isLowerOrBlank (join " " l) = true.
Proof.
  induction 1 as [|w l Hw Hl IH]; [reflexivity|].
  assert (Hw' : allChars isLowerOrBlank w = true).
  { eapply allChars_impl; [|exact Hw]. intros c Hc. unfold isLowerOrBlank.
    now rewrite Hc. }
  destruct l as [|w' l']; [exact Hw'|].
  change (join " " (w :: w' :: l')) with (w ++ " " ++ join " " (w' :: l')).
  rewrite !allChars_append, Hw', IH. reflexivity.
Qed.

(** Every phrase of the loop consists of lowercase letters and blanks,
    whatever the text and the window size. *)
Lemma windows_alphabet (eng : list string) (txt : string) (n : Z) :
  Forall (fun phrase => allChars isLowerOrBlank phrase = true)
         (windows (cleanWords eng txt) n).
Proof.
  unfold windows. apply Forall_map, Forall_forall. intros i _.
  unfold phrase_at. apply join_blank_chars, Forall_forall. intros w Hw.
  apply Array_slice_In in Hw.
  pose proof (cleanWords_lower eng txt) as H. rewrite Forall_forall in H. auto.
Qed.

(** Of the names that [ngrams] inherits, constructor alone can be a
    phrase. *)
Lemma inherited_phrase_is_constructor :
  filter (allChars isLowerOrBlank) Object_prototype_names = ["constructor"].
Proof. vm_compute. reflexivity. Qed.
End NgramCounts.

(** ** ATSChecker: keyword coverage and the overall score *)

Section Scoring.
Import JS ATSChecker.

(** The matched list holds, in the order of the keyword list, every
    keyword that occurs as a word of the text, with its number of
    occurrences. *)
Lemma analyzeKeywords_matches (selectedWords : list string) (text : string) :
  matches (analyzeKeywords selectedWords text)
  = map (fun w => {| word := w; count := occurrences text w |})
        (filter (occursAsWord text) selectedWords).
Proof. unfold analyzeKeywords. cbn [matches]. now rewrite filter_map_comm. Qed.

(** The sub-score is the share of such keywords, times 100. *)
Lemma analyzeKeywords_score (selectedWords : list string) (text : string) :
  keywordScore (analyzeKeywords selectedWords text)
  = percentage (List.length (filter (occursAsWord text) selectedWords))
               (List.length selectedWords).
Proof.
  unfold analyzeKeywords. cbn [keywordScore].
  now rewrite filter_map_comm, length_map.
Qed.

Lemma split_ws_head_blank (s : string) :
  startsWithSpace s = true -> exists r, split_ws s = "" :: r.
Proof.
  induction s as [|c s IH]; simpl; [discriminate|].
  intros Hc. rewrite Hc. destruct (startsWithSpace s) eqn:E; eauto.
Qed.

Lemma split_ws_head_prefix (s : string) :
  exists w r, split_ws s = w :: r /\ startsWith w s = true.
Proof.
  induction s as [|c s IH]; simpl.
  - exists "", []. split; reflexivity.
  - destruct IH as [w [r [E Hw]]]. destruct (isWhiteSpace c) eqn:Ec.
    + destruct (startsWithSpace s) eqn:Es.
      * destruct (split_ws_head_blank s Es) as [r' E']. rewrite E'.
        exists "", r'. split; reflexivity.
      * exists "", (split_ws s). split; reflexivity.
    + rewrite E. exists (String c w), r. split; [reflexivity|].
      simpl. now rewrite Ascii.eqb_refl, Hw.
Qed.

(** A word of the text is a part of the text. *)
Lemma split_ws_includes (s w : string) :
  In w (split_ws s) -> includes s w = true.
Proof.
  induction s as [|c s IH]; simpl.
  - intros [<-|[]]. reflexivity.
  - destruct (isWhiteSpace c) eqn:Ec.
    + destruct (startsWithSpace s).
      * intros H. rewrite (IH H). apply orb_true_r.
      * intros [<-|H]; [reflexivity|]. rewrite (IH H). apply orb_true_r.
    + destruct (split_ws_head_prefix s) as [w0 [r [E Hw0]]]. rewrite E in IH |- *.
      intros [<-|H].
      * simpl. now rewrite Ascii.eqb_refl, Hw0.
      * rewrite IH by now right. apply orb_true_r.
Qed.

(** A keyword of the missing list does not occur as a word, so no keyword
    is in both lists. *)
Lemma analyzeKeywords_missing_no_word (selectedWords : list string)
    (text w : string) :
  In w (missing (analyzeKeywords selectedWords text)) ->
  In w selectedWords /\ occurrences text w = 0.
Proof.
  unfold analyzeKeywords. cbn [missing]. intros H.
  apply filter_In in H. destruct H as [Hin Hinc]. split; [exact Hin|].
  unfold occurrences.
  destruct (filter (fun w0 => (w0 =? toLowerCase w)%string)
                   (split_ws (toLowerCase text)))
    as [|x l] eqn:E; [reflexivity|].
  assert (Hx : In x (filter (fun w0 => (w0 =? toLowerCase w)%string)
                            (split_ws (toLowerCase text))))
    by (rewrite E; now left).
  apply filter_In in Hx. destruct Hx as [Hx Ex].
  apply String.eqb_eq in Ex. subst x.
  apply split_ws_includes in Hx. rewrite Hx in Hinc. discriminate.
Qed.

(** The missing list is decided by a different test: it holds the
    keywords that are no part of the lowercased text. *)
Lemma analyzeKeywords_missing (selectedWords : list string) (text : string) :
  missing (analyzeKeywords selectedWords text)
  = filter (fun w => negb (includes (toLowerCase text) (toLowerCase w)))
           selectedWords.
Proof. reflexivity. Qed.

(** C4.  The keyword java does not occur as a word of the text
    javascript, and yet it is in neither list: the missing list is
    filled by a substring test, the matched list by word equality. *)
Theorem analyzeKeywords_drops_embedded_keyword :
  occurrences "javascript" "java" = 0 /\
  analyzeKeywords ["java"] "javascript"
  = {| matches := []; missing := []; keywordScore := ofNat 0 |}.
Proof. split; vm_compute; reflexivity. Qed.

(** A keyword of two words (the word cloud produces such keywords) is
    never a word of the text, so it cannot be matched; when the text
    contains it, it is not missing either. *)
Lemma analyzeKeywords_multiword_example :
  analyzeKeywords ["project management"] "project management"
  = {| matches := []; missing := []; keywordScore := ofNat 0 |}.
Proof. vm_compute. reflexivity. Qed.

(** The same happens to a keyword that is followed by punctuation. *)
Lemma analyzeKeywords_punctuation_example :
  analyzeKeywords ["java"; "python"; "rust"] "I know Java. and python PYTHON"
  = {| matches := [{| word := "python"; count := 2 |}];
       missing := ["rust"];
       keywordScore := Num (100 # 3) |}.
Proof. vm_compute. reflexivity. Qed.

(** C3 as stated fails: for the empty text and the empty keyword list
    the keyword sub-score is the value of the division 0/0, which is NaN
    and not 100. *)
Lemma score_empty_keywords_is_zero_over_zero :
  List.length (@nil string) = 0 /\
  keywordMatch (atsScore (handleFileUpload [] ""))
  = mul (div (ofNat 0) (ofNat 0)) (ofNat 100) /\
  div (ofNat 0) (ofNat 0) = NaN /\
  keywordMatch (atsScore (handleFileUpload [] "")) <> ofNat 100.
Proof.
  split; [reflexivity|]. split; [reflexivity|]. split; [reflexivity|].
  vm_compute. discriminate.
Qed.

(** C3, amended.  Scoring with an empty keyword list completes for every
    text: the matched and the missing list are empty, the keyword
    sub-score is NaN (the value of the unguarded division 0/0; no value
    of 100 is put in its place), and with it the overall score is NaN. *)
Theorem score_empty_keywords (text : string) :
  keywordMatches (handleFileUpload [] text) = [] /\
  missingKeywords (handleFileUpload [] text) = [] /\
  keywordMatch (atsScore (handleFileUpload [] text)) = NaN /\
  overall (atsScore (handleFileUpload [] text)) = NaN.
Proof. repeat split. Qed.

(** A worked breakdown: three of four sub-scores full, two of three
    certifications. *)
Lemma score_example :
  atsScore (handleFileUpload ["pmp"]
              ("John Doe" ++ String LF "SKILLS:" ++ String LF "- PMP and aws"
               ++ String LF (String LF "body")))
  = {| overall := Num (245 # 3);
       keywordMatch := Num 100;
       formatting := Num 60;
       readability := Num 100;
       certifications := Num (200 # 3) |}.
Proof. vm_compute. reflexivity. Qed.
End Scoring.

(** ** WordCloudTab: the size of the cloud and its keys *)

Section CloudWords.
Import JS WordCloudTab.

Lemma generateNgrams_length (eng ex : list string) (txt : string) (n limit : Z) :
  (0 <= limit)%Z ->
  (Z.of_nat (List.length (generateNgrams eng ex txt n limit)) <= limit)%Z.
Proof. intros H. unfold generateNgrams. now apply Array_slice_0_length. Qed.

(** X1.  In the modes single and multi the cloud has at most 15 entries,
    in the mode both at most 30, whatever the text, the excluded words
    and the trigram switch are. *)
Theorem processText_size (eng : list string) (cloudType : CloudType)
    (useTrigrams : bool) (excludedWords : list string) (txt : string) :
  List.length (processText eng cloudType useTrigrams excludedWords txt)
  <= match cloudType with both => 30 | _ => 15 end.
Proof.
  assert (H : forall n, List.length (generateNgrams eng excludedWords txt n 15) <= 15).
  { intros n. pose proof (@generateNgrams_length eng excludedWords txt n 15). lia. }
  unfold processText. destruct cloudType, useTrigrams; try apply H;
    rewrite length_app;
    [pose proof (H 1%Z); pose proof (H 3%Z)|pose proof (H 1%Z); pose proof (H 2%Z)]; lia.
Qed.

Lemma firstSeen_fresh (l seen : list string) :
  NoDup (firstSeen seen l) /\ forall x, In x (firstSeen seen l) -> ~ In x seen.
Proof.
  revert seen. induction l as [|a l IH]; intros seen; simpl.
  - split; [constructor|intros x []].
  - fold (seenIn seen a). destruct (seenIn seen a) eqn:E; [apply IH|].
    destruct (IH (a :: seen)) as [Hnd Hfresh]. split.
    + constructor; [|exact Hnd]. intros Hin. apply (Hfresh a Hin). now left.
    + intros x [<-|Hx].
      * intros Hin. apply seenIn_In in Hin. congruence.
      * intros Hin. apply (Hfresh x Hx). now right.
Qed.

Lemma NoDup_firstn (A : Type) (k : nat) (l : list A) : NoDup l -> NoDup (firstn k l).
Proof.
  intros H. rewrite <- (firstn_skipn k l) in H. now apply NoDup_app_remove_r in H.
Qed.

(** The entries of one call have distinct texts: they are the keys of
    one object. *)
Lemma generateNgrams_texts_distinct
    (eng excludedWords : list string) (txt : string) (n limit : Z) :
  NoDup (map text (generateNgrams eng excludedWords txt n limit)).
Proof.
  unfold generateNgrams. rewrite Array_slice_0, <- firstn_map.
  apply NoDup_firstn.
  eapply Permutation_NoDup.
  - symmetry. apply Permutation_map. apply Array_sort_perm.
  - rewrite entries_text, accumulate_keys. apply firstSeen_fresh.
Qed.
End CloudWords.

(** ** WordCloudTab: what a phrase is *)

Section CloudPhrases.
Import JS WordCloudTab.

Lemma generateNgrams_text_window
    (eng ex : list string) (txt : string) (n limit : Z) (w : Word) :
  In w (generateNgrams eng ex txt n limit) ->
  In (text w) (windows (cleanWords eng txt) n) /\ Set_has ex (text w) = false.
Proof.
  intros H. apply generateNgrams_In in H.
  assert (Hk : In (text w) (keys (accumulate ex (windows (cleanWords eng txt) n)))).
  { rewrite <- entries_text. now apply in_map. }
  split; [|eapply accumulate_not_excluded; exact Hk].
  rewrite accumulate_keys in Hk. apply firstSeen_In, filter_In in Hk. tauto.
Qed.

Lemma windows_pos (cw : list string) (k : nat) :
  windows cw (Z.of_nat k)
  = map (fun i => join " " (firstn k (skipn i cw)))
        (seq 0 (List.length cw + 1 - k)).
Proof.
  unfold windows.
  replace (Z.to_nat (Z.of_nat (List.length cw) - Z.of_nat k + 1))
    with (List.length cw + 1 - k) by lia.
  apply map_ext_in. intros i Hi. apply in_seq in Hi.
  unfold phrase_at, Array_slice, relIndex. cbn zeta.
  destruct (Z.of_nat i <? 0)%Z eqn:E1; [lia|].
  destruct (Z.of_nat i + Z.of_nat k <? 0)%Z eqn:E2; [lia|].
  replace (Z.to_nat (Z.min (Z.of_nat i) (Z.of_nat (List.length cw)))) with i by lia.
  replace (Z.to_nat (Z.min (Z.of_nat i + Z.of_nat k) (Z.of_nat (List.length cw))
                     - Z.min (Z.of_nat i) (Z.of_nat (List.length cw))))
    with k by lia.
  reflexivity.
Qed.

Lemma windows_isWindow (cw : list string) (k : nat) (phrase : string) :
  1 <= k -> In phrase (windows cw (Z.of_nat k)) -> isWindow cw k phrase.
Proof.
  intros Hk. rewrite windows_pos. intros H. apply in_map_iff in H.
  destruct H as [i [E Hi]]. apply in_seq in Hi.
  exists i. split; [lia|now symmetry].
Qed.

Lemma toLowerChar_lower (c : ascii) : isLowerAZ c = true -> toLowerChar c = c.
Proof.
  assert (H : forallb (fun c => implb (isLowerAZ c) (Ascii.eqb (toLowerChar c) c))
                      all_ascii = true) by (vm_compute; reflexivity).
  rewrite forallb_forall in H. specialize (H c (all_ascii_complete c)).
  intros E. rewrite E in H. simpl in H. now apply Ascii.eqb_eq.
Qed.

Lemma toLowerCase_lower (s : string) :
  allChars isLowerAZ s = true -> toLowerCase s = s.
Proof.
  induction s as [|c s IH]; simpl; [reflexivity|].
  rewrite andb_true_iff. intros [Hc Hs]. now rewrite IH, toLowerChar_lower.
Qed.

(** What a cleaned word is. *)
Lemma cleanWords_spec (eng : list string) (txt : string) :
  Forall (fun t => 2 < String.length t /\ allChars isLowerAZ t = true /\ ~ In t eng)
         (cleanWords eng txt).
Proof.
  pose proof (cleanWords_lower eng txt) as Hlow.
  rewrite Forall_forall in Hlow |- *. intros t Ht.
  specialize (Hlow t Ht). split; [|split; [exact Hlow|]].
  - unfold cleanWords in Ht. apply filter_In in Ht. destruct Ht as [_ H].
    now apply Nat.ltb_lt in H.
  - unfold cleanWords, removeStopwords in Ht.
    apply filter_In in Ht. destruct Ht as [Ht _].
    apply filter_In in Ht. destruct Ht as [_ H].
    rewrite (toLowerCase_lower _ Hlow) in H.
    intros Hin. apply negb_true_iff in H.
    assert (existsb (String.eqb t) eng = true).
    { apply existsb_exists. exists t. split; [exact Hin|apply String.eqb_refl]. }
    congruence.
Qed.

(** X3.  For a window size of at least 1 every phrase that generateNgrams
    returns is the join, with single blanks, of [n] consecutive clean
    words, and every clean word has more than two code units, all of them
    lowercase letters a-z, and is no stop word. *)
Theorem generateNgrams_phrases_are_windows
    (eng excludedWords : list string) (txt : string) (n : nat) (limit : Z) :
  1 <= n ->
  Forall (fun w => isWindow (cleanWords eng txt) n (text w))
         (generateNgrams eng excludedWords txt (Z.of_nat n) limit) /\
  Forall (fun t => 2 < String.length t /\ allChars isLowerAZ t = true /\ ~ In t eng)
         (cleanWords eng txt).
Proof.
  intros Hn. split; [|apply cleanWords_spec].
  apply Forall_forall. intros w Hw.
  apply generateNgrams_text_window in Hw. destruct Hw as [Hw _].
  now apply windows_isWindow.
Qed.

Lemma generateNgrams_phrases_are_windows_witness :
  1 <= 2 /\
  Forall (fun w => isWindow (cleanWords eng_excerpt "Alpha beta, alpha BETA!") 2 (text w))
         (generateNgrams eng_excerpt [] "Alpha beta, alpha BETA!" (Z.of_nat 2) 15).
Proof.
  split; [lia|].
  apply (@generateNgrams_phrases_are_windows eng_excerpt []
           "Alpha beta, alpha BETA!" 2 15).
  lia.
Defined.

(** *** Texts without letters *)

Lemma no_letters_filtered (s : string) :
  allChars (fun c => negb (isLowerAZ c || isUpperAZ c)) s = true ->
  allChars isWhiteSpace (filterChars isLetterOrSpace s) = true.
Proof.
  induction s as [|c s IH]; simpl; [reflexivity|].
  rewrite andb_true_iff. intros [Hc Hs]. specialize (IH Hs).
  destruct (isLetterOrSpace c) eqn:E; [|exact IH].
  simpl. rewrite IH, andb_true_r.
  unfold isLetterOrSpace in E.
  destruct (isLowerAZ c || isUpperAZ c); [discriminate|exact E].
Qed.

Lemma allChars_absurd (f : ascii -> bool) (s : string) :
  allChars (fun c => f c && negb (f c)) s = true -> s = "".
Proof.
  destruct s as [|c s]; [reflexivity|]. simpl.
  destruct (f c); discriminate.
Qed.

Lemma filter_short (f : string -> bool) (l : list string) :
  Forall (fun w => w = "") l ->
  filter (fun w => 2 <? String.length w) (filter f l) = [].
Proof.
  induction 1 as [|w l Hw _ IH]; [reflexivity|].
  subst w. simpl. destruct (f ""); simpl; exact IH.
Qed.

(** X4.  When the lowercased text holds no letter a-z or A-Z, the cloud
    is empty for every window size of at least 1.  For a text of the code
    units U+0000 to U+00FF this is every text without a letter; beyond
    them lowercasing can bring a letter in (U+212A becomes k), and then
    the condition does not hold. *)
Theorem generateNgrams_no_letters
    (eng excludedWords : list string) (txt : string) (n limit : Z) :
  (1 <= n)%Z ->
  allChars (fun c => negb (isLowerAZ c || isUpperAZ c)) (toLowerCase txt) = true ->
  generateNgrams eng excludedWords txt n limit = [].
Proof.
  intros Hn Htxt.
  assert (Hcw : cleanWords eng txt = []).
  { unfold cleanWords, removeStopwords.
    apply filter_short.
    eapply Forall_impl;
      [|exact (split_ws_chars isWhiteSpace _
                 (no_letters_filtered (toLowerCase txt) Htxt))].
    intros w. apply allChars_absurd. }
  unfold generateNgrams. rewrite Hcw. unfold windows.
  replace (Z.to_nat (Z.of_nat (List.length (@nil string)) - n + 1)) with 0
    by (simpl; lia).
  cbn [seq map accumulate fold_left entries Array_sort fold_right].
  rewrite Array_slice_0. apply firstn_nil.
Qed.

Lemma generateNgrams_no_letters_witness :
  (1 <= 1)%Z /\
  allChars (fun c => negb (isLowerAZ c || isUpperAZ c))
           (toLowerCase "2024: 10 % (+3)") = true /\
  generateNgrams eng_excerpt [] "2024: 10 % (+3)" 1 15 = [].
Proof.
  split; [lia|]. split; [reflexivity|].
  apply (@generateNgrams_no_letters eng_excerpt [] "2024: 10 % (+3)" 1 15);
    [lia|reflexivity].
Defined.
End CloudPhrases.

(** ** WordCloudTab: the counts and their order *)

Section CloudCounts.
Import JS WordCloudTab.

Lemma own_set (o : object) (k k' : string) (v : jsval) :
  own (set o k v) k' = if (k =? k')%string then Some v else own o k'.
Proof.
  induction o as [|[k0 v0] o IH]; simpl; [reflexivity|].
  destruct (k0 =? k)%string eqn:E; simpl.
  - apply String.eqb_eq in E. subst k0. now destruct (k =? k')%string.
  - rewrite IH. destruct (k0 =? k')%string eqn:E'; [|reflexivity].
    apply String.eqb_eq in E'. subst k0. now rewrite String.eqb_sym, E.
Qed.

Lemma own_counted (o : object) (k : string) :
  counted o -> own o k = None \/ exists z, own o k = Some (VNum z) /\ (1 <= z)%Z.
Proof.
  induction 1 as [|[k0 v0] o [z [Hz Hz1]] _ IH]; simpl; [now left|].
  destruct (k0 =? k)%string; [|exact IH]. right. simpl in Hz. subst. eauto.
Qed.

Lemma countIn_bump (o : object) (w k : string) :
  counted o -> w <> "constructor" ->
  countIn (set o w (bump o w)) k
  = (countIn o k + if (w =? k)%string then 1 else 0)%Z.
Proof.
  intros Ho Hw. unfold countIn. rewrite own_set.
  destruct (w =? k)%string eqn:E; [|lia].
  apply String.eqb_eq in E. subst k. unfold bump.
  destruct (own_counted w Ho) as [-> | [z [-> _]]].
  - destruct (w =? "constructor")%string eqn:Ec;
      [apply String.eqb_eq in Ec; contradiction|reflexivity].
  - reflexivity.
Qed.

Lemma fold_countIn (ex ws : list string) :
  ~ In "constructor" ws ->
  forall o k, counted o ->
    countIn (fold_left (count_phrase ex) ws o) k
    = (countIn o k + Z.of_nat (count_occ string_dec (filter (kept ex) ws) k))%Z.
Proof.
  induction ws as [|w ws IH]; intros Hno o k Ho; simpl; [lia|].
  assert (Hw : w <> "constructor") by (intros ->; apply Hno; now left).
  assert (Hws : ~ In "constructor" ws) by (intros H; apply Hno; now right).
  unfold count_phrase at 2. unfold kept at 1.
  destruct (Set_has ex w); simpl; [now apply IH|].
  destruct (bump_set_counted Hw Ho) as [Hc _].
  rewrite (IH Hws _ k Hc), (countIn_bump k Ho Hw).
  destruct (string_dec w k) as [->|Hne].
  - rewrite String.eqb_refl. lia.
  - apply String.eqb_neq in Hne. rewrite Hne. lia.
Qed.

Lemma In_own (o : object) (k : string) (v : jsval) :
  NoDup (keys o) -> In (k, v) o -> own o k = Some v.
Proof.
  induction o as [|[k0 v0] o IH]; simpl; [intros _ []|].
  intros Hnd [E|Hin].
  - inversion E; subst. now rewrite String.eqb_refl.
  - inversion Hnd as [|? ? Hnot Hnd']; subst.
    destruct (k0 =? k)%string eqn:E.
    + apply String.eqb_eq in E. subst k0. exfalso. apply Hnot.
      change k with (fst (k, v)). now apply in_map.
    + now apply IH.
Qed.

Lemma count_occ_filter (f : string -> bool) (l : list string) (k : string) :
  f k = true -> count_occ string_dec (filter f l) k = count_occ string_dec l k.
Proof.
  intros Hk. induction l as [|a l IH]; simpl; [reflexivity|].
  destruct (f a) eqn:E; simpl.
  - destruct (string_dec a k); now rewrite IH.
  - destruct (string_dec a k) as [->|_]; [congruence|exact IH].
Qed.

Lemma accumulate_keys_NoDup (ex ws : list string) : NoDup (keys (accumulate ex ws)).
Proof. rewrite accumulate_keys. apply firstSeen_fresh. Qed.

Lemma generateNgrams_exact_counts
    (eng excludedWords : list string) (txt : string) (n limit : Z) :
  ~ In "constructor" (windows (cleanWords eng txt) n) ->
  Forall (fun w =>
            value w
            = VNum (Z.of_nat (count_occ string_dec
                                (windows (cleanWords eng txt) n) (text w))))
         (generateNgrams eng excludedWords txt n limit).
Proof.
  intros Hno. apply Forall_forall. intros w Hw.
  destruct (generateNgrams_text_window _ _ _ _ _ _ Hw) as [_ Hex].
  apply generateNgrams_In in Hw.
  set (ws := windows (cleanWords eng txt) n) in *.
  destruct (@fold_counted excludedWords ws Hno [] (Forall_nil _)) as [Hc _].
  fold (accumulate excludedWords ws) in Hc.
  unfold entries in Hw. apply in_map_iff in Hw. destruct Hw as [[k v] [E Hin]].
  subst w. simpl in *.
  pose proof (@In_own _ k v (accumulate_keys_NoDup excludedWords ws) Hin) as Hown.
  pose proof (@fold_countIn excludedWords ws Hno [] k (Forall_nil _)) as Hcount.
  fold (accumulate excludedWords ws) in Hcount.
  unfold countIn in Hcount. rewrite Hown in Hcount. simpl in Hcount.
  unfold counted in Hc. rewrite Forall_forall in Hc.
  destruct (Hc _ Hin) as [z [Hz _]]. simpl in Hz. subst v.
  rewrite count_occ_filter in Hcount by (unfold kept; now rewrite Hex).
  now rewrite Hcount.
Qed.

(** X5.  When no window is the phrase constructor, the value of every
    returned entry is the number of windows that equal its text. *)
Theorem generateNgrams_counts_windows
    (eng excludedWords : list string) (txt : string) (n limit : Z) :
  ~ In "constructor" (windows (cleanWords eng txt) n) ->
  Forall (fun w =>
            value w
            = VNum (Z.of_nat (count_occ string_dec
                                (windows (cleanWords eng txt) n) (text w))))
         (generateNgrams eng excludedWords txt n limit).
Proof. apply generateNgrams_exact_counts. Qed.

Lemma generateNgrams_counts_windows_witness :
  ~ In "constructor" (windows (cleanWords eng_excerpt "gamma delta gamma") 1) /\
  Forall (fun w =>
            value w
            = VNum (Z.of_nat (count_occ string_dec
                                (windows (cleanWords eng_excerpt "gamma delta gamma") 1)
                                (text w))))
         (generateNgrams eng_excerpt [] "gamma delta gamma" 1 15).
Proof.
  assert (H : ~ In "constructor"
                (windows (cleanWords eng_excerpt "gamma delta gamma") 1)).
  { vm_compute. intros [H|[H|[H|[]]]]; discriminate. }
  split; [exact H|].
  apply (@generateNgrams_counts_windows eng_excerpt [] "gamma delta gamma" 1 15 H).
Defined.

Lemma insert_sorted (l : list Word) (a : Word) :
  (forall x, In x (a :: l) -> exists z, value x = VNum z) ->
  (forall x y, before x y l -> (count_value y <= count_value x)%Z) ->
  forall x y, before x y (insert byValueDesc a l) ->
              (count_value y <= count_value x)%Z.
Proof.
  induction l as [|b l IH]; intros Hnum Hs x y; simpl.
  - intros H. inversion H as [? Hy|? ? H']; subst; [destruct Hy|inversion H'].
  - assert (Hcmp : notAfter byValueDesc a b
                   = (count_value b - count_value a <=? 0)%Z).
    { destruct (Hnum a (or_introl eq_refl)) as [za Ha].
      destruct (Hnum b (or_intror (or_introl eq_refl))) as [zb Hb].
      unfold notAfter, byValueDesc, count_value. now rewrite Ha, Hb. }
    destruct (notAfter byValueDesc a b) eqn:E.
    + symmetry in Hcmp. apply Z.leb_le in Hcmp.
      intros H. inversion H as [? Hy|? ? H']; subst; [|now apply Hs].
      destruct Hy as [<-|Hy]; [lia|].
      assert (Hb : before b y (b :: l)) by now constructor.
      specialize (Hs _ _ Hb). lia.
    + symmetry in Hcmp. apply Z.leb_gt in Hcmp.
      intros H. inversion H as [? Hy|? ? H']; subst.
      * apply (Permutation_in _ (insert_perm byValueDesc a l)) in Hy.
        destruct Hy as [<-|Hy]; [lia|]. apply Hs. now constructor.
      * apply IH; try assumption.
        -- intros x0 [<-|Hx0]; apply Hnum; simpl; auto.
        -- intros x0 y0 Hb. apply Hs. now constructor 2.
Qed.

Lemma Array_sort_sorted (l : list Word) :
  (forall x, In x l -> exists z, value x = VNum z) ->
  forall x y, before x y (Array_sort byValueDesc l) ->
              (count_value y <= count_value x)%Z.
Proof.
  induction l as [|a l IH]; intros Hnum; simpl.
  - intros x y H. inversion H.
  - apply insert_sorted.
    + intros x [<-|Hx]; [apply Hnum; now left|].
      apply Array_sort_In in Hx. apply Hnum. now right.
    + apply IH. intros x Hx. apply Hnum. now right.
Qed.

(** X6.  When no window is the phrase constructor, the returned entries
    stand in the order of falling counts: no entry has a smaller count
    than one behind it. *)
Theorem generateNgrams_sorted_by_count
    (eng excludedWords : list string) (txt : string) (n limit : Z) :
  ~ In "constructor" (windows (cleanWords eng txt) n) ->
  forall x y,
    before x y (generateNgrams eng excludedWords txt n limit) ->
    (count_value y <= count_value x)%Z.
Proof.
  intros Hno x y H. unfold generateNgrams in H.
  rewrite Array_slice_0 in H. apply before_firstn in H.
  revert x y H. apply Array_sort_sorted.
  intros w Hw.
  set (ws := windows (cleanWords eng txt) n) in *.
  destruct (@fold_counted excludedWords ws Hno [] (Forall_nil _)) as [Hc _].
  fold (accumulate excludedWords ws) in Hc.
  unfold entries in Hw. apply in_map_iff in Hw. destruct Hw as [kv [<- Hin]].
  unfold counted in Hc. rewrite Forall_forall in Hc.
  destruct (Hc _ Hin) as [z [Hz _]]. eauto.
Qed.

Lemma generateNgrams_sorted_by_count_witness :
  ~ In "constructor" (windows (cleanWords eng_excerpt "delta gamma delta gamma gamma") 1) /\
  forall x y,
    before x y (generateNgrams eng_excerpt [] "delta gamma delta gamma gamma" 1 15) ->
    (count_value y <= count_value x)%Z.
Proof.
  assert (H : ~ In "constructor"
                (windows (cleanWords eng_excerpt "delta gamma delta gamma gamma") 1)).
  { vm_compute. intros [H|[H|[H|[H|[H|[]]]]]]; discriminate. }
  split; [exact H|].
  apply (@generateNgrams_sorted_by_count eng_excerpt []
           "delta gamma delta gamma gamma" 1 15 H).
Defined.
End CloudCounts.

(** ** WordCloudTab: the order of the result and the sort of the engine *)

Section CloudOrder.
Import JS WordCloudTab.

Lemma before_asym (A : Type) (x y : A) (l : list A) :
  NoDup l -> before x y l -> before y x l -> False.
Proof.
  intros Hnd H. induction H as [l Hy|z l H IH]; intros H'.
  - inversion Hnd as [|? ? Hnot Hnd']; subst.
    inversion H' as [? Hx|? ? H'']; subst.
    + contradiction.
    + apply Hnot. eapply before_In_r; eauto.
  - inversion Hnd as [|? ? Hnot Hnd']; subst.
    inversion H' as [? Hx|? ? H'']; subst.
    + apply Hnot. eapply before_In_r; eauto.
    + now apply IH.
Qed.

Lemma before_tail (A : Type) (a x y : A) (l : list A) :
  before x y l -> before x y (a :: l).
Proof. now constructor 2. Qed.

(** Two arrangements of the same distinct elements that both follow an
    asymmetric order are the same arrangement. *)
Lemma chain_unique (A : Type) (R : A -> A -> Prop) :
  (forall x y, R x y -> R y x -> False) ->
  forall l1 l2 : list A,
    NoDup l1 -> Permutation l1 l2 ->
    (forall x y, before x y l1 -> R x y) ->
    (forall x y, before x y l2 -> R x y) ->
    l1 = l2.
Proof.
  intros Hasym. induction l1 as [|a l1 IH]; intros l2 Hnd Hp H1 H2.
  - apply Permutation_nil in Hp. now subst.
  - destruct l2 as [|b l2].
    { symmetry in Hp. apply Permutation_nil in Hp. discriminate. }
    inversion Hnd as [|? ? Hnot Hnd']; subst.
    assert (E : a = b).
    { assert (Ha : In a (b :: l2)) by (eapply Permutation_in; [exact Hp|now left]).
      destruct Ha as [->|Ha]; [reflexivity|].
      assert (Hb : In b (a :: l1))
        by (eapply Permutation_in; [symmetry; exact Hp|now left]).
      destruct Hb as [->|Hb]; [reflexivity|].
      exfalso. apply (Hasym a b).
      - apply H1. now constructor.
      - apply H2. now constructor. }
    subst b. f_equal. apply IH.
    + exact Hnd'.
    + eapply Permutation_cons_inv; exact Hp.
    + intros x y H. apply H1. now constructor 2.
    + intros x y H. apply H2. now constructor 2.
Qed.

Lemma numeric_count (l : list Word) (x : Word) :
  numeric l -> In x l -> value x = VNum (count_value x).
Proof.
  intros Hn Hx. unfold numeric in Hn. rewrite Forall_forall in Hn.
  destruct (Hn x Hx) as [z Hz]. unfold count_value. now rewrite Hz.
Qed.

(** The insertion sort of the model is one of the sorts that conform. *)
Lemma Array_sort_conforms (l : list Word) : conforms (Array_sort byValueDesc) l.
Proof.
  split; [apply Array_sort_perm|].
  intros Hn x y H.
  assert (Hle : (count_value y <= count_value x)%Z).
  { revert x y H. apply Array_sort_sorted. intros w Hw.
    unfold numeric in Hn. rewrite Forall_forall in Hn. now apply Hn. }
  apply Array_sort_stable in H. destruct H as [H|[_ H]].
  - destruct (Z.eq_dec (count_value x) (count_value y)) as [E|E];
      [right; split; assumption|left; lia].
  - left. apply notAfter_byValueDesc_false in H.
    destruct H as [a [b [Ha [Hb Hlt]]]]. unfold count_value.
    now rewrite Ha, Hb.
Qed.

(** On entries with distinct texts and no NaN all conforming sorts
    agree. *)
Lemma conforms_unique (sort1 sort2 : list Word -> list Word) (l : list Word) :
  NoDup l -> numeric l ->
  conforms sort1 l -> conforms sort2 l -> sort1 l = sort2 l.
Proof.
  intros Hnd Hn [P1 S1] [P2 S2].
  apply (@chain_unique Word
           (fun x y => (count_value y < count_value x)%Z \/
                       (count_value x = count_value y /\ before x y l))).
  - intros x y [H1|[E1 B1]] [H2|[E2 B2]]; try lia.
    eapply before_asym; eauto.
  - eapply Permutation_NoDup; [symmetry; exact P1|exact Hnd].
  - rewrite P1. now symmetry.
  - now apply S1.
  - now apply S2.
Qed.

Lemma accumulate_ext (ex1 ex2 ws : list string) :
  (forall phrase, Set_has ex1 phrase = Set_has ex2 phrase) ->
  accumulate ex1 ws = accumulate ex2 ws.
Proof.
  intros Hex. unfold accumulate.
  apply fold_left_ext. intros o phrase. unfold count_phrase. now rewrite Hex.
Qed.

Lemma entries_NoDup (ex ws : list string) : NoDup (entries (accumulate ex ws)).
Proof.
  apply (NoDup_map_inv text). rewrite entries_text. apply accumulate_keys_NoDup.
Qed.

Lemma entries_numeric (ex ws : list string) :
  ~ In "constructor" ws -> numeric (entries (accumulate ex ws)).
Proof.
  intros Hno. destruct (@fold_counted ex ws Hno [] (Forall_nil _)) as [Hc _].
  fold (accumulate ex ws) in Hc. unfold numeric, entries.
  apply Forall_map. eapply Forall_impl; [|exact Hc].
  intros kv [z [Hz _]]. exists z. exact Hz.
Qed.

(** For a text none of whose windows is the phrase constructor the
    ordered result is fixed by the language: whatever sort the engine
    runs, as long as it returns a permutation that is sorted and stable
    when the comparator returns no NaN, and whichever way the excluded
    set was built, as long as it has the same elements, the result is
    the same sequence, the one that [generateNgrams] computes: falling
    counts, and phrases with equal counts in the order in which the loop
    first met them. *)
Lemma generateNgrams_order_unique
    (eng ex1 ex2 : list string) (txt : string) (n limit : Z)
    (sort1 sort2 : list Word -> list Word) :
  (forall phrase, Set_has ex1 phrase = Set_has ex2 phrase) ->
  ~ In "constructor" (windows (cleanWords eng txt) n) ->
  conforms sort1 (entries (accumulate ex1 (windows (cleanWords eng txt) n))) ->
  conforms sort2 (entries (accumulate ex2 (windows (cleanWords eng txt) n))) ->
  generateNgrams_by eng sort1 ex1 txt n limit
  = generateNgrams_by eng sort2 ex2 txt n limit /\
  generateNgrams_by eng sort1 ex1 txt n limit = generateNgrams eng ex1 txt n limit /\
  forall x y,
    before x y (generateNgrams eng ex1 txt n limit) ->
    (count_value y < count_value x)%Z \/
    (count_value x = count_value y /\
     before (text x) (text y) (discovered eng ex1 txt n)).
Proof.
  intros Hex Hno C1 C2.
  set (ws := windows (cleanWords eng txt) n) in *.
  rewrite <- (@accumulate_ext ex1 ex2 ws Hex) in C2.
  pose proof (entries_NoDup ex1 ws) as Hnd.
  pose proof (@entries_numeric ex1 ws Hno) as Hnum.
  assert (E1 : sort1 (entries (accumulate ex1 ws))
               = Array_sort byValueDesc (entries (accumulate ex1 ws)))
    by (apply conforms_unique; auto using Array_sort_conforms).
  assert (E2 : sort2 (entries (accumulate ex1 ws))
               = Array_sort byValueDesc (entries (accumulate ex1 ws)))
    by (apply conforms_unique; auto using Array_sort_conforms).
  unfold generateNgrams_by, generateNgrams. fold ws.
  rewrite <- (@accumulate_ext ex1 ex2 ws Hex), E1, E2.
  split; [reflexivity|]. split; [reflexivity|].
  intros x y H. rewrite Array_slice_0 in H. apply before_firstn in H.
  destruct (Array_sort_conforms (entries (accumulate ex1 ws))) as [_ HS].
  destruct (HS Hnum x y H) as [Hlt|[Heq Hb]]; [now left|right].
  split; [exact Heq|].
  apply (before_map text) in Hb.
  rewrite entries_text, accumulate_keys in Hb. exact Hb.
Qed.

(** The sort of V8 and the insertion sort on the same inputs. *)
Lemma generateNgrams_order_unique_example :
  (forall phrase,
     Set_has ["beta"; "gamma"] phrase = Set_has ["gamma"; "beta"; "gamma"] phrase) /\
  ~ In "constructor"
       (windows (cleanWords eng_excerpt "alpha delta beta alpha delta delta") 1) /\
  generateNgrams_by eng_excerpt (V8_sort_short byValueDesc) ["beta"; "gamma"]
                    "alpha delta beta alpha delta delta" 1 15
  = generateNgrams_by eng_excerpt (Array_sort byValueDesc) ["gamma"; "beta"; "gamma"]
                      "alpha delta beta alpha delta delta" 1 15.
Proof.
  assert (H : forall phrase,
            Set_has ["beta"; "gamma"] phrase
            = Set_has ["gamma"; "beta"; "gamma"] phrase).
  { intros phrase. unfold Set_has. simpl.
    destruct (phrase =? "beta")%string, (phrase =? "gamma")%string; reflexivity. }
  assert (Hno : ~ In "constructor"
                  (windows (cleanWords eng_excerpt
                              "alpha delta beta alpha delta delta") 1)).
  { vm_compute. intros [E|[E|[E|[E|[E|[E|[]]]]]]]; discriminate. }
  split; [exact H|]. split; [exact Hno|].
  apply (@generateNgrams_order_unique eng_excerpt ["beta"; "gamma"]
           ["gamma"; "beta"; "gamma"] "alpha delta beta alpha delta delta" 1 15
           (V8_sort_short byValueDesc) (Array_sort byValueDesc) H Hno).
  - split.
    + vm_compute. apply perm_swap.
    + intros _ x y Hb. vm_compute in Hb.
      inversion Hb as [? Hy|? ? Hb']; subst.
      * destruct Hy as [<-|[]]. left. vm_compute. reflexivity.
      * inversion Hb' as [? Hy|? ? Hb'']; subst; [destruct Hy|inversion Hb''].
  - apply Array_sort_conforms.
Qed.

End CloudOrder.

(** ** WordCloudTab: the three modes, colours, exclusion and saving *)

Section CloudModes.
Import JS WordCloudTab.

Lemma join_two_not_lower (a b : string) (l : list string) :
  allChars isLowerAZ (join " " (a :: b :: l)) = false.
Proof.
  change (join " " (a :: b :: l)) with (a ++ " " ++ join " " (b :: l)).
  rewrite !allChars_append. simpl. apply andb_false_r.
Qed.

Lemma includes_blank_mid (a r : string) :
  includes (a ++ String " " r) " " = true.
Proof.
  induction a as [|c a IH].
  - simpl. destruct r; reflexivity.
  - cbn [append includes]. rewrite IH. apply orb_true_r.
Qed.

Lemma join_two_blank (a b : string) (l : list string) :
  includes (join " " (a :: b :: l)) " " = true.
Proof.
  change (join " " (a :: b :: l)) with (a ++ String " " (join " " (b :: l))).
  apply includes_blank_mid.
Qed.

Lemma lower_no_blank (s : string) :
  allChars isLowerAZ s = true -> includes s " " = false.
Proof.
  induction s as [|c s IH]; [reflexivity|].
  cbn [allChars includes startsWith].
  rewrite andb_true_iff. intros [Hc Hs]. rewrite (IH Hs), orb_false_r.
  destruct (Ascii.eqb " " c) eqn:E; [|reflexivity].
  apply Ascii.eqb_eq in E. subst c. discriminate.
Qed.

Lemma isWindow_two (cw : list string) (k : nat) (phrase : string) :
  2 <= k -> isWindow cw k phrase ->
  allChars isLowerAZ phrase = false /\ includes phrase " " = true.
Proof.
  intros Hk [i [Hi ->]].
  assert (Hlen : List.length (firstn k (skipn i cw)) = k).
  { rewrite length_firstn, length_skipn. lia. }
  destruct (firstn k (skipn i cw)) as [|a [|b l]]; simpl in Hlen; try lia.
  split; [apply join_two_not_lower|apply join_two_blank].
Qed.

Lemma isWindow_one (eng : list string) (txt phrase : string) :
  isWindow (cleanWords eng txt) 1 phrase -> allChars isLowerAZ phrase = true.
Proof.
  intros [i [Hi ->]].
  assert (Hlen : List.length (firstn 1 (skipn i (cleanWords eng txt))) = 1).
  { rewrite length_firstn, length_skipn. lia. }
  destruct (firstn 1 (skipn i (cleanWords eng txt))) as [|a [|b l]] eqn:E;
    simpl in Hlen; try lia.
  simpl.
  assert (Ha : In a (cleanWords eng txt)).
  { eapply skipn_In, firstn_In. rewrite E. now left. }
  pose proof (cleanWords_lower eng txt) as H. rewrite Forall_forall in H. auto.
Qed.

Lemma windows_multi_not_constructor (cw : list string) (n : Z) :
  (2 <= n)%Z -> ~ In "constructor" (windows cw n).
Proof.
  intros Hn Hin. rewrite <- (Z2Nat.id n) in Hin by lia.
  apply windows_isWindow in Hin; [|lia].
  apply isWindow_two in Hin; [|lia]. destruct Hin as [H _]. discriminate.
Qed.

(** X7.  For a window size of at least 2 no phrase can be an inherited
    property name, so for every text the value of each entry is the
    number of windows that equal its text, which is at least 1. *)
Theorem generateNgrams_multi_counts
    (eng excludedWords : list string) (txt : string) (n limit : Z) :
  (2 <= n)%Z ->
  Forall (fun w =>
            value w
            = VNum (Z.of_nat (count_occ string_dec
                                (windows (cleanWords eng txt) n) (text w))) /\
            (1 <= count_value w)%Z)
         (generateNgrams eng excludedWords txt n limit).
Proof.
  intros Hn.
  pose proof (@generateNgrams_exact_counts eng excludedWords txt n limit
                (windows_multi_not_constructor _ Hn)) as H.
  rewrite Forall_forall in H |- *. intros w Hw. split; [now apply H|].
  unfold count_value. rewrite (H w Hw).
  apply generateNgrams_text_window in Hw. destruct Hw as [Hw _].
  apply (count_occ_In string_dec) in Hw. lia.
Qed.

Lemma generateNgrams_multi_counts_witness :
  (2 <= 2)%Z /\
  Forall (fun w =>
            value w
            = VNum (Z.of_nat (count_occ string_dec
                                (windows (cleanWords eng_excerpt
                                            "constructor pattern constructor pattern") 2)
                                (text w))) /\
            (1 <= count_value w)%Z)
         (generateNgrams eng_excerpt [] "constructor pattern constructor pattern" 2 15).
Proof.
  split; [lia|].
  apply (@generateNgrams_multi_counts eng_excerpt []
           "constructor pattern constructor pattern" 2 15).
  lia.
Defined.

Lemma NoDup_app_disjoint (A : Type) (l1 l2 : list A) :
  NoDup l1 -> NoDup l2 -> (forall x, In x l1 -> ~ In x l2) -> NoDup (l1 ++ l2).
Proof.
  induction 1 as [|a l1 Ha _ IH]; intros H2 Hd; simpl; [exact H2|].
  constructor.
  - intros Hin. apply in_app_or in Hin. destruct Hin as [Hin|Hin]; [now apply Ha|].
    apply (Hd a); [now left|exact Hin].
  - apply IH; [exact H2|]. intros x Hx. apply Hd. now right.
Qed.

Lemma unigram_lower (eng ex : list string) (txt : string) (limit : Z) (w : Word) :
  In w (generateNgrams eng ex txt 1 limit) -> allChars isLowerAZ (text w) = true.
Proof.
  intros Hw. apply generateNgrams_text_window in Hw. destruct Hw as [Hw _].
  change 1%Z with (Z.of_nat 1) in Hw.
  apply windows_isWindow in Hw; [|lia]. eapply isWindow_one; eauto.
Qed.

Lemma multigram_blank (eng ex : list string) (txt : string) (n limit : Z) (w : Word) :
  (2 <= n)%Z -> In w (generateNgrams eng ex txt n limit) ->
  allChars isLowerAZ (text w) = false /\ includes (text w) " " = true.
Proof.
  intros Hn Hw. apply generateNgrams_text_window in Hw. destruct Hw as [Hw _].
  rewrite <- (Z2Nat.id n) in Hw by lia.
  apply windows_isWindow in Hw; [|lia]. apply isWindow_two in Hw; [exact Hw|lia].
Qed.

Lemma processText_In (eng : list string) (cloudType : CloudType)
    (useTrigrams : bool) (ex : list string) (txt : string) (w : Word) :
  In w (processText eng cloudType useTrigrams ex txt) ->
  exists n, (1 <= n)%Z /\ In w (generateNgrams eng ex txt n 15).
Proof.
  unfold processText. intros Hw.
  destruct cloudType, useTrigrams;
    try (apply in_app_or in Hw; destruct Hw as [Hw|Hw]);
    (eexists; split; [|exact Hw]; lia).
Qed.

(** X2.  In every mode no phrase is listed twice by processText: the
    entries of one generateNgrams call are the keys of one object, and in
    the mode both the single words are lowercase letters only while every
    multi-word phrase holds a blank. *)
Theorem processText_texts_distinct (eng : list string) (cloudType : CloudType)
    (useTrigrams : bool) (excludedWords : list string) (txt : string) :
  NoDup (map text (processText eng cloudType useTrigrams excludedWords txt)).
Proof.
  assert (Hboth : forall n, (2 <= n)%Z ->
    NoDup (map text (generateNgrams eng excludedWords txt 1 15
                     ++ generateNgrams eng excludedWords txt n 15))).
  { intros n Hn. rewrite map_app. apply NoDup_app_disjoint;
      try apply generateNgrams_texts_distinct.
    intros x H1 H2. apply in_map_iff in H1. destruct H1 as [w1 [<- H1]].
    apply in_map_iff in H2. destruct H2 as [w2 [E H2]].
    apply unigram_lower in H1. apply multigram_blank in H2; [|exact Hn].
    destruct H2 as [H2 _]. rewrite E in H2. congruence. }
  unfold processText. destruct cloudType, useTrigrams;
    try apply generateNgrams_texts_distinct; apply Hboth; lia.
Qed.

(** X8.  With the words computed for the current excluded set, no shown
    word is drawn grey: every entry of the single-word list is drawn blue
    in the modes single and both, every entry of the multi-word list green
    in the modes multi and both, and the list of the mode both is the
    single-word list followed by the multi-word list. *)
Theorem fill_of_shown_word (eng : list string) (useTrigrams : bool)
    (excludedWords : list string) (txt : string) :
  Forall (fun w => fill excludedWords single w = blue /\
                   fill excludedWords both w = blue)
         (processText eng single useTrigrams excludedWords txt) /\
  Forall (fun w => fill excludedWords multi w = green /\
                   fill excludedWords both w = green)
         (processText eng multi useTrigrams excludedWords txt) /\
  processText eng both useTrigrams excludedWords txt
  = (processText eng single useTrigrams excludedWords txt
     ++ processText eng multi useTrigrams excludedWords txt)%list.
Proof.
  split; [|split; [|now destruct useTrigrams]];
    apply Forall_forall; intros w Hw.
  - unfold processText in Hw.
    pose proof (generateNgrams_text_window _ _ _ _ _ _ Hw) as [_ Hex].
    apply unigram_lower, lower_no_blank in Hw.
    unfold fill. now rewrite Hex, Hw.
  - assert (H : exists n, (2 <= n)%Z /\ In w (generateNgrams eng excludedWords txt n 15)).
    { unfold processText in Hw. destruct useTrigrams; [exists 3%Z|exists 2%Z];
        (split; [lia|exact Hw]). }
    destruct H as [n [Hn H]].
    pose proof (generateNgrams_text_window _ _ _ _ _ _ H) as [_ Hex].
    apply multigram_blank in H; [|exact Hn]. destruct H as [_ H].
    unfold fill. now rewrite Hex, H.
Qed.

(** *** Exclusion *)

Lemma Set_has_delete (x p : string) (s : list string) :
  Set_has (Set_delete x s) p = Set_has s p && negb (p =? x)%string.
Proof.
  unfold Set_has, Set_delete. induction s as [|a s IH]; simpl; [reflexivity|].
  destruct (x =? a)%string eqn:E; simpl.
  - apply String.eqb_eq in E. subst a. rewrite IH.
    destruct (p =? x)%string; simpl; [now rewrite andb_false_r|reflexivity].
  - rewrite IH. destruct (p =? a)%string eqn:E2; simpl; [|reflexivity].
    apply String.eqb_eq in E2. subst a. now rewrite String.eqb_sym, E.
Qed.

Lemma Set_has_add_any (x p : string) (s : list string) :
  Set_has (Set_add x s) p = Set_has s p || (p =? x)%string.
Proof.
  unfold Set_add. destruct (Set_has s x) eqn:E.
  - destruct (p =? x)%string eqn:E2; [|now rewrite orb_false_r].
    apply String.eqb_eq in E2. subst p. now rewrite E.
  - unfold Set_has. rewrite existsb_app. simpl. now rewrite orb_false_r.
Qed.

(** X9.  toggleWordExclusion changes the membership of the clicked word
    in the excluded set and of no other word, and a second click on the
    same word restores the membership of every word. *)
Theorem toggleWordExclusion_flips (word p : string) (excludedWords : list string) :
  Set_has (toggleWordExclusion word excludedWords) p
  = (if (p =? word)%string then negb (Set_has excludedWords p)
     else Set_has excludedWords p) /\
  Set_has (toggleWordExclusion word (toggleWordExclusion word excludedWords)) p
  = Set_has excludedWords p.
Proof.
  assert (H : forall s, Set_has (toggleWordExclusion word s) p
            = if (p =? word)%string then negb (Set_has s p) else Set_has s p).
  { intros s. unfold toggleWordExclusion. destruct (Set_has s word) eqn:E.
    - rewrite Set_has_delete. destruct (p =? word)%string eqn:E2; simpl.
      + apply String.eqb_eq in E2. subst p. now rewrite E.
      + apply andb_true_r.
    - rewrite Set_has_add_any. destruct (p =? word)%string eqn:E2; simpl.
      + apply String.eqb_eq in E2. subst p. rewrite E. reflexivity.
      + apply orb_false_r. }
  split; [apply H|]. rewrite H, H.
  destruct (p =? word)%string; [apply negb_involutive|reflexivity].
Qed.

Lemma handleSave_shown (eng : list string) (cloudType : CloudType)
    (useTrigrams : bool) (excludedWords : list string) (txt : string) :
  handleSave (processText eng cloudType useTrigrams excludedWords txt) excludedWords
  = map text (processText eng cloudType useTrigrams excludedWords txt).
Proof.
  unfold handleSave. f_equal. apply forallb_filter_id.
  apply forallb_forall. intros w Hw.
  destruct (processText_In _ _ _ _ _ _ Hw) as [n [_ H]].
  apply generateNgrams_text_window in H.
  destruct H as [_ H]. now rewrite H.
Qed.

(** X10.  handleSave hands over the texts of the shown words that are not
    excluded, in their order; with the words computed for the current
    excluded set it drops nothing and hands over the text of every shown
    word. *)
Theorem handleSave_of_shown_words (eng : list string) (cloudType : CloudType)
    (useTrigrams : bool) (excludedWords : list string) (txt : string) :
  handleSave (processText eng cloudType useTrigrams excludedWords txt) excludedWords
  = map text (processText eng cloudType useTrigrams excludedWords txt) /\
  forall words,
    Forall (fun t => Set_has excludedWords t = false /\ In t (map text words))
           (handleSave words excludedWords).
Proof.
  split; [apply handleSave_shown|].
  intros words. apply Forall_forall. intros t Ht. unfold handleSave in Ht.
  apply in_map_iff in Ht. destruct Ht as [w [<- Hw]].
  apply filter_In in Hw. destruct Hw as [Hw Hex].
  split; [now destruct (Set_has excludedWords (text w))|now apply in_map].
Qed.
End CloudModes.

(** ** ResumeTab: keywords without syntax characters *)

Section PlainKeywords.
Import JS Regex ResumeTab.

Lemma RegExp_word_plain (other : string -> completion regex) (w : string) :
  isPlain w = true -> RegExp_word other w = Normal (wordPattern w).
Proof. intros H. unfold RegExp_word. now rewrite H. Qed.

Lemma highlight_plain (other : string -> completion regex) (text : string)
    (all : list string) :
  forall words processed log,
    Forall (fun w => isPlain w = true) words ->
    incl words all ->
    exists processed' pushed,
      highlight other text words processed log
      = Normal (processed', (log ++ pushed)%list) /\
      Forall (fun c => type c = keyword /\
                       exists w, In w all /\ equalsIgnoreCase (original c) w)
             pushed.
Proof.
  induction words as [|w words IH]; intros processed log Hplain Hincl.
  - exists processed, []. rewrite app_nil_r. split; [reflexivity|constructor].
  - inversion Hplain as [|? ? Hw Hrest]; subst.
    cbn [highlight]. rewrite (RegExp_word_plain other _ Hw).
    destruct (replace_log (keyword_callback text) (fun l => l)
                (fun mr => toLowerCase (matched mr) = toLowerCase w)
                (fun c => type c = keyword /\
                          exists w0, In w0 all /\ equalsIgnoreCase (original c) w0))
      with (fl := gi) (r := wordPattern w) (s := processed) (st := log)
      as [p1 [E1 [Q1 _]]].
    + intros mr st Hm. eexists. split; [reflexivity|].
      split; [reflexivity|]. exists w. split; [apply Hincl; now left|exact Hm].
    + intros mr Hin. now apply matchAll_wordPattern in Hin.
    + destruct (replace (keyword_callback text) gi (wordPattern w) processed log)
        as [processed1 log1].
      simpl in E1. subst log1.
      destruct (IH processed1 (log ++ p1)%list Hrest) as [p' [p2 [E2 Q2]]].
      { intros x Hx. apply Hincl. now right. }
      exists p', (p1 ++ p2)%list. rewrite E2, app_assoc.
      split; [reflexivity|]. apply Forall_app. auto.
Qed.

Lemma highlight_other_irrelevant (other other' : string -> completion regex)
    (text : string) :
  forall words processed log,
    Forall (fun w => isPlain w = true) words ->
    highlight other text words processed log
    = highlight other' text words processed log.
Proof.
  induction words as [|w words IH]; intros processed log Hplain; [reflexivity|].
  inversion Hplain as [|? ? Hw Hrest]; subst.
  cbn [highlight]. rewrite !(RegExp_word_plain _ _ Hw).
  destruct (replace (keyword_callback text) gi (wordPattern w) processed log).
  now apply IH.
Qed.

Lemma processText_plain
    (sanitize : string -> string) (other : string -> completion regex)
    (selectedWords : list string) (text : string) :
  Forall (fun w => isPlain w = true) selectedWords ->
  exists st,
    processText sanitize other selectedWords text = Normal st /\
    Forall (fun c => type c = keyword /\
                     exists w, In w selectedWords /\ equalsIgnoreCase (original c) w)
           (changes st) /\
    forall other',
      processText sanitize other' selectedWords text = Normal st.
Proof.
  intros Hplain.
  destruct (@highlight_plain other text selectedWords selectedWords text []
              Hplain (incl_refl _)) as [p' [pushed [E Q]]].
  simpl in E.
  exists {| optimizedText := sanitize p'; changes := pushed |}.
  unfold processText. rewrite E. split; [reflexivity|]. split; [exact Q|].
  intros other'. now rewrite (highlight_other_irrelevant other' other), E.
Qed.



Lemma lowerOrBlank_plain (c : ascii) :
  WordCloudTab.isLowerOrBlank c = true -> negb (isSyntaxCharacter c) = true.
Proof.
  assert (H : forallb (fun c => implb (WordCloudTab.isLowerOrBlank c)
                                      (negb (isSyntaxCharacter c)))
                      all_ascii = true) by (vm_compute; reflexivity).
  rewrite forallb_forall in H. specialize (H c (all_ascii_complete c)).
  intros E. now rewrite E in H.
Qed.

Lemma shown_words_plain (eng : list string) (cloudType : WordCloudTab.CloudType)
    (useTrigrams : bool) (ex : list string) (txt : string) :
  Forall (fun w => isPlain w = true)
         (map WordCloudTab.text
              (WordCloudTab.processText eng cloudType useTrigrams ex txt)).
Proof.
  apply Forall_map, Forall_forall. intros w Hw.
  destruct (processText_In _ _ _ _ _ _ Hw) as [n [_ H]].
  apply generateNgrams_text_window in H. destruct H as [H _].
  pose proof (windows_alphabet eng txt n) as Ha. rewrite Forall_forall in Ha.
  unfold isPlain. eapply allChars_impl; [apply lowerOrBlank_plain|now apply Ha].
Qed.

(** X12.  The keywords that the word cloud saves never make the keyword
    pass of the resume tab throw: handleSaveWords stores them and opens
    the resume tab, they hold lowercase letters and blanks only, so each
    pattern is built, processText returns normally, and every recorded
    original equals a saved keyword up to case. *)
Theorem cloud_keywords_never_throw
    (eng : list string) (cloudType : WordCloudTab.CloudType) (useTrigrams : bool)
    (excludedWords : list string) (cloudText : string) (app : App.State)
    (sanitize : string -> string) (other : string -> completion regex)
    (document : string) :
  let saved :=
    WordCloudTab.handleSave
      (WordCloudTab.processText eng cloudType useTrigrams excludedWords cloudText)
      excludedWords in
  let keywords := App.selectedWords (App.handleSaveWords saved app) in
  App.activeTab (App.handleSaveWords saved app) = App.resume /\
  exists st,
    processText sanitize other keywords document = Normal st /\
    Forall (fun c => exists w, In w keywords /\ equalsIgnoreCase (original c) w)
           (changes st).
Proof.
  intros saved keywords. split; [reflexivity|].
  assert (Hplain : Forall (fun w => isPlain w = true) keywords).
  { unfold keywords, saved. simpl.
    rewrite (handleSave_shown eng cloudType useTrigrams excludedWords cloudText).
    apply shown_words_plain. }
  destruct (processText_plain sanitize other document Hplain)
    as [st [E [Q _]]].
  exists st. split; [exact E|].
  eapply Forall_impl; [|exact Q]. intros c [_ H]. exact H.
Qed.
End PlainKeywords.

(** ** ResumeTab: findPhraseMatches *)

Section PhraseMatches.
Import JS Regex ResumeTab.

(** With matches that are never empty the exec loop ends and collects
    what a global search finds. *)
Lemma execLoop_matchAll fl r :
  (forall p t i mr, exec_from fl r p t i = Some mr -> matched mr <> "") ->
  forall fuel p t i,
    String.length t < fuel ->
    execLoop fuel fl r p t i
    = Some (map matched (matchAll_from fuel fl r p t i)).
Proof.
  intros Hne. induction fuel as [|fuel IH]; intros p t i Hlen; [lia|].
  cbn [execLoop matchAll_from].
  destruct (exec_from fl r p t i) as [m|] eqn:E; [|reflexivity].
  pose proof (Hne _ _ _ _ E) as Hm.
  apply exec_from_match in E.
  destruct (match_from_split E) as [pre [Et _]].
  assert (Hl : String.length t
               = String.length pre + String.length (matched m)
                 + String.length (snd (after m))).
  { rewrite Et at 1. rewrite !length_append. lia. }
  destruct (matched m) as [|c0 m0] eqn:Em; [congruence|].
  simpl in Hl. rewrite IH by lia. cbn [map]. now rewrite Em.
Qed.

Lemma toLowerCase_empty (w : string) : toLowerCase w = "" -> w = "".
Proof. destruct w; [reflexivity|discriminate]. Qed.

Lemma wordPattern_nonempty (w : string) :
  w <> "" ->
  forall p t i mr,
    exec_from gi (wordPattern w) p t i = Some mr -> matched mr <> "".
Proof.
  intros Hw p t i mr E Hm. apply exec_from_match in E.
  destruct E as [pre [p0 [t0 [_ [_ [Hin Hc]]]]]].
  apply guard_seq_literal, ends_literal_gi in Hin.
  destruct Hin as [m [Et Hlow]].
  rewrite Et in Hc at 1. rewrite consumed_append in Hc.
  rewrite Hm in Hc. subst m. symmetry in Hlow.
  now apply toLowerCase_empty in Hlow.
Qed.

Lemma findPhraseMatches_matchAll
    (other : string -> completion regex) (text : string)
    (phrases : list string) (fuel : nat) :
  Forall (fun w => isPlain w = true /\ w <> "") phrases ->
  String.length text < fuel ->
  findPhraseMatches fuel other text phrases
  = Some (Normal (flat_map
                    (fun w => map matched (matchAll gi (wordPattern w) text))
                    phrases)).
Proof.
  intros Hall Hfuel. induction Hall as [|w rest [Hp Hw] _ IH]; [reflexivity|].
  cbn [findPhraseMatches flat_map].
  rewrite (RegExp_word_plain other _ Hp).
  rewrite (@execLoop_matchAll gi (wordPattern w) (wordPattern_nonempty Hw)) by exact Hfuel.
  rewrite IH, <- (matchAll_fuel gi (wordPattern w) text Hfuel). reflexivity.
Qed.

(** X14.  For phrases that are not empty and hold no syntax character,
    every exec loop of findPhraseMatches ends within as many turns as the
    text has code units plus one, and the function returns, phrase by
    phrase, the matched texts that a global search for the phrase between
    word boundaries finds. *)
Theorem findPhraseMatches_plain
    (other : string -> completion regex) (text : string)
    (phrases : list string) (fuel : nat) :
  Forall (fun w => isPlain w = true /\ w <> "") phrases ->
  String.length text < fuel ->
  findPhraseMatches fuel other text phrases
  = Some (Normal (flat_map
                    (fun w => map matched (matchAll gi (wordPattern w) text))
                    phrases)).
Proof. apply findPhraseMatches_matchAll. Qed.

Lemma findPhraseMatches_plain_witness :
  Forall (fun w => isPlain w = true /\ w <> "") ["sql"; "lead"] /\
  String.length "SQL lead, sql" < 14 /\
  findPhraseMatches 14 sample_other "SQL lead, sql" ["sql"; "lead"]
  = Some (Normal ["SQL"; "sql"; "lead"]).
Proof.
  assert (H : Forall (fun w => isPlain w = true /\ w <> "") ["sql"; "lead"])
    by (repeat constructor; discriminate).
  split; [exact H|]. split; [simpl; lia|].
  rewrite (@findPhraseMatches_plain sample_other "SQL lead, sql" ["sql"; "lead"] 14 H);
    [vm_compute; reflexivity|simpl; lia].
Defined.

Lemma run_callbacks_keyword (text : string) :
  forall ms log,
    map original (snd (run_callbacks (keyword_callback text) ms log))
    = (map original log ++ map matched ms)%list.
Proof.
  induction ms as [|m ms IH]; intros log; cbn [run_callbacks].
  - simpl. now rewrite app_nil_r.
  - unfold keyword_callback at 1.
    specialize (IH (log ++ [{| original := matched m; optimized := matched m;
                               type := keyword;
                               context := contextOf text (matched m) (index m) |}])%list).
    destruct (run_callbacks (keyword_callback text) ms _) as [reps st2].
    simpl in IH |- *. rewrite IH, map_app, <- app_assoc. reflexivity.
Qed.

(** X15.  For one keyword that is not empty and holds no syntax character,
    findPhraseMatches on a text returns exactly the originals of the
    Changes that processText records for that text, in the same order. *)
Theorem processText_single_keyword_log
    (sanitize : string -> string) (other : string -> completion regex)
    (w text : string) (fuel : nat) :
  isPlain w = true -> w <> "" -> String.length text < fuel ->
  exists st,
    processText sanitize other [w] text = Normal st /\
    findPhraseMatches fuel other text [w]
    = Some (Normal (map original (changes st))).
Proof.
  intros Hp Hw Hfuel.
  assert (Hall : Forall (fun w => isPlain w = true /\ w <> "") [w])
    by (constructor; [split; assumption|constructor]).
  rewrite (@findPhraseMatches_matchAll other text [w] fuel Hall Hfuel).
  unfold processText. cbn [highlight flat_map].
  rewrite (RegExp_word_plain other _ Hp). unfold replace.
  pose proof (run_callbacks_keyword text (matchAll gi (wordPattern w) text) [])
    as Hlog.
  destruct (run_callbacks (keyword_callback text)
              (matchAll gi (wordPattern w) text) []) as [reps st'].
  eexists. split; [reflexivity|]. simpl in Hlog |- *.
  now rewrite Hlog, app_nil_r.
Qed.

Lemma processText_single_keyword_log_witness :
  isPlain "sql" = true /\ "sql" <> "" /\ String.length "SQL and sql" < 12 /\
  exists st,
    processText sample_sanitize sample_other ["sql"] "SQL and sql" = Normal st /\
    findPhraseMatches 12 sample_other "SQL and sql" ["sql"]
    = Some (Normal (map original (changes st))).
Proof.
  split; [reflexivity|]. split; [discriminate|]. split; [simpl; lia|].
  apply (@processText_single_keyword_log sample_sanitize sample_other
           "sql" "SQL and sql" 12);
    [reflexivity|discriminate|simpl; lia].
Defined.

(** *** The empty phrase *)

Lemma ends_empty_word p t :
  ends gi (wordPattern "") p t = guard (atBoundary p t) p t.
Proof.
  unfold wordPattern. cbn [literal ends]. unfold guard.
  destruct (atBoundary p t) eqn:E; simpl; [|reflexivity].
  now rewrite E.
Qed.

Lemma consumed_self (t : string) : consumed t t = "".
Proof. unfold consumed. rewrite Nat.sub_diag. now destruct t. Qed.

Lemma exec_empty_word_at p t i :
  atBoundary p t = true ->
  exec_from gi (wordPattern "") p t i
  = Some {| index := i; matched := ""; after := (p, t) |}.
Proof.
  intros H. destruct t as [|c t']; cbn [exec_from];
    rewrite ends_empty_word, H; simpl guard; cbn iota;
    cbn [snd]; now rewrite consumed_self.
Qed.

Lemma execLoop_stuck p t :
  atBoundary p t = true ->
  forall fuel i, execLoop fuel gi (wordPattern "") p t i = None.
Proof.
  intros H. induction fuel as [|fuel IH]; intros i; [reflexivity|].
  cbn [execLoop]. rewrite (exec_empty_word_at _ _ i H). cbn [after fst snd index matched].
  now rewrite IH.
Qed.

Lemma exec_empty_word_boundary :
  forall t p i mr,
    exec_from gi (wordPattern "") p t i = Some mr ->
    atBoundary (fst (after mr)) (snd (after mr)) = true /\ matched mr = "".
Proof.
  induction t as [|c t IH]; intros p i mr; cbn [exec_from];
    rewrite ends_empty_word; unfold guard.
  - destruct (atBoundary p "") eqn:E; [|discriminate].
    intros [= <-]. simpl. split; [exact E|reflexivity].
  - destruct (atBoundary p (String c t)) eqn:E.
    + intros [= <-]. cbn [after fst snd matched]. split; [exact E|apply consumed_self].
    + apply IH.
Qed.

Lemma exec_empty_word_finds :
  forall t p i,
    wordBefore p = true \/ allChars (fun c => negb (isWordChar c)) t = false ->
    exec_from gi (wordPattern "") p t i <> None.
Proof.
  induction t as [|c t IH]; intros p i H; cbn [exec_from];
    rewrite ends_empty_word; unfold guard, atBoundary; cbn [wordAfter].
  - destruct H as [H|H]; [|discriminate]. now rewrite H.
  - destruct (wordBefore p) eqn:Ep, (isWordChar c) eqn:Ec; simpl;
      try discriminate; apply IH.
    + left. exact Ec.
    + right. destruct H as [H|H]; [discriminate|].
      cbn [allChars] in H. now rewrite Ec in H.
Qed.

(** X16.  With the empty phrase in front and a text that holds a word
    character, the exec loop of findPhraseMatches never ends: the pattern
    matches the empty string at the first word boundary, exec leaves
    lastIndex there, and the loop is still running after any number of
    turns. *)
Theorem findPhraseMatches_empty_phrase_loops
    (other : string -> completion regex) (text : string) (rest : list string) :
  allChars (fun c => negb (isWordChar c)) text = false ->
  forall fuel, findPhraseMatches fuel other text ("" :: rest) = None.
Proof.
  intros H fuel. cbn [findPhraseMatches].
  rewrite (@RegExp_word_plain other "" eq_refl).
  destruct fuel as [|fuel]; [reflexivity|]. cbn [execLoop].
  destruct (exec_from gi (wordPattern "") None text 0) as [m|] eqn:E.
  - destruct (exec_empty_word_boundary _ _ _ E) as [Hb _].
    now rewrite (execLoop_stuck _ _ Hb).
  - exfalso. revert E. apply exec_empty_word_finds. now right.
Qed.

Lemma findPhraseMatches_empty_phrase_loops_witness :
  allChars (fun c => negb (isWordChar c)) "- sql" = false /\
  findPhraseMatches 1000 sample_other "- sql" [""; "sql"] = None.
Proof.
  split; [reflexivity|].
  apply (@findPhraseMatches_empty_phrase_loops sample_other "- sql" ["sql"]).
  reflexivity.
Defined.

End PhraseMatches.

(** ** ResumeTab: the text of the Word export *)

Section WordExport.
Import JS Regex ResumeTab.

Lemma ends_tagRegex_open p t ps :
  In ps (ends noflags tagRegex p t) -> exists t', t = String "<" t'.
Proof.
  unfold tagRegex. cbn [seqs ends]. intros Hin.
  apply in_flat_map in Hin. destruct Hin as [mid [H1 _]].
  destruct (@step_atom_Char noflags "<" t mid H1) as [c [t' [Es Hc]]].
  unfold char_matches, noflags in Hc. cbn [ignoreCase] in Hc.
  apply Ascii.eqb_eq in Hc. subst c. eauto.
Qed.

Lemma substring_all (s : string) : substring 0 (String.length s) s = s.
Proof. induction s as [|c s IH]; simpl; congruence. Qed.

(** X17.  The tag removal of handleSaveToWord leaves a text without the
    code unit [<] as it is. *)
Theorem cleanText_without_tags (s : string) :
  allChars (fun c => negb (Ascii.eqb c "<")) s = true ->
  cleanText s = s.
Proof.
  intros H. unfold cleanText, replace, matchAll. cbn [matchAll_from].
  destruct (exec_from noflags tagRegex None s 0) as [m|] eqn:E.
  - exfalso. apply exec_from_match in E.
    destruct E as [pre [p0 [t0 [Es [_ [Hin _]]]]]].
    apply ends_tagRegex_open in Hin. destruct Hin as [t' ->].
    rewrite Es, allChars_append in H. simpl in H.
    now rewrite andb_false_r in H.
  - simpl. rewrite Nat.sub_0_r. apply substring_all.
Qed.

Lemma cleanText_without_tags_witness :
  allChars (fun c => negb (Ascii.eqb c "<")) "5 > 3, said Ann" = true /\
  cleanText "5 > 3, said Ann" = "5 > 3, said Ann".
Proof.
  split; [reflexivity|].
  apply (@cleanText_without_tags "5 > 3, said Ann"). reflexivity.
Defined.
End WordExport.

(** ** ResumeTab: the log after handleEnhance *)

Section EnhanceLog.
Import JS Regex ResumeTab.

Lemma table_replacements_differ :
  forallb (fun e : string * list string =>
             forallb (fun o => negb (String.eqb (toLowerCase o)
                                                (toLowerCase (fst e))))
                     (snd e))
          actionVerbReplacements = true.
Proof. vm_compute. reflexivity. Qed.

(** X18.  handleEnhance keeps the Changes it finds in front and appends
    first the Changes of the weak-verb pass, then those of the metric
    pass; a weak-verb Change never has an optimized text that equals its
    original, not even up to case, and a metric Change always has. *)
Theorem handleEnhance_log_shape
    (sanitize : string -> string) (random : nat -> random_number) (st : State) :
  exists enh met,
    changes (handleEnhance sanitize random st) = (changes st ++ enh ++ met)%list /\
    Forall (fun c => type c = enhancement /\
                     ~ equalsIgnoreCase (optimized c) (original c)) enh /\
    Forall (fun c => type c = metric /\ optimized c = original c) met.
Proof.
  destruct (handleEnhance_log sanitize random st) as [enh [met [E [Qe Qm]]]].
  exists enh, met. split; [exact E|]. split.
  - eapply Forall_impl; [|exact Qe].
    intros c [Ht [weak [strong [Hin [Ho Heq]]]]]. split; [exact Ht|].
    intros Hsame. unfold equalsIgnoreCase in *.
    pose proof table_replacements_differ as Htab.
    rewrite forallb_forall in Htab. specialize (Htab _ Hin). simpl in Htab.
    rewrite forallb_forall in Htab. specialize (Htab _ Ho).
    rewrite Hsame, Heq, String.eqb_refl in Htab. discriminate.
  - eapply Forall_impl; [|exact Qm]. intros c [Ht [Ho _]]. auto.
Qed.
End EnhanceLog.

(** ** ATSChecker: the range of the scores *)

Section ScoreRange.
Import JS Regex ATSChecker.

Lemma Qred_inject_Z (z : Z) : Qred (inject_Z z) = inject_Z z.
Proof.
  unfold Qred, inject_Z.
  pose proof (Z.ggcd_gcd z 1) as Hg.
  pose proof (Z.ggcd_correct_divisors z 1) as Hd.
  destruct (Z.ggcd z 1) as [g [aa bb]]. simpl in Hg, Hd.
  rewrite Z.gcd_1_r in Hg. subst g. destruct Hd as [Ha Hb].
  rewrite Z.mul_1_l in Ha, Hb. now subst aa bb.
Qed.

Lemma ofNat_Num (n : nat) : ofNat n = Num (inject_Z (Z.of_nat n)).
Proof. unfold ofNat. now rewrite Qred_inject_Z. Qed.

Lemma percentage_Num (k n : nat) :
  0 < n ->
  exists q, percentage k n = Num q /\
            (q == (inject_Z (Z.of_nat k) / inject_Z (Z.of_nat n)) * 100)%Q.
Proof.
  intros Hn. unfold percentage. rewrite !ofNat_Num. unfold div.
  assert (Hz : isZero (inject_Z (Z.of_nat n)) = false).
  { unfold isZero. simpl. apply Z.eqb_neq. lia. }
  rewrite Hz. unfold mul. eexists. split; [reflexivity|].
  now rewrite !Qred_correct.
Qed.

Lemma percentage_inRange (k n : nat) :
  0 < n -> k <= n -> inRange (percentage k n).
Proof.
  intros Hn Hk. destruct (percentage_Num k Hn) as [q [E Hq]].
  exists q. split; [exact E|]. rewrite Hq.
  assert (Hn' : (0 < inject_Z (Z.of_nat n))%Q) by (rewrite <- (Zlt_Qlt 0); lia).
  assert (H0 : (0 <= inject_Z (Z.of_nat k))%Q) by (rewrite <- (Zle_Qle 0); lia).
  assert (H1 : (inject_Z (Z.of_nat k) <= inject_Z (Z.of_nat n))%Q)
    by (rewrite <- Zle_Qle; lia).
  split.
  - apply Qmult_le_0_compat; [|discriminate].
    apply Qle_shift_div_l; [exact Hn'|]. now rewrite Qmult_0_l.
  - rewrite <- (Qmult_1_l 100) at 2. apply Qmult_le_compat_r; [|discriminate].
    apply Qle_shift_div_r; [exact Hn'|]. now rewrite Qmult_1_l.
Qed.

Lemma mean4_inRange (a b c d : number) :
  inRange a -> inRange b -> inRange c -> inRange d -> inRange (mean4 a b c d).
Proof.
  intros [qa [-> [La Ha]]] [qb [-> [Lb Hb]]] [qc [-> [Lc Hc]]] [qd [-> [Ld Hd]]].
  unfold mean4. cbn [add]. rewrite ofNat_Num.
  unfold div. change (isZero (inject_Z (Z.of_nat 4))) with false. cbn iota.
  eexists. split; [reflexivity|].
  rewrite !Qred_correct.
  assert (H4 : (0 < inject_Z (Z.of_nat 4))%Q) by reflexivity.
  split.
  - apply Qle_shift_div_l; [exact H4|]. rewrite Qmult_0_l.
    change 0%Q with (0 + 0 + 0 + 0)%Q.
    repeat apply Qplus_le_compat; assumption.
  - apply Qle_shift_div_r; [exact H4|].
    change (100 * inject_Z (Z.of_nat 4))%Q with (400 # 1)%Q.
    change (400 # 1)%Q with (100 + 100 + 100 + 100)%Q.
    repeat apply Qplus_le_compat; assumption.
Qed.

(** X19.  With at least one keyword every score that handleFileUpload
    stores (keyword match, readability, formatting, certifications and
    overall) is a finite number between 0 and 100. *)
Theorem atsScore_in_range (selectedWords : list string) (text : string) :
  selectedWords <> [] ->
  let score := atsScore (handleFileUpload selectedWords text) in
  inRange (keywordMatch score) /\ inRange (readability score) /\
  inRange (formatting score) /\ inRange (certifications score) /\
  inRange (overall score).
Proof.
  intros Hne score.
  assert (Hk : inRange (keywordScore (analyzeKeywords selectedWords text))).
  { rewrite analyzeKeywords_score. apply percentage_inRange.
    - destruct selectedWords; [congruence|simpl; lia].
    - apply filter_length_le. }
  assert (Hr : inRange (snd (analyzeReadability text))).
  { unfold analyzeReadability. cbn [snd]. apply percentage_inRange.
    - rewrite length_map. simpl. lia.
    - apply filter_length_le. }
  assert (Hf : inRange (calculateFormattingScore text)).
  { unfold calculateFormattingScore. apply percentage_inRange.
    - simpl. lia.
    - apply filter_length_le. }
  assert (Hc : inRange (snd (analyzeCertifications text))).
  { unfold analyzeCertifications. cbn [snd]. apply percentage_inRange.
    - rewrite length_map. simpl. lia.
    - apply filter_length_le. }
  repeat split; try assumption.
  exact (mean4_inRange Hk Hr Hf Hc).
Qed.

Lemma atsScore_in_range_witness :
  ["java"] <> [] /\
  inRange (overall (atsScore (handleFileUpload ["java"] "Java and AWS"))).
Proof.
  split; [discriminate|].
  apply (@atsScore_in_range ["java"] "Java and AWS"). discriminate.
Defined.
End ScoreRange.

(** ** ATSChecker: the formatting checks *)

Section Formatting.
Import JS Regex ATSChecker.

Lemma percentage_full (k n : nat) :
  0 < n -> k <= n -> percentage k n = ofNat 100 -> k = n.
Proof.
  intros Hn Hk E. destruct (percentage_Num k Hn) as [q [Eq Hq]].
  rewrite E, ofNat_Num in Eq. injection Eq as <-.
  assert (Hn' : ~ (inject_Z (Z.of_nat n) == 0)%Q).
  { intros H. unfold Qeq in H. simpl in H. lia. }
  assert (H : (inject_Z (Z.of_nat k) == inject_Z (Z.of_nat n))%Q).
  { assert (H1 : (inject_Z (Z.of_nat k) / inject_Z (Z.of_nat n) == 1)%Q).
    { apply (Qmult_inj_r _ _ 100); [discriminate|].
      rewrite <- Hq. reflexivity. }
    rewrite <- (Qmult_1_l (inject_Z (Z.of_nat n))), <- H1.
    symmetry. rewrite Qmult_comm. apply Qmult_div_r. exact Hn'. }
  unfold Qeq in H. simpl in H. lia.
Qed.

Lemma exec_from_Bol_later (r : regex) :
  forall t c i, exec_from noflags (Seq Bol r) (Some c) t i = None.
Proof.
  induction t as [|c' t IH]; intros c i; cbn [exec_from ends atBol guard];
    simpl; [reflexivity|apply IH].
Qed.

(** [/^[..-]/.test(text)] looks at the first code unit only. *)
Lemma test_Bol_bullet (text : string) :
  test noflags (Seq Bol bullet) text = true ->
  exists c rest, text = String c rest /\ (c = chr 183 \/ c = "-"%char).
Proof.
  unfold test. destruct text as [|c rest]; [discriminate|].
  cbn [exec_from ends atBol guard flat_map fst snd step_atom atom_accepts bullet].
  unfold class_has. cbn [existsb item_has xorb].
  destruct (Ascii.eqb (chr 183) c) eqn:E1.
  - intros _. apply Ascii.eqb_eq in E1. eauto.
  - destruct (Ascii.eqb "-" c) eqn:E2.
    + intros _. apply Ascii.eqb_eq in E2. eauto.
    + simpl. now rewrite exec_from_Bol_later.
Qed.

Lemma exec_nonASCII_none :
  forall t p i,
    exec_from noflags (Class true [CRange (chr 0) (chr 127)]) p t i = None ->
    allChars (fun c => code c <=? 127) t = true.
Proof.
  induction t as [|c t IH]; intros p i; [reflexivity|].
  cbn [exec_from ends step_atom atom_accepts allChars].
  unfold class_has. cbn [existsb item_has].
  change (code (chr 127)) with 127. change (code (chr 0)) with 0.
  destruct (code c <=? 127); [|rewrite andb_false_r; simpl; discriminate].
  replace (0 <=? code c) with true by (symmetry; apply Nat.leb_le; lia).
  simpl. apply IH.
Qed.

Lemma test_nonASCII (text : string) :
  test noflags (Class true [CRange (chr 0) (chr 127)]) text = false ->
  allChars (fun c => code c <=? 127) text = true.
Proof.
  unfold test.
  destruct (exec_from noflags (Class true [CRange (chr 0) (chr 127)]) None text 0)
    eqn:E; [discriminate|].
  intros _. exact (exec_nonASCII_none _ _ _ E).
Qed.

(** X20.  The formatting score is 100 only for a text that starts with a
    hyphen, has more than 300 code units, holds an empty line and only
    code units up to 127: a middle dot in front passes the bullet check
    but fails the check for special characters. *)
Theorem calculateFormattingScore_full (text : string) :
  calculateFormattingScore text = ofNat 100 ->
  (exists rest, text = String "-" rest) /\
  300 < String.length text /\
  includes text (String LF (String LF "")) = true /\
  allChars (fun c => code c <=? 127) text = true.
Proof.
  unfold calculateFormattingScore. intros E.
  apply percentage_full in E; [|simpl; lia|apply filter_length_le].
  set (c1 := includes text _) in E.
  set (c2 := test noflags (seqs _) text) in E.
  destruct (test noflags (Seq Bol bullet) text) eqn:E3;
    [|exfalso; revert E; destruct c1, c2, (300 <? String.length text),
        (negb (test noflags (Class true [CRange (chr 0) (chr 127)]) text));
      simpl; discriminate].
  destruct (300 <? String.length text) eqn:E4;
    [|exfalso; revert E; destruct c1, c2,
        (negb (test noflags (Class true [CRange (chr 0) (chr 127)]) text));
      simpl; discriminate].
  destruct (test noflags (Class true [CRange (chr 0) (chr 127)]) text) eqn:E5;
    [exfalso; revert E; destruct c1, c2; simpl; discriminate|].
  destruct c1 eqn:E1; [|exfalso; revert E; destruct c2; simpl; discriminate].
  clear E. apply test_Bol_bullet in E3. destruct E3 as [c [rest [-> Hc]]].
  repeat split.
  - pose proof (test_nonASCII _ E5) as H127. cbn [allChars] in H127.
    destruct Hc as [-> | ->]; [vm_compute in H127; discriminate|eauto].
  - now apply Nat.ltb_lt.
  - exact E1.
  - now apply test_nonASCII.
Qed.

Lemma calculateFormattingScore_full_witness :
  calculateFormattingScore sample_formatted = ofNat 100 /\
  300 < String.length sample_formatted.
Proof.
  assert (E : calculateFormattingScore sample_formatted = ofNat 100)
    by (vm_compute; reflexivity).
  split; [exact E|].
  exact (proj1 (proj2 (@calculateFormattingScore_full sample_formatted E))).
Defined.
End Formatting.

(** ** ATSChecker: certifications *)

Section Certifications.
Import JS Regex ATSChecker.

Lemma canonicalize_lower (a : ascii) : canonicalize (toLowerChar a) = canonicalize a.
Proof.
  assert (H : forallb (fun a => Ascii.eqb (canonicalize (toLowerChar a))
                                          (canonicalize a))
                      all_ascii = true) by (vm_compute; reflexivity).
  rewrite forallb_forall in H. apply Ascii.eqb_eq, H, all_ascii_complete.
Qed.

Lemma char_matches_i (a c : ascii) :
  char_matches fl_i a c = Ascii.eqb (toLowerChar a) (toLowerChar c).
Proof.
  unfold char_matches, fl_i. cbn [ignoreCase].
  destruct (Ascii.eqb (toLowerChar a) (toLowerChar c)) eqn:E.
  - apply Ascii.eqb_eq in E. apply Ascii.eqb_eq.
    now rewrite <- (canonicalize_lower a), E, canonicalize_lower.
  - apply Ascii.eqb_neq. intros H. apply canonicalize_toLowerChar in H.
    apply Ascii.eqb_neq in E. contradiction.
Qed.

Lemma ends_literal_i (w : string) :
  forall p t,
    found_end (ends fl_i (literal w) p t)
    = startsWith (toLowerCase w) (toLowerCase t).
Proof.
  induction w as [|a w IH]; intros p t; cbn [literal ends]; [reflexivity|].
  destruct t as [|c t]; [reflexivity|].
  cbn [step_atom atom_accepts toLowerCase startsWith].
  rewrite char_matches_i.
  destruct (Ascii.eqb (toLowerChar a) (toLowerChar c)); [|reflexivity].
  cbn [flat_map fst snd]. rewrite app_nil_r. apply IH.
Qed.

Lemma exec_found (fl : flags) (r : regex) (p : option ascii) (t : string) (i : nat) :
  found_match (exec_from fl r p t i)
  = found_end (ends fl r p t)
    || match t with
       | EmptyString => false
       | String c t' => found_match (exec_from fl r (Some c) t' (S i))
       end.
Proof.
  destruct t as [|c t]; cbn [exec_from];
    destruct (ends fl r p _); reflexivity.
Qed.

Lemma exec_alt_literals (a b : string) :
  forall t p i,
    found_match (exec_from fl_i (Alt (literal a) (literal b)) p t i)
    = includes (toLowerCase t) (toLowerCase a)
      || includes (toLowerCase t) (toLowerCase b).
Proof.
  assert (Hends : forall p t,
            found_end (ends fl_i (Alt (literal a) (literal b)) p t)
            = startsWith (toLowerCase a) (toLowerCase t)
              || startsWith (toLowerCase b) (toLowerCase t)).
  { intros p t. cbn [ends]. rewrite <- !ends_literal_i with (p := p).
    destruct (ends fl_i (literal a) p t); [reflexivity|reflexivity]. }
  induction t as [|c t IH]; intros p i; rewrite exec_found, Hends.
  - cbn [toLowerCase includes]. now rewrite !orb_false_r.
  - rewrite IH. cbn [toLowerCase includes].
    destruct (startsWith (toLowerCase a) _), (startsWith (toLowerCase b) _),
      (includes (toLowerCase t) (toLowerCase a)),
      (includes (toLowerCase t) (toLowerCase b)); reflexivity.
Qed.

(** X21.  analyzeCertifications finds a certification exactly when the
    lowercased text contains its lowercased abbreviation or its lowercased
    full name as a substring, at any place, inside a longer word as
    well. *)
Theorem analyzeCertifications_by_substring (text : string) :
  let has := includes (toLowerCase text) in
  map (fun c => (cert_name c, cert_found c)) (fst (analyzeCertifications text))
  = [ ("PMP", has "pmp" || has "project management professional");
      ("AWS", has "aws" || has "amazon web services");
      ("CISSP", has "cissp"
                || has "certified information systems security professional") ].
Proof.
  intros has. unfold analyzeCertifications, requiredCerts.
  cbn [fst snd map cert_name cert_found]. unfold test.
  repeat match goal with
  | |- context [exec_from fl_i (Alt (literal ?a) (literal ?b)) None text 0] =>
      change (match exec_from fl_i (Alt (literal a) (literal b)) None text 0 with
              | Some _ => true | None => false end)
        with (found_match (exec_from fl_i (Alt (literal a) (literal b)) None text 0));
      rewrite (exec_alt_literals a b text None 0)
  end.
  reflexivity.
Qed.
End Certifications.

(** ** ATSChecker: keywords with white space *)

Section MultiWordKeywords.
Import JS Regex ATSChecker.

Lemma toLowerChar_space (c : ascii) :
  isWhiteSpace (toLowerChar c) = isWhiteSpace c.
Proof.
  assert (H : forallb (fun c => Bool.eqb (isWhiteSpace (toLowerChar c))
                                         (isWhiteSpace c))
                      all_ascii = true) by (vm_compute; reflexivity).
  rewrite forallb_forall in H. apply Bool.eqb_prop, H, all_ascii_complete.
Qed.

Lemma toLowerCase_no_space (w : string) :
  allChars (fun c => negb (isWhiteSpace c)) (toLowerCase w)
  = allChars (fun c => negb (isWhiteSpace c)) w.
Proof.
  induction w as [|c w IH]; [reflexivity|].
  cbn [toLowerCase allChars]. now rewrite toLowerChar_space, IH.
Qed.

Lemma allChars_always (s : string) : allChars (fun _ => true) s = true.
Proof. induction s as [|c s IH]; [reflexivity|exact IH]. Qed.

Lemma occurrences_with_space (text w : string) :
  allChars (fun c => negb (isWhiteSpace c)) w = false ->
  occurrences text w = 0.
Proof.
  intros Hw. unfold occurrences.
  destruct (filter (fun w0 => (w0 =? toLowerCase w)%string)
                   (split_ws (toLowerCase text))) as [|x l] eqn:E; [reflexivity|].
  exfalso.
  assert (Hx : In x (filter (fun w0 => (w0 =? toLowerCase w)%string)
                            (split_ws (toLowerCase text))))
    by (rewrite E; now left).
  apply filter_In in Hx. destruct Hx as [Hin Hx].
  apply String.eqb_eq in Hx. subst x.
  pose proof (@split_ws_chars (fun _ => true) (toLowerCase text)
                (allChars_always _)) as Hs.
  rewrite Forall_forall in Hs. specialize (Hs _ Hin). cbn [andb] in Hs.
  rewrite toLowerCase_no_space in Hs. congruence.
Qed.

Lemma includes_blank_space (w : string) :
  includes w " " = true -> allChars (fun c => negb (isWhiteSpace c)) w = false.
Proof.
  induction w as [|c w IH]; [discriminate|].
  cbn [includes startsWith allChars].
  destruct (Ascii.eqb " " c) eqn:E.
  - apply Ascii.eqb_eq in E. subst c. reflexivity.
  - simpl. intros H. rewrite (IH H). apply andb_false_r.
Qed.

Lemma percentage_none (n : nat) : 0 < n -> percentage 0 n = ofNat 0.
Proof.
  intros Hn. unfold percentage. rewrite !ofNat_Num. unfold div.
  assert (Hz : isZero (inject_Z (Z.of_nat n)) = false).
  { unfold isZero. simpl. apply Z.eqb_neq. lia. }
  rewrite Hz. change (isZero (inject_Z (Z.of_nat 0))) with true.
  replace (Qred (inject_Z (Z.of_nat 0) / inject_Z (Z.of_nat n))) with 0%Q;
    [reflexivity|].
  symmetry. change 0%Q with (Qred 0). apply Qred_complete.
  unfold Qdiv. now rewrite Qmult_0_l.
Qed.

Lemma keywords_with_space (selectedWords : list string) (text : string) :
  Forall (fun w => allChars (fun c => negb (isWhiteSpace c)) w = false)
         selectedWords ->
  matches (analyzeKeywords selectedWords text) = [] /\
  keywordScore (analyzeKeywords selectedWords text)
  = match selectedWords with [] => NaN | _ :: _ => ofNat 0 end.
Proof.
  intros Hall.
  assert (Hf : filter (occursAsWord text) selectedWords = []).
  { induction Hall as [|w l Hw _ IH]; [reflexivity|].
    cbn [filter]. unfold occursAsWord at 1.
    now rewrite (occurrences_with_space text _ Hw). }
  rewrite analyzeKeywords_matches, analyzeKeywords_score, Hf.
  split; [reflexivity|].
  destruct selectedWords as [|w l]; [reflexivity|].
  apply percentage_none. simpl. lia.
Qed.

(** X22.  A keyword that holds a white-space code unit has no occurrence
    for analyzeKeywords in any text and is never in the matched list: the
    text is split at white space before the comparison. *)
Theorem analyzeKeywords_phrase_never_matched
    (selectedWords : list string) (text w : string) :
  allChars (fun c => negb (isWhiteSpace c)) w = false ->
  occurrences text w = 0 /\
  ~ In w (map word (matches (analyzeKeywords selectedWords text))).
Proof.
  intros Hw. pose proof (occurrences_with_space text _ Hw) as H0.
  split; [exact H0|].
  rewrite analyzeKeywords_matches, map_map. cbn [word]. rewrite map_id.
  intros Hin. apply filter_In in Hin. destruct Hin as [_ Hin].
  unfold occursAsWord in Hin. rewrite H0 in Hin. discriminate.
Qed.

Lemma analyzeKeywords_phrase_never_matched_witness :
  allChars (fun c => negb (isWhiteSpace c)) "project management" = false /\
  occurrences "Project management and project management" "project management" = 0.
Proof.
  split; [reflexivity|].
  apply (@analyzeKeywords_phrase_never_matched ["project management"]
           "Project management and project management" "project management").
  reflexivity.
Defined.

(** X23.  With the keywords saved from a word cloud in the mode multi the
    ATS checker matches nothing, whatever the resume says: the matched
    list is empty and the keyword score is 0 (NaN when no keyword was
    saved). *)
Theorem cloud_phrases_score_zero
    (eng : list string) (useTrigrams : bool) (excludedWords : list string)
    (cloudText : string) (app : App.State) (resume : string) :
  let saved :=
    WordCloudTab.handleSave
      (WordCloudTab.processText eng WordCloudTab.multi useTrigrams excludedWords
                                cloudText)
      excludedWords in
  let keywords := App.selectedWords (App.handleSaveWords saved app) in
  let st := handleFileUpload keywords resume in
  keywordMatches st = [] /\
  keywordMatch (atsScore st)
  = match keywords with [] => NaN | _ :: _ => ofNat 0 end.
Proof.
  intros saved keywords st.
  apply keywords_with_space.
  unfold keywords, saved. cbn [App.handleSaveWords App.selectedWords].
  rewrite (handleSave_shown eng WordCloudTab.multi useTrigrams excludedWords
             cloudText).
  apply Forall_map, Forall_forall. intros w Hw.
  apply includes_blank_space.
  assert (H : exists n, (2 <= n)%Z /\
                        In w (WordCloudTab.generateNgrams eng excludedWords
                                cloudText n 15)).
  { unfold WordCloudTab.processText in Hw.
    destruct useTrigrams; [exists 3%Z|exists 2%Z]; split; try lia; exact Hw. }
  destruct H as [n [Hn H]]. apply multigram_blank in H; [|exact Hn]. apply H.
Qed.
End MultiWordKeywords.

(** ** ResumeTab: where a keyword is found *)

Section WholeWords.
Import JS Regex ResumeTab.

Lemma toLowerCase_cons (m w : string) (a : ascii) :
  toLowerCase m = toLowerCase (String a w) ->
  exists c m', m = String c m' /\ toLowerChar c = toLowerChar a /\
               toLowerCase m' = toLowerCase w.
Proof.
  destruct m as [|c m']; [discriminate|]. simpl. intros [= H1 H2]. eauto.
Qed.

Lemma ends_literal_exact (w : string) :
  forall m p rest,
    toLowerCase m = toLowerCase w ->
    ends gi (literal w) p (m ++ rest) = [(lastOr p m, rest)].
Proof.
  induction w as [|a w IH]; intros m p rest H.
  - apply toLowerCase_empty in H. now subst m.
  - apply toLowerCase_cons in H. destruct H as [c [m' [-> [Hc Hm]]]].
    cbn [literal ends append step_atom atom_accepts].
    change (char_matches gi a c) with (char_matches fl_i a c).
    rewrite char_matches_i, <- Hc, Ascii.eqb_refl.
    cbn [flat_map fst snd lastOr]. rewrite app_nil_r. now apply IH.
Qed.



(** exec finds a match wherever one starts. *)
Lemma exec_from_complete fl r :
  forall pre p t0 i,
    ends fl r (lastOr p pre) t0 <> [] ->
    exec_from fl r p (pre ++ t0) i <> None.
Proof.
  induction pre as [|c pre IH]; intros p t0 i H.
  - cbn [append lastOr] in *. destruct t0; cbn [exec_from];
      destruct (ends fl r p _); congruence.
  - cbn [append exec_from]. destruct (ends fl r p _); [|discriminate].
    apply IH. exact H.
Qed.




End WholeWords.

(** ** ATSChecker: the overall score and the font analysis *)

Section OverallScore.
Import JS Regex ATSChecker.

Lemma space_accepts (c : ascii) : atom_accepts fl_i space c = isWhiteSpace c.
Proof.
  assert (H : forallb (fun c => Bool.eqb (atom_accepts fl_i space c) (isWhiteSpace c))
                      all_ascii = true) by (vm_compute; reflexivity).
  rewrite forallb_forall in H. apply Bool.eqb_prop, H, all_ascii_complete.
Qed.

(** The greedy star can stop behind any stretch of white space. *)
Lemma repeat_space_reach :
  forall ws fuel p rest,
    String.length (ws ++ rest) < fuel ->
    allChars isWhiteSpace ws = true ->
    In (lastOr p ws, rest)
       (repeat_ends (ends fl_i space) true fuel 0 None p (ws ++ rest)).
Proof.
  induction ws as [|c ws IH]; intros fuel p rest Hf Hws;
    (destruct fuel as [|fuel]; [simpl in Hf; lia|]).
  - cbn [repeat_ends max_is_zero Nat.eqb negb append lastOr].
    apply in_or_app. right. now left.
  - cbn [allChars] in Hws. apply andb_true_iff in Hws. destruct Hws as [Hc Hws].
    cbn [repeat_ends max_is_zero Nat.eqb negb append lastOr].
    apply in_or_app. left.
    assert (Hstep : ends fl_i space p (String c (ws ++ rest))
                    = [(Some c, ws ++ rest)]).
    { unfold space. cbn [ends step_atom].
      change (atom_accepts fl_i (Class false [CSpace]) c)
        with (atom_accepts fl_i space c).
      now rewrite space_accepts, Hc. }
    rewrite Hstep.
    cbn [flat_map fst snd andb String.length].
    replace (String.length (ws ++ rest) =? S (String.length (ws ++ rest)))
      with false by (symmetry; apply Nat.eqb_neq; lia).
    rewrite app_nil_r. cbn [Nat.pred pred_max].
    apply IH; [simpl in Hf; lia|exact Hws].
Qed.

Lemma ends_fontFamily_reach (font m1 ws m2 rest : string) (p : option ascii) :
  toLowerCase m1 = toLowerCase "font-family:" ->
  allChars isWhiteSpace ws = true ->
  toLowerCase m2 = toLowerCase font ->
  ends fl_i (fontFamily font) p (m1 ++ ws ++ m2 ++ rest) <> [].
Proof.
  intros H1 Hws H2 Hnil.
  assert (Hin : In (lastOr (lastOr (lastOr p m1) ws) m2, rest)
                   (ends fl_i (fontFamily font) p (m1 ++ ws ++ m2 ++ rest))).
  { unfold fontFamily. cbn [seqs ends].
    apply in_flat_map. exists (lastOr p m1, ws ++ m2 ++ rest). split.
    - change fl_i with gi. rewrite (@ends_literal_exact "font-family:" m1 p _ H1).
      now left.
    - cbn [fst snd]. apply in_flat_map.
      exists (lastOr (lastOr p m1) ws, m2 ++ rest). split.
      + unfold star. cbn [ends]. apply repeat_space_reach; [lia|exact Hws].
      + cbn [fst snd]. change fl_i with gi.
        rewrite (@ends_literal_exact font m2 _ rest H2). now left. }
  rewrite Hnil in Hin. destruct Hin.
Qed.

Lemma ends_fontFamily_inv (font t : string) (p : option ascii) (ps : position) :
  In ps (ends fl_i (fontFamily font) p t) ->
  exists m1 ws m2,
    t = m1 ++ ws ++ m2 ++ snd ps /\
    toLowerCase m1 = toLowerCase "font-family:" /\
    allChars isWhiteSpace ws = true /\
    toLowerCase m2 = toLowerCase font.
Proof.
  unfold fontFamily. cbn [seqs ends]. intros Hin.
  apply in_flat_map in Hin. destruct Hin as [mid1 [H1 Hin]].
  apply in_flat_map in Hin. destruct Hin as [mid2 [H2 H3]].
  change fl_i with gi in H1, H3.
  apply ends_literal_gi in H1. destruct H1 as [m1 [E1 L1]].
  apply ends_literal_gi in H3. destruct H3 as [m2 [E3 L3]].
  apply ends_alphabet in H2. destruct H2 as [ws [E2 A2]].
  exists m1, ws, m2. split; [|split; [exact L1|split; [|exact L3]]].
  - now rewrite E1, E2, E3 at 1.
  - eapply allChars_impl; [|exact A2].
    intros c Hc. change (atom_accepts fl_i space c = true) in Hc.
    now rewrite space_accepts in Hc.
Qed.

Lemma test_fontFamily (text font : string) :
  test fl_i (fontFamily font) text = true <-> declaresFont text font.
Proof.
  unfold test. split.
  - destruct (exec_from fl_i (fontFamily font) None text 0) as [mr|] eqn:E;
      [intros _|discriminate].
    apply exec_from_match in E. destruct E as [pre [p0 [t0 [Et [_ [Hin _]]]]]].
    apply ends_fontFamily_inv in Hin.
    destruct Hin as [m1 [ws [m2 [Et0 [H1 [H2 H3]]]]]].
    exists pre, m1, ws, m2, (snd (after mr)).
    rewrite <- Et0. auto.
  - intros [pre [m1 [ws [m2 [rest [Et [H1 [H2 H3]]]]]]]].
    destruct (exec_from fl_i (fontFamily font) None text 0) as [mr|] eqn:E;
      [reflexivity|].
    exfalso. revert E. rewrite Et. apply exec_from_complete.
    now apply ends_fontFamily_reach.
Qed.

Lemma filter_existsb (A : Type) (f : A -> bool) (l : list A) :
  (0 <? List.length (filter f l)) = existsb f l.
Proof.
  induction l as [|a l IH]; [reflexivity|]. simpl.
  destruct (f a); [reflexivity|exact IH].
Qed.

Lemma mean4_Num (a b c d : Q) :
  exists q, mean4 (Num a) (Num b) (Num c) (Num d) = Num q /\
            (q == (a + b + c + d) / 4)%Q.
Proof.
  unfold mean4. cbn [add]. rewrite ofNat_Num. unfold div.
  change (isZero (inject_Z (Z.of_nat 4))) with false. cbn iota.
  eexists. split; [reflexivity|].
  rewrite !Qred_correct. reflexivity.
Qed.

(** C6, amended.  The four reported sub-scores are what the keyword,
    readability, formatting and certification analyses returned, and the
    overall score is their unweighted mean: with at least one keyword all
    five are finite numbers and overall is a quarter of the sum of the
    four (with no keyword the keyword score and overall are NaN).  The
    font analysis stores its four checks, a font being found exactly when
    the text declares it, and computes a sub-score of 100 when a font is
    found and of 0 otherwise; this sub-score is dropped: the report has
    no place for it and is the same for any two sets of scores that agree
    on the other four. *)
Theorem overall_is_mean_of_four (selectedWords : list string) (text : string) :
  let st := handleFileUpload selectedWords text in
  let s := computeScores selectedWords text in
  keywordMatch (atsScore st) = keywordScore (analyzeKeywords selectedWords text) /\
  readability (atsScore st) = snd (analyzeReadability text) /\
  formatting (atsScore st) = calculateFormattingScore text /\
  certifications (atsScore st) = snd (analyzeCertifications text) /\
  match selectedWords with
  | [] => overall (atsScore st) = NaN
  | _ :: _ =>
      exists a b c d q,
        keywordMatch (atsScore st) = Num a /\
        readability (atsScore st) = Num b /\
        formatting (atsScore st) = Num c /\
        certifications (atsScore st) = Num d /\
        overall (atsScore st) = Num q /\
        (q == (a + b + c + d) / 4)%Q
  end /\
  map name (fontChecks st) = ["Calibri"; "Arial"; "Times New Roman"; "Helvetica"] /\
  Forall (fun c => found c = true <-> declaresFont text (name c)) (fontChecks st) /\
  fontScore s = (if existsb found (fontChecks st) then ofNat 100 else ofNat 0) /\
  forall s1 s2 : Scores,
    keywordScore' s1 = keywordScore' s2 ->
    readabilityScore s1 = readabilityScore s2 ->
    formattingScore s1 = formattingScore s2 ->
    certScore s1 = certScore s2 ->
    toATSScore s1 = toATSScore s2.
Proof.
  intros st s.
  split; [reflexivity|]. split; [reflexivity|]. split; [reflexivity|].
  split; [reflexivity|].
  split; [|split; [reflexivity|split; [|split]]].
  - destruct selectedWords as [|w ws]; [reflexivity|].
    set (sw := w :: ws) in *.
    assert (Hne : 0 < List.length sw) by (unfold sw; simpl; lia).
    destruct (@percentage_Num
                (List.length (filter (occursAsWord text) sw))
                (List.length sw) Hne) as [a [Ea _]].
    destruct (@percentage_Num
                (List.length (filter met (fst (analyzeReadability text))))
                (List.length (fst (analyzeReadability text))))
      as [b [Eb _]]; [unfold analyzeReadability; simpl; lia|].
    destruct (@percentage_Num
                (List.length (filter cert_found (fst (analyzeCertifications text))))
                (List.length (fst (analyzeCertifications text))))
      as [d [Ed _]]; [unfold analyzeCertifications; simpl; lia|].
    assert (Hc : exists c, calculateFormattingScore text = Num c).
    { unfold calculateFormattingScore.
      match goal with |- exists c, percentage ?k ?n = _ =>
        destruct (@percentage_Num k n) as [c [Ec _]]; [simpl; lia|]
      end.
      exists c. exact Ec. }
    destruct Hc as [c Ec].
    destruct (mean4_Num a b c d) as [q [Eq Hq]].
    exists a, b, c, d, q.
    assert (Hk : keywordMatch (atsScore st) = Num a)
      by (unfold st; cbn [handleFileUpload atsScore toATSScore keywordMatch
                          computeScores keywordScore'];
          now rewrite analyzeKeywords_score).
    assert (Hr : readability (atsScore st) = Num b) by exact Eb.
    assert (Hf : formatting (atsScore st) = Num c) by exact Ec.
    assert (Hd : certifications (atsScore st) = Num d) by exact Ed.
    repeat split; try assumption.
    change (overall (atsScore st))
      with (mean4 (keywordMatch (atsScore st)) (readability (atsScore st))
                  (formatting (atsScore st)) (certifications (atsScore st))).
    now rewrite Hk, Hr, Hf, Hd.
  - unfold st. cbn [handleFileUpload fontChecks]. unfold analyzeFonts.
    cbn [fst]. unfold allowedFonts. cbn [map fst snd found name].
    repeat constructor; cbn [found name]; apply test_fontFamily.
  - unfold s, st. cbn [computeScores fontScore handleFileUpload fontChecks].
    unfold analyzeFonts. cbn [fst snd]. now rewrite filter_existsb.
  - intros s1 s2 Hk Hr Hf Hc. unfold toATSScore. now rewrite Hk, Hr, Hf, Hc.
Qed.

(** Two uploads whose font sub-scores are 100 and 0 store the same
    report, in which no number is a font score. *)
Lemma font_score_not_reported :
  fontScore (computeScores ["alpha"; "beta"] "alpha font-family: Arial")
  = ofNat 100 /\
  fontScore (computeScores ["alpha"; "beta"] "alpha font-family: Comic")
  = ofNat 0 /\
  atsScore (handleFileUpload ["alpha"; "beta"] "alpha font-family: Arial")
  = atsScore (handleFileUpload ["alpha"; "beta"] "alpha font-family: Comic") /\
  atsScore (handleFileUpload ["alpha"; "beta"] "alpha font-family: Arial")
  = {| overall := Num (95 # 4);
       keywordMatch := Num 50;
       formatting := Num 20;
       readability := Num 25;
       certifications := Num 0 |}.
Proof. repeat split; vm_compute; reflexivity. Qed.
End OverallScore.
